(** * jupyterlab-browser-ai: tool-call emulation and model lifecycle

    A shallow embedding of
    - [ChromeAIToolCallingProvider.parseToolCallResponse] and the
      [TransformStream] of [doStream]
        (src/provider.ts, lines 37 to 101 and 140 to 228),
    - [prependSystemPromptToMessages]
        (src/polyfill.ts, lines 143 to 171),
    - [getOrCreateWebLLMModel], [initializeWebLLMModel],
      [acquireModelExecutionSlot] and the proxy that uses it
        (the provider registry plugin, src/chrome-ai-file-summarizer.ts,
         lines 1048 to 1285),
    together with the properties the specification states about them;
    and of the functions around them,
    - [doGenerate] and [preprocessPrompt] (src/provider.ts),
    - the wrapped [prompt] and [promptStreaming] of a session
        (src/polyfill.ts, lines 203 to 238),
    - [wrapSerializedStream], the progress notifications of the two
      backends, the configured model names, the WebLLM factory and
      preload, and the Transformers.js models
        (the provider registry plugin, lines 1085 to 1633),
    with properties read from the code.

    JavaScript strings are sequences of UTF-16 code units; a code unit is
    a number of type [N].  What the runtime provides is modelled from the
    ECMAScript definition of these builtins: [String.prototype.trim],
    property reads, ToBoolean and [JSON.parse] in module [JS], the
    matches of the two regular expressions in module [Provider]. *)

From Stdlib Require Import ZArith NArith Ascii String Bool Lia.
From stdpp Require Import base option list gmap.

Set Warnings "-register-all,-clear-no-such-hyp".
Local Open Scope N_scope.

(* ===================================================================== *)
(** * The JavaScript runtime: strings, completions, JSON                 *)
(* ===================================================================== *)

Module JS.

(** A JavaScript string: the list of its UTF-16 code units. *)
Abbreviation jsstring := (list N).

(** [str] reads an ASCII literal as a JavaScript string. *)
Definition str (s : string) : jsstring :=
  N_of_ascii <$> list_ascii_of_string s.

(** [qq] is [str] with every apostrophe read as a double quote, to write
    JSON texts as literals. *)
Definition qq (s : string) : jsstring :=
  (fun c => if c =? 39 then 34 else c) <$> str s.

Abbreviation LF := 10%N.
Abbreviation BACKTICK := 96%N.
Abbreviation LBRACE := 123%N.
Abbreviation RBRACE := 125%N.

(** The triple backtick that opens and closes a fenced code block. *)
Abbreviation FENCE := [BACKTICK; BACKTICK; BACKTICK].

(** ** Whitespace

    [String.prototype.trim] and the regular-expression class [\s] use the
    same set: WhiteSpace and LineTerminator of ECMA-262. *)
Definition is_js_whitespace (c : N) : bool :=
  (c =? 9) || (c =? 10) || (c =? 11) || (c =? 12) || (c =? 13) ||
  (c =? 32) || (c =? 160) || (c =? 5760) ||
  ((8192 <=? c) && (c <=? 8202)) ||
  (c =? 8232) || (c =? 8233) || (c =? 8239) || (c =? 8287) ||
  (c =? 12288) || (c =? 65279).

Fixpoint drop_ws (s : jsstring) : jsstring :=
  match s with
  | c :: s' => if is_js_whitespace c then drop_ws s' else s
  | [] => []
  end.

(** Without the whitespace at the end. *)
Definition rtrim (s : jsstring) : jsstring :=
  rev (drop_ws (rev s)).

(** [text.trim()] *)
Definition trim (s : jsstring) : jsstring :=
  rtrim (drop_ws s).

(** ** Prefixes and substrings *)

(** [strip_prefix p s]: the rest of [s] after the prefix [p], when [s]
    starts with [p]. *)
Fixpoint strip_prefix (p s : jsstring) : option jsstring :=
  match p, s with
  | [], _ => Some s
  | a :: p', b :: s' => if a =? b then strip_prefix p' s' else None
  | _ :: _, [] => None
  end.

(** [s.startsWith(p)] *)
Definition starts_with (p s : jsstring) : bool :=
  match strip_prefix p s with Some _ => true | None => false end.

(** [after_first p s]: what follows the leftmost occurrence of [p] in
    [s]. *)
Fixpoint after_first (p s : jsstring) : option jsstring :=
  match strip_prefix p s with
  | Some r => Some r
  | None => match s with
            | [] => None
            | _ :: s' => after_first p s'
            end
  end.

(** [s.includes(p)] *)
Definition includes (p s : jsstring) : bool :=
  match after_first p s with Some _ => true | None => false end.

(** [from_first c s]: the suffix of [s] that starts at the leftmost [c]. *)
Fixpoint from_first (c : N) (s : jsstring) : option jsstring :=
  match s with
  | [] => None
  | a :: s' => if a =? c then Some s else from_first c s'
  end.

(** [upto_last c s]: the prefix of [s] that ends at the rightmost [c]. *)
Definition upto_last (c : N) (s : jsstring) : option jsstring :=
  @rev N <$> from_first c (rev s).

(** ** Completions

    A JavaScript evaluation either completes normally with a value or
    throws.  Only the kind of the exception is kept. *)
Inductive exn := SyntaxError | TypeError.

Inductive completion (A : Type) :=
  | Normal (a : A)
  | Throw (e : exn).
Arguments Normal {A} a.
Arguments Throw {A} e.

#[export] Instance completion_ret : MRet completion := @Normal.
#[export] Instance completion_bind : MBind completion :=
  fun A B f m => match m with Normal a => f a | Throw e => Throw e end.

(** [try { body } catch (error) { handler }] *)
Definition try_catch {A} (body : completion A) (handler : exn -> completion A)
  : completion A :=
  match body with
  | Normal a => Normal a
  | Throw e => handler e
  end.

(** ** JSON values

    The values [JSON.parse] can produce.  A number keeps the sign and the
    exact decimal value [m * 10^e] of its literal.  An object keeps its
    members in the order of the text; a property read takes the last
    member with that key, as [JSON.parse] lets a later duplicate
    overwrite an earlier one. *)
Inductive json :=
  | JNull
  | JBool (b : bool)
  | JNumber (neg : bool) (m : N) (e : Z)
  | JString (s : jsstring)
  | JArray (elems : list json)
  | JObject (members : list (jsstring * json)).

(** A JavaScript value that is either [undefined] ([None]) or a JSON
    value. *)
Abbreviation jsval := (option json).

(** [number_is_zero m e]: the IEEE double nearest to [m * 10^e] is zero,
    that is [m * 10^e <= 2^-1075] (half of the least subnormal, the tie
    going to the even neighbour 0). *)
Definition number_is_zero (m : N) (e : Z) : bool :=
  (m =? 0) ||
  ((e <? 0)%Z && (Z.of_N m * 2 ^ 1075 <=? 10 ^ (- e))%Z).

(** ToBoolean *)
Definition truthy (v : jsval) : bool :=
  match v with
  | None => false
  | Some JNull => false
  | Some (JBool b) => b
  | Some (JNumber _ m e) => negb (number_is_zero m e)
  | Some (JString s) => match s with [] => false | _ => true end
  | Some (JArray _) => true
  | Some (JObject _) => true
  end.

(** [typeof v === 'string'] *)
Definition is_string (v : jsval) : bool :=
  match v with Some (JString _) => true | _ => false end.

(** [v === s] for a string literal [s] *)
Definition strict_eq_str (v : jsval) (s : jsstring) : bool :=
  match v with
  | Some (JString s') => bool_decide (s' = s)
  | _ => false
  end.

(** The last member with key [k]. *)
Fixpoint lookup_member (k : jsstring) (ms : list (jsstring * json)) : jsval :=
  match ms with
  | [] => None
  | (k', v) :: ms' =>
      match lookup_member k ms' with
      | Some w => Some w
      | None => if bool_decide (k' = k) then Some v else None
      end
  end.

(** [v.k] for the property names this program reads ([output], [type],
    [callId], [name], [arguments]): none of them is inherited from
    [Object.prototype], [Array.prototype] or a primitive's wrapper, so
    the read gives an own member of an object, [undefined] on any other
    value, and throws a TypeError on [null]. *)
Definition get_prop (v : json) (k : jsstring) : completion jsval :=
  match v with
  | JNull => Throw TypeError
  | JObject ms => Normal (lookup_member k ms)
  | _ => Normal None
  end.

(** ** JSON.parse: the lexical grammar *)

Inductive token :=
  | TLBrace | TRBrace | TLBracket | TRBracket | TColon | TComma
  | TStr (s : jsstring)
  | TNum (neg : bool) (m : N) (e : Z)
  | TTrue | TFalse | TNull.

(** JSON whitespace: tab, line feed, carriage return, space. *)
Definition is_json_ws (c : N) : bool :=
  (c =? 9) || (c =? 10) || (c =? 13) || (c =? 32).

Definition is_digit (c : N) : bool := (48 <=? c) && (c <=? 57).

(** Characters that can continue a number literal: digits, sign, point,
    exponent mark. *)
Definition is_num_char (c : N) : bool :=
  is_digit c || (c =? 45) || (c =? 43) || (c =? 46) || (c =? 101) || (c =? 69).

Definition is_lower (c : N) : bool := (97 <=? c) && (c <=? 122).

Definition hex_digit (c : N) : option N :=
  if is_digit c then Some (c - 48)
  else if (97 <=? c) && (c <=? 102) then Some (c - 87)
  else if (65 <=? c) && (c <=? 70) then Some (c - 55)
  else None.

(** The single-character escapes of a JSON string. *)
Definition escape (c : N) : option N :=
  if c =? 34 then Some 34          (* quote *)
  else if c =? 92 then Some 92     (* backslash *)
  else if c =? 47 then Some 47     (* slash *)
  else if c =? 98 then Some 8      (* b: backspace *)
  else if c =? 102 then Some 12    (* f: form feed *)
  else if c =? 110 then Some 10    (* n: line feed *)
  else if c =? 114 then Some 13    (* r: carriage return *)
  else if c =? 116 then Some 9     (* t: tab *)
  else None.

(** *** Number literals

    An optional minus; an integer part that is the digit 0 or starts with
    a digit from 1 to 9; optionally a point and one or more digits;
    optionally an exponent mark, an optional sign and one or more
    digits. *)

(** Reads a run of digits: its value, its length, the rest. *)
Fixpoint read_digits (acc : N) (n : nat) (s : jsstring) : N * nat * jsstring :=
  match s with
  | c :: s' => if is_digit c then read_digits (10 * acc + (c - 48)) (S n) s'
               else (acc, n, s)
  | [] => (acc, n, [])
  end.

Definition read_exponent (s : jsstring) : option Z :=
  match s with
  | [] => Some 0%Z
  | c :: s1 =>
      if (c =? 101) || (c =? 69) then
        let '(sgn, s2) :=
          match s1 with
          | d :: s2 => if d =? 45 then (true, s2)
                       else if d =? 43 then (false, s2) else (false, s1)
          | [] => (false, s1)
          end in
        match read_digits 0 0 s2 with
        | (v, S _, []) => Some (if sgn then (- Z.of_N v)%Z else Z.of_N v)
        | _ => None
        end
      else None
  end.

Definition number_token (s : jsstring) : option token :=
  let '(neg, s0) :=
    match s with
    | c :: s' => if c =? 45 then (true, s') else (false, s)
    | [] => (false, s)
    end in
  match s0 with
  | [] => None
  | c :: _ =>
      let '(ip, n, s1) := read_digits 0 0 s0 in
      match n with
      | O => None
      | S k =>
          (* no leading zero unless the integer part is the single digit 0 *)
          if (c =? 48) && negb (Nat.eqb k 0) then None else
          match s1 with
          | d :: s2 =>
              if d =? 46 then
                let '(m, nf, s3) := read_digits ip 0 s2 in
                match nf with
                | O => None
                | S _ => e ← read_exponent s3;
                         Some (TNum neg m (e - Z.of_nat nf)%Z)
                end
              else e ← read_exponent s1; Some (TNum neg ip e)
          | [] => Some (TNum neg ip 0%Z)
          end
      end
  end.

Definition word_token (s : jsstring) : option token :=
  if bool_decide (s = str "true") then Some TTrue
  else if bool_decide (s = str "false") then Some TFalse
  else if bool_decide (s = str "null") then Some TNull
  else None.

(** *** The scanner, one code unit at a time *)

Inductive lex_mode :=
  | LTop                                    (* between two tokens *)
  | LStr (acc : jsstring)                   (* in a string; [acc] reversed *)
  | LEsc (acc : jsstring)                   (* after a backslash *)
  | LHex (acc : jsstring) (k : nat) (v : N) (* in \uXXXX, [k] digits read *)
  | LNum (acc : jsstring)                   (* in a number; [acc] reversed *)
  | LWord (acc : jsstring).                 (* in true, false or null *)

Definition punct (c : N) : option token :=
  if c =? 123 then Some TLBrace
  else if c =? 125 then Some TRBrace
  else if c =? 91 then Some TLBracket
  else if c =? 93 then Some TRBracket
  else if c =? 58 then Some TColon
  else if c =? 44 then Some TComma
  else None.

(** A code unit read between two tokens. *)
Definition lex_top (out : list token) (c : N) : option (lex_mode * list token) :=
  if is_json_ws c then Some (LTop, out)
  else match punct c with
       | Some t => Some (LTop, t :: out)
       | None =>
           if c =? 34 then Some (LStr [], out)
           else if is_digit c || (c =? 45) then Some (LNum [c], out)
           else if is_lower c then Some (LWord [c], out)
           else None
       end.

(** [out] holds the tokens read so far, last one first. *)
Definition lex_step (mode : lex_mode) (out : list token) (c : N)
  : option (lex_mode * list token) :=
  match mode with
  | LTop => lex_top out c
  | LStr acc =>
      if c =? 34 then Some (LTop, TStr (rev acc) :: out)
      else if c =? 92 then Some (LEsc acc, out)
      else if c <? 32 then None
      else Some (LStr (c :: acc), out)
  | LEsc acc =>
      match escape c with
      | Some d => Some (LStr (d :: acc), out)
      | None => if c =? 117 then Some (LHex acc 0 0, out) else None
      end
  | LHex acc k v =>
      d ← hex_digit c;
      let v' := 16 * v + d in
      Some (if Nat.eqb k 3 then LStr (v' :: acc) else LHex acc (S k) v', out)
  | LNum acc =>
      if is_num_char c then Some (LNum (c :: acc), out)
      else t ← number_token (rev acc); lex_top (t :: out) c
  | LWord acc =>
      if is_lower c then Some (LWord (c :: acc), out)
      else t ← word_token (rev acc); lex_top (t :: out) c
  end.

Fixpoint lex (mode : lex_mode) (out : list token) (s : jsstring)
  : option (list token) :=
  match s with
  | c :: s' => '(mode', out') ← lex_step mode out c; lex mode' out' s'
  | [] =>
      match mode with
      | LTop => Some (rev out)
      | LNum acc => t ← number_token (rev acc); Some (rev (t :: out))
      | LWord acc => t ← word_token (rev acc); Some (rev (t :: out))
      | _ => None
      end
  end.

(** ** JSON.parse: the syntactic grammar, with an explicit stack *)

(** An open container: an array with the elements read so far, or an
    object with the members read so far and the key of the member being
    read (both lists last one first). *)
Inductive frame :=
  | FArr (elems : list json)
  | FObj (members : list (jsstring * json)) (key : jsstring).

Inductive pstate :=
  | PValue (stk : list frame)       (* a value must follow *)
  | PArrFirst (stk : list frame)    (* after [[]: a value or []] *)
  | PObjFirst (stk : list frame)    (* after [{]: a key or [}] *)
  | PObjKey (ms : list (jsstring * json)) (stk : list frame)
                                    (* after [,] in an object: a key *)
  | PColon (stk : list frame)       (* after a key: [:] *)
  | PAfter (stk : list frame)       (* after a value in a container *)
  | PDone (v : json).               (* the whole value has been read *)

(** A complete value [v] goes to the innermost open container. *)
Definition deliver (v : json) (stk : list frame) : pstate :=
  match stk with
  | [] => PDone v
  | FArr elems :: stk' => PAfter (FArr (v :: elems) :: stk')
  | FObj ms k :: stk' => PAfter (FObj ((k, v) :: ms) k :: stk')
  end.

(** A token where a value must start. *)
Definition parse_value (stk : list frame) (t : token) : option pstate :=
  match t with
  | TLBrace => Some (PObjFirst stk)
  | TLBracket => Some (PArrFirst stk)
  | TStr s => Some (deliver (JString s) stk)
  | TNum neg m e => Some (deliver (JNumber neg m e) stk)
  | TTrue => Some (deliver (JBool true) stk)
  | TFalse => Some (deliver (JBool false) stk)
  | TNull => Some (deliver JNull stk)
  | _ => None
  end.

Definition parse_step (st : pstate) (t : token) : option pstate :=
  match st with
  | PValue stk => parse_value stk t
  | PArrFirst stk =>
      match t with
      | TRBracket => Some (deliver (JArray []) stk)
      | _ => parse_value (FArr [] :: stk) t
      end
  | PObjFirst stk =>
      match t with
      | TRBrace => Some (deliver (JObject []) stk)
      | TStr k => Some (PColon (FObj [] k :: stk))
      | _ => None
      end
  | PObjKey ms stk =>
      match t with
      | TStr k => Some (PColon (FObj ms k :: stk))
      | _ => None
      end
  | PColon stk =>
      match t with
      | TColon => Some (PValue stk)
      | _ => None
      end
  | PAfter (FArr elems :: stk) =>
      match t with
      | TComma => Some (PValue (FArr elems :: stk))
      | TRBracket => Some (deliver (JArray (rev elems)) stk)
      | _ => None
      end
  | PAfter (FObj ms _ :: stk) =>
      match t with
      | TComma => Some (PObjKey ms stk)
      | TRBrace => Some (deliver (JObject (rev ms)) stk)
      | _ => None
      end
  | PAfter [] => None
  | PDone _ => None
  end.

Fixpoint parse_tokens (st : pstate) (ts : list token) : option json :=
  match ts with
  | t :: ts' => st' ← parse_step st t; parse_tokens st' ts'
  | [] => match st with PDone v => Some v | _ => None end
  end.

(** [JSON.parse(text)]: the value, or a SyntaxError. *)
Definition JSON_parse (text : jsstring) : completion json :=
  match lex LTop [] text ≫= parse_tokens (PValue []) with
  | Some v => Normal v
  | None => Throw SyntaxError
  end.

End JS.

(* ===================================================================== *)
(** * src/provider.ts: ChromeAIToolCallingProvider                        *)
(* ===================================================================== *)

(** [parseToolCallResponse] (lines 37 to 101) and the [transform] of
    [doStream] (lines 148 to 222).  The second version of the class in
    the file has the same two bodies. *)

Module Provider.
Import JS.

(** ** The two regular expressions of [parseToolCallResponse]

    Both are matched with [String.prototype.match] and no flag, which
    gives the leftmost match under the backtracking priorities of
    ECMA-262.  For these two patterns the result is computed directly. *)

(** The capture of the lazy group [([\s\S]*?)] followed by [\n?```]: the
    shortest prefix of [s] after which comes a fence, or a line feed and
    a fence. *)
Fixpoint lazy_until_fence (s : jsstring) : option jsstring :=
  if starts_with (LF :: FENCE) s || starts_with FENCE s then Some []
  else match s with
       | [] => None
       | c :: s' => cons c <$> lazy_until_fence s'
       end.

(** Group 1 of [/```(?:json)?\s*\n?([\s\S]*?)\n?```/] on [s].

    A match must start at a fence.  After it the greedy [(?:json)?] and
    [\s*] take the tag and all the whitespace that follow, which leaves
    nothing for [\n?]; none of the code units they take is a backtick, so
    a closing fence that any other choice could reach is reached by this
    first choice too, and the engine never backtracks into them.  For
    the same reason, if the leftmost fence cannot start a match, no
    later one can. *)
Definition code_block_match (s : jsstring) : option jsstring :=
  r ← after_first FENCE s;
  lazy_until_fence (drop_ws (default r (strip_prefix (str "json") r))).

(** The match of [/\{[\s\S]*\}/] on [s]: from the leftmost opening
    brace to the last closing brace after it. *)
Definition json_match (s : jsstring) : option jsstring :=
  from_first LBRACE s ≫= upto_last RBRACE.

(** The text handed to [JSON.parse]: [jsonText] at line 59. *)
Definition candidate (text : jsstring) : jsstring :=
  let jsonText := trim text in
  (* Try 1: extract from a markdown code block *)
  let jsonText :=
    match code_block_match jsonText with
    | Some group1 => trim group1
    | None => jsonText
    end in
  (* Try 2: find a JSON object in the text *)
  if negb (starts_with [LBRACE] jsonText) then
    match json_match jsonText with
    | Some m => m
    | None => jsonText
    end
  else jsonText.

(** The callback of [parsed.output.every]: the truth value of
    [item.type === 'function_call' && item.callId && item.name &&
     typeof item.arguments === 'string']. *)
Definition hasRequiredFields (item : json) : completion bool :=
  type ← get_prop item (str "type");
  if negb (strict_eq_str type (str "function_call")) then Normal false else
  callId ← get_prop item (str "callId");
  if negb (truthy callId) then Normal false else
  name ← get_prop item (str "name");
  if negb (truthy name) then Normal false else
  arguments ← get_prop item (str "arguments");
  Normal (is_string arguments).

(** [Array.prototype.every] *)
Fixpoint every (f : json -> completion bool) (l : list json) : completion bool :=
  match l with
  | [] => Normal true
  | x :: l' => f x ≫= λ b : bool, if b then every f l' else Normal false
  end.

(** The body of the [try] block, lines 60 to 91.  [None] is [null]. *)
Definition parse_body (jsonText : jsstring) : completion (option (list json)) :=
  parsed ← JSON_parse jsonText;
  output ← get_prop parsed (str "output");
  match output with
  | Some (JArray items) =>
      (* parsed.output && Array.isArray(parsed.output) *)
      every hasRequiredFields items ≫= λ isToolCallResponse : bool,
      if isToolCallResponse then Normal (Some items) else Normal None
  | _ => Normal None
  end.

(** [parseToolCallResponse(text)].  The [console] calls are not
    modelled: they have no effect on the result. *)
Definition parseToolCallResponse (text : jsstring)
  : completion (option (list json)) :=
  try_catch (parse_body (candidate text)) (fun _ => Normal None).

(** ** The stream parts of [doStream]

    [LanguageModelV2StreamPart], a union tagged by [type].  The fields of
    the tool parts that [doStream] fills from a parsed call hold whatever
    value the JSON had there. *)
Inductive part :=
  | TextStart (id : jsstring)
  | TextDelta (id : jsstring) (delta : jsstring)
  | TextEnd (id : jsstring)
  | ToolInputStart (id : jsval) (toolName : jsval)
  | ToolInputDelta (id : jsval) (delta : jsval)
  | ToolInputEnd (id : jsval)
  | ToolCall (toolCallId : jsval) (toolName : jsval) (input : jsval)
  | OtherPart (type : jsstring) (payload : json).

(** The variables the [transform] closure captures. *)
Record buffer := Buffer {
  bufferedText : jsstring;
  textId : option jsstring          (* [string | null] *)
}.

Definition initial_buffer : buffer :=
  {| bufferedText := []; textId := None |}.

(** A property of a validated call: [call.callId], [call.name],
    [call.arguments].  Validation has read [item.type] of every item
    without a throw, so no item is [null] and the read cannot throw. *)
Definition field (call : json) (k : jsstring) : jsval :=
  match get_prop call k with
  | Normal v => v
  | Throw _ => None
  end.

(** The four parts enqueued for one call, lines 170 to 192. *)
Definition tool_parts (call : json) : list part :=
  [ ToolInputStart (field call (str "callId")) (field call (str "name"));
    ToolInputDelta (field call (str "callId")) (field call (str "arguments"));
    ToolInputEnd (field call (str "callId"));
    ToolCall (field call (str "callId")) (field call (str "name"))
             (field call (str "arguments")) ].

(** [transform(chunk, controller)]: the new values of the captured
    variables and the parts enqueued, in order. *)
Definition transform (b : buffer) (chunk : part)
  : completion (buffer * list part) :=
  match chunk with
  | TextStart id =>
      Normal ({| bufferedText := []; textId := Some id |}, [])
  | TextDelta _ delta =>
      Normal ({| bufferedText := bufferedText b ++ delta; textId := textId b |}, [])
  | TextEnd _ =>
      toolCalls ← parseToolCallResponse (bufferedText b);
      match toolCalls with
      | Some calls => Normal (b, calls ≫= tool_parts)
      | None =>
          (* if (textId): neither null nor the empty string *)
          match textId b with
          | Some (c :: cs) =>
              let id := c :: cs in
              Normal (b, [TextStart id; TextDelta id (bufferedText b); TextEnd id])
          | _ => Normal (b, [])
          end
      end
  | _ => Normal (b, [chunk])
  end.

(** The transformed stream: [transform] applied to every part of the
    source stream, the outputs concatenated. *)
Fixpoint pipeThrough (b : buffer) (stream : list part) : completion (list part) :=
  match stream with
  | [] => Normal []
  | chunk :: rest =>
      '(b', out) ← transform b chunk;
      out' ← pipeThrough b' rest;
      Normal (out ++ out')
  end.

(** The stream [doStream] returns for the source stream of the parent. *)
Definition doStream (stream : list part) : completion (list part) :=
  pipeThrough initial_buffer stream.

End Provider.

(* ===================================================================== *)
(** * src/polyfill.ts: prependSystemPromptToMessages                      *)
(* ===================================================================== *)

Module Polyfill.
Import JS.

(** Objects live in a heap and are passed by reference, as in
    JavaScript: an array holds the references of its elements. *)
Abbreviation loc := positive.

(** The content of a message: a string, or a list of parts.  The type
    [S] of the structured content and its [JSON.stringify] are
    parameters. *)
Inductive content (S : Type) :=
  | Text (s : jsstring)
  | Parts (v : S).
Arguments Text {S} s.
Arguments Parts {S} v.

(** A [LanguageModelMessage]: [role], [content] and its other own
    properties, which the object spread copies. *)
Record message (S : Type) := Message {
  role : jsstring;
  content_of : content S;
  other_props : list (jsstring * json)
}.
Arguments Message {S} role content_of other_props.
Arguments role {S} m.
Arguments content_of {S} m.
Arguments other_props {S} m.

Inductive cell (S : Type) :=
  | MessageObject (m : message S)
  | ArrayObject (elems : list loc).
Arguments MessageObject {S} m.
Arguments ArrayObject {S} elems.

Abbreviation heap S := (gmap loc (cell S)).

(** [Array.prototype.findIndex]; [None] stands for -1. *)
Fixpoint findIndex {A} (f : A -> bool) (l : list A) : option nat :=
  match l with
  | [] => None
  | x :: l' => if f x then Some 0%nat else S <$> findIndex f l'
  end.

Section Prepend.
Context {S : Type} (JSON_stringify : S -> jsstring).

(** [p.role === 'user'] for the object that [p] refers to. *)
Definition role_is_user (h : heap S) (p : loc) : bool :=
  match h !! p with
  | Some (MessageObject m) => bool_decide (role m = str "user")
  | _ => false
  end.

(** [typeof content === 'string' ? content : JSON.stringify(content)] *)
Definition originalContent (c : content S) : jsstring :=
  match c with
  | Text s => s
  | Parts v => JSON_stringify v
  end.

(** [prependSystemPromptToMessages(messages, systemPrompt)] on the heap
    [h]: the heap after the call and the reference it returns. *)
Definition prependSystemPromptToMessages
    (h : heap S) (messages : loc) (systemPrompt : jsstring) : heap S * loc :=
  (* const allPrompts = Array.isArray(messages) ? [...messages] : [messages] *)
  let elems :=
    match h !! messages with
    | Some (ArrayObject es) => es
    | _ => [messages]
    end in
  let allPrompts := fresh (dom h) in
  let h1 := <[allPrompts := ArrayObject elems]> h in
  match findIndex (role_is_user h1) elems with
  | Some firstUserMessageIndex =>
      match elems !! firstUserMessageIndex ≫= (h1 !!.) with
      | Some (MessageObject firstUserMessage) =>
          (* allPrompts[firstUserMessageIndex] = { ...firstUserMessage, content } *)
          let o := fresh (dom h1) in
          let h2 :=
            <[o := MessageObject
                     {| role := role firstUserMessage;
                        content_of :=
                          Text (systemPrompt ++ [LF; LF] ++
                                originalContent (content_of firstUserMessage));
                        other_props := other_props firstUserMessage |}]> h1 in
          (<[allPrompts := ArrayObject (<[firstUserMessageIndex := o]> elems)]> h2,
           allPrompts)
      | _ => (h1, allPrompts)   (* the index found is that of a message *)
      end
  | None =>
      (* allPrompts.unshift({ role: 'user', content: systemPrompt }) *)
      let o := fresh (dom h1) in
      let h2 :=
        <[o := MessageObject
                 {| role := str "user"; content_of := Text systemPrompt;
                    other_props := [] |}]> h1 in
      (<[allPrompts := ArrayObject (o :: elems)]> h2, allPrompts)
  end.

(** The message an element of an array refers to. *)
Definition message_at (h : heap S) (p : loc) : option (message S) :=
  match h !! p with
  | Some (MessageObject m) => Some m
  | _ => None
  end.

(** The sequence of messages an array denotes. *)
Definition messages_of (h : heap S) (a : loc) : option (list (message S)) :=
  match h !! a with
  | Some (ArrayObject es) => mapM (message_at h) es
  | _ => None
  end.

End Prepend.
End Polyfill.

(* ===================================================================== *)
(** * The provider registry plugin: model cache and execution queue       *)
(* ===================================================================== *)

(** src/chrome-ai-file-summarizer.ts: the module-level maps (lines 1048
    to 1050), [acquireModelExecutionSlot] (1057 to 1083),
    [createSerializedInferenceProxy] (1126 to 1177),
    [getOrCreateWebLLMModel] (1179 to 1222) and [initializeWebLLMModel]
    (1249 to 1285). *)

Module Registry.
Import JS.

(** Model objects and promises are told apart by identity: each is
    numbered by the order of its creation. *)
Abbreviation handle := nat.
Abbreviation promise_id := nat.

(** ** The model cache

    JavaScript runs each call to completion before the next one starts:
    the synchronous part of a call is one atomic step on the module
    state.  [getOrCreateWebLLMModel] is synchronous, and so is
    [initializeWebLLMModel] up to its [return]: the asynchronous body
    runs until its first [await] and the map is set before any other
    call can run. *)
Record cache := Cache {
  webLLMModels : gmap jsstring handle;
  webLLMModelInitialization : gmap jsstring promise_id;
  (* every call of [webLLM(modelName, ...)] so far, the last one first *)
  constructions : list (jsstring * handle);
  (* every initialization started so far, the last one first *)
  initializations : list (jsstring * promise_id)
}.

Definition empty_cache : cache :=
  {| webLLMModels := ∅; webLLMModelInitialization := ∅;
     constructions := []; initializations := [] |}.

Definition getOrCreateWebLLMModel (modelName : jsstring) (c : cache)
  : cache * handle :=
  match webLLMModels c !! modelName with
  | Some model => (c, model)
  | None =>
      (* model = createSerializedInferenceProxy(webLLM(modelName, ...)) *)
      let model := length (constructions c) in
      ({| webLLMModels := <[modelName := model]> (webLLMModels c);
          webLLMModelInitialization := webLLMModelInitialization c;
          constructions := (modelName, model) :: constructions c;
          initializations := initializations c |}, model)
  end.

Definition initializeWebLLMModel (modelName : jsstring) (c : cache)
  : cache * promise_id :=
  match webLLMModelInitialization c !! modelName with
  | Some existingInitialization => (c, existingInitialization)
  | None =>
      let '(c1, model) := getOrCreateWebLLMModel modelName c in
      let initializationPromise := length (initializations c1) in
      ({| webLLMModels := webLLMModels c1;
          webLLMModelInitialization :=
            <[modelName := initializationPromise]> (webLLMModelInitialization c1);
          constructions := constructions c1;
          initializations :=
            (modelName, initializationPromise) :: initializations c1 |},
       initializationPromise)
  end.

(** The callback of [initializationPromise.finally], run when the
    initialization of [modelName] has settled. *)
Definition initialization_settled (modelName : jsstring) (c : cache) : cache :=
  {| webLLMModels := webLLMModels c;
     webLLMModelInitialization := delete modelName (webLLMModelInitialization c);
     constructions := constructions c;
     initializations := initializations c |}.

(** What can happen to the cache: a call of one of the two functions, a
    call of the provider factory (which calls both and returns the
    model), the settling of an initialization. *)
Inductive request :=
  | GetOrCreate (modelName : jsstring)
  | Initialize (modelName : jsstring)
  | Factory (modelName : jsstring)
  | Settled (modelName : jsstring).

Inductive response :=
  | Model (model : handle)
  | Initialization (p : promise_id)
  | Nothing.

Definition serve (c : cache) (r : request) : cache * response :=
  match r with
  | GetOrCreate n => let '(c1, m) := getOrCreateWebLLMModel n c in (c1, Model m)
  | Initialize n => let '(c1, p) := initializeWebLLMModel n c in (c1, Initialization p)
  | Factory n =>
      let '(c1, m) := getOrCreateWebLLMModel n c in
      let '(c2, _) := initializeWebLLMModel n c1 in
      (c2, Model m)
  | Settled n => (initialization_settled n c, Nothing)
  end.

(** The requests in the order the event loop runs them. *)
Fixpoint serve_all (c : cache) (rs : list request) : cache * list response :=
  match rs with
  | [] => (c, [])
  | r :: rs' =>
      let '(c1, a) := serve c r in
      let '(c2, als) := serve_all c1 rs' in
      (c2, a :: als)
  end.

(** ** The execution queue

    The promises of [acquireModelExecutionSlot]: [Promise.resolve()],
    and [previous.catch(() => undefined).then(() => current)] where
    [current] is the promise that [releaseCurrentSlot] resolves.  None
    of them can reject. *)
Inductive promise :=
  | Resolved
  | Chained (previous : promise) (current : nat).

#[export] Instance promise_eq_dec : EqDecision promise.
Proof. solve_decision. Defined.

(** The promises [current] on which a promise of the queue waits. *)
Fixpoint chain (p : promise) : gset nat :=
  match p with
  | Resolved => ∅
  | Chained previous current => chain previous ∪ {[current]}
  end.

(** [fulfilled released p]: [p] is fulfilled once the promises [current]
    in [released] have been resolved. *)
Fixpoint fulfilled (released : gset nat) (p : promise) : bool :=
  match p with
  | Resolved => true
  | Chained previous current =>
      fulfilled released previous && bool_decide (current ∈ released)
  end.

(** The variables one call of [acquireModelExecutionSlot] holds. *)
Record slot := Slot {
  model : handle;
  previous : promise;
  current : nat;
  queueTail : promise
}.

Record executor := Executor {
  modelExecutionQueue : gmap handle promise;
  (* the promises [current] whose [releaseCurrentSlot] has been called *)
  released : gset nat;
  (* the calls of [acquireModelExecutionSlot] so far, the last one first *)
  acquired : list slot
}.

Definition idle : executor :=
  {| modelExecutionQueue := ∅; released := ∅; acquired := [] |}.

(** The synchronous part of [acquireModelExecutionSlot(model)], up to
    its [await]. *)
Definition acquireModelExecutionSlot (m : handle) (e : executor)
  : executor * slot :=
  let previous := default Resolved (modelExecutionQueue e !! m) in
  let current := length (acquired e) in
  let queueTail := Chained previous current in
  let s := {| model := m; previous := previous; current := current;
              queueTail := queueTail |} in
  ({| modelExecutionQueue := <[m := queueTail]> (modelExecutionQueue e);
      released := released e;
      acquired := s :: acquired e |}, s).

(** [await previous.catch(() => undefined)] has resumed: the caller of
    [acquireModelExecutionSlot] holds its release callback and its work
    can begin.  It cannot resume before [previous] is fulfilled. *)
Definition granted (e : executor) (s : slot) : bool :=
  fulfilled (released e) (previous s).

(** The callback [acquireModelExecutionSlot] returns.  Its flag
    [released] is true exactly when [releaseCurrentSlot] has been
    called, which only this callback does. *)
Definition release (s : slot) (e : executor) : executor :=
  if decide (current s ∈ released e) then e
  else
    {| modelExecutionQueue :=
         if decide (modelExecutionQueue e !! model s = Some (queueTail s))
         then delete (model s) (modelExecutionQueue e)
         else modelExecutionQueue e;
       released := {[current s]} ∪ released e;
       acquired := acquired e |}.

(** The states of the queue.  A call of [acquireModelExecutionSlot] can
    come at any time: [serializedDoGenerate] and [serializedDoStream] of
    [createSerializedInferenceProxy] start with one.  A release callback
    can be called once [await acquireModelExecutionSlot(model)] has
    returned it, that is once its slot is granted: the proxy calls it
    in the [finally] of [originalDoGenerate], when [originalDoStream]
    throws, and when the wrapped stream ends, fails or is cancelled. *)
Inductive reachable : executor -> Prop :=
  | reach_idle : reachable idle
  | reach_acquire e m :
      reachable e -> reachable (acquireModelExecutionSlot m e).1
  | reach_release e s :
      reachable e -> s ∈ acquired e -> granted e s = true ->
      reachable (release s e).

(** ** The proxy of [createSerializedInferenceProxy]

    [serializedDoGenerate] and [serializedDoStream] take a slot of the
    model, call the original method once the slot is granted, and call
    the release callback when the call is over: in the [finally] of
    [originalDoGenerate], in the [catch] of [originalDoStream], or when
    the stream wrapped by [wrapSerializedStream] is done, fails or is
    cancelled.  [running] holds the calls whose original method has been
    invoked and whose release callback has not been called. *)
Record proxy := Proxy {
  queue : executor;
  running : gset nat
}.

Definition idle_proxy : proxy := {| queue := idle; running := ∅ |}.

(** [serializedDoGenerate] or [serializedDoStream] is called on the
    proxy of [m]: it runs up to [await acquireModelExecutionSlot(model)]. *)
Definition serialized_call (m : handle) (p : proxy) : proxy :=
  {| queue := (acquireModelExecutionSlot m (queue p)).1; running := running p |}.

(** The [await] has resumed: [originalDoGenerate] or [originalDoStream]
    is invoked. *)
Definition original_invoked (s : slot) (p : proxy) : proxy :=
  {| queue := queue p; running := {[current s]} ∪ running p |}.

(** [releaseExecutionSlot()] *)
Definition slot_released (s : slot) (p : proxy) : proxy :=
  {| queue := release s (queue p); running := running p ∖ {[current s]} |}.

Inductive proxy_reachable : proxy -> Prop :=
  | proxy_idle : proxy_reachable idle_proxy
  | proxy_call p m :
      proxy_reachable p -> proxy_reachable (serialized_call m p)
  | proxy_invoke p s :
      proxy_reachable p ->
      s ∈ acquired (queue p) -> granted (queue p) s = true ->
      current s ∉ released (queue p) ->
      proxy_reachable (original_invoked s p)
  | proxy_release p s :
      proxy_reachable p ->
      s ∈ acquired (queue p) -> current s ∈ running p ->
      proxy_reachable (slot_released s p).

End Registry.

(* ===================================================================== *)
(** * src/provider.ts: doGenerate and preprocessPrompt                    *)
(* ===================================================================== *)

(** [doGenerate] (lines 106 to 135; the second version of the class,
    lines 333 to 375, treats the result of the parent in the same way)
    and [preprocessPrompt] of the second version (lines 275 to 326). *)

Module Generate.
Import JS Provider.





(** ** The prompt

    A part of a message of [LanguageModelV2Prompt]: a text, a tool call,
    or a part of any other type (file, reasoning, tool-result). *)
Inductive prompt_part :=
  | TextPart (text : jsstring) (providerOptions : jsval)
  | ToolCallPart (toolCallId : jsstring) (toolName : jsstring) (input : json)
  | OtherPromptPart (type : jsstring) (payload : json).

(** A message.  The content of a tool message, of type [C], is only
    handed to [JSON.stringify].  [toolName] is the property that
    [preprocessPrompt] reads on a tool message: a string, or
    [undefined]. *)
Inductive prompt_message (C : Type) :=
  | SystemMessage (content : jsstring) (providerOptions : jsval)
  | UserMessage (content : list prompt_part) (providerOptions : jsval)
  | AssistantMessage (content : list prompt_part) (providerOptions : jsval)
  | ToolMessage (toolName : option jsstring) (content : C) (providerOptions : jsval).
Arguments SystemMessage {C} content providerOptions.
Arguments UserMessage {C} content providerOptions.
Arguments AssistantMessage {C} content providerOptions.
Arguments ToolMessage {C} toolName content providerOptions.

Definition is_text (p : prompt_part) : bool :=
  match p with TextPart _ _ => true | _ => false end.

Definition is_tool_call (p : prompt_part) : bool :=
  match p with ToolCallPart _ _ _ => true | _ => false end.

(** [Array.prototype.join] *)
Fixpoint join (separator : jsstring) (l : list jsstring) : jsstring :=
  match l with
  | [] => []
  | x :: l' =>
      match l' with
      | [] => x
      | _ :: _ => x ++ separator ++ join separator l'
      end
  end.

(** The callback of the [map] at line 286. *)
Definition called_tool (p : prompt_part) : jsstring :=
  match p with
  | ToolCallPart _ toolName _ => str "[Called tool: " ++ toolName ++ str "]"
  | _ => []
  end.

Section Preprocess.
Context {C : Type} (JSON_stringify : C -> jsstring).

(** The callback of [prompt.map]. *)
Definition preprocessMessage (message : prompt_message C) : prompt_message C :=
  match message with
  | AssistantMessage content providerOptions =>
      let textParts := filter (fun p => is_text p = true) content in
      if bool_decide (length textParts = 0%nat) && existsb is_tool_call content then
        let toolCallText :=
          join (str " ")
               (called_tool <$> filter (fun p => is_tool_call p = true) content) in
        AssistantMessage [TextPart toolCallText None] providerOptions
      else if bool_decide (0 < length textParts)%nat then
        AssistantMessage textParts providerOptions
      else message
  | ToolMessage toolName content _ =>
      (* toolMessage.toolName || 'result' *)
      let name :=
        match toolName with
        | Some (c :: cs) => c :: cs
        | _ => str "result"
        end in
      UserMessage
        [TextPart (str "[Tool " ++ name ++ str ": " ++ JSON_stringify content ++ str "]")
                  None]
        None
  | _ => message
  end.

Definition preprocessPrompt (prompt : list (prompt_message C))
  : list (prompt_message C) :=
  preprocessMessage <$> prompt.

End Preprocess.
End Generate.

(* ===================================================================== *)
(** * src/polyfill.ts: the wrapped prompt methods of a session            *)
(* ===================================================================== *)

(** The first statements of the wrapped [session.prompt] and
    [session.promptStreaming] (lines 203 to 238): the value they hand to
    the original method. *)

Module Session.
Import JS Polyfill.

(** A [LanguageModelPrompt]: a string, or a reference to an array of
    messages. *)
Inductive prompt_input :=
  | InputString (s : jsstring)
  | InputArray (a : loc).

Section Prompt.
Context {S : Type} (JSON_stringify : S -> jsstring).

(** [Array.isArray(input) ? [...input] : [{ role: 'user', content: input }]] *)
Definition normalize_input (h : heap S) (input : prompt_input) : heap S * loc :=
  match input with
  | InputArray a =>
      let elems :=
        match h !! a with
        | Some (ArrayObject es) => es
        | _ => []
        end in
      let allPrompts := fresh (dom h) in
      (<[allPrompts := ArrayObject elems]> h, allPrompts)
  | InputString s =>
      let o := fresh (dom h) in
      let h1 :=
        <[o := MessageObject
                 {| role := str "user"; content_of := Text s; other_props := [] |}]> h in
      let allPrompts := fresh (dom h1) in
      (<[allPrompts := ArrayObject [o]]> h1, allPrompts)
  end.

(** The array that [originalPrompt] and [originalPromptStreaming]
    receive. *)
Definition prompt_argument (h : heap S) (input : prompt_input)
    (systemPrompt : jsstring) : heap S * loc :=
  let '(h1, allPrompts) := normalize_input h input in
  prependSystemPromptToMessages JSON_stringify h1 allPrompts systemPrompt.

End Prompt.
End Session.

(* ===================================================================== *)
(** * The provider registry plugin: configured models                     *)
(* ===================================================================== *)

(** src/chrome-ai-file-summarizer.ts: [normalizeModelName] (lines 1315
    to 1326), [getConfiguredProviderModelNames] (1328 to 1346),
    [getUserConfiguredModelNames] (1360 to 1375),
    [preloadConfiguredWebLLMModels] (1553 to 1563), the factory of the
    WebLLM provider (1613 to 1633) and the two functions that word an
    initialization error (1235 to 1247 and 1414 to 1427). *)

Module Settings.
Import JS Registry.

Definition normalizeModelName (modelName : jsval) : option jsstring :=
  match modelName with
  | Some (JString s) =>
      let normalizedModelName := trim s in
      match normalizedModelName with
      | [] => None
      | _ :: _ => Some normalizedModelName
      end
  | _ => None
  end.

(** [Set.prototype.add] on a set of strings, kept in insertion order. *)
Definition set_add (x : jsstring) (set : list jsstring) : list jsstring :=
  if bool_decide (x ∈ set) then set else set ++ [x].

(** An entry of [settingsModel.providers]. *)
Record provider_config := ProviderConfig {
  id : jsstring;
  provider : jsstring;
  model : jsstring
}.

Definition getConfiguredProviderModelNames
    (providers : list provider_config) (providerId : jsstring) : list jsstring :=
  fold_left
    (fun modelNames p =>
       if bool_decide (provider p = providerId) then
         match normalizeModelName (Some (JString (model p))) with
         | Some modelName => set_add modelName modelNames
         | None => modelNames
         end
       else modelNames)
    providers [].

Definition getConfiguredWebLLMModelNames (providers : list provider_config)
  : list jsstring :=
  getConfiguredProviderModelNames providers (str "web-llm").

Definition getConfiguredTransformersModelNames (providers : list provider_config)
  : list jsstring :=
  getConfiguredProviderModelNames providers (str "transformers-js").

Definition getUserConfiguredModelNames (value : jsval) : list jsstring :=
  match value with
  | Some (JArray entries) =>
      fold_left
        (fun modelNames entry =>
           match normalizeModelName (Some entry) with
           | Some modelName => set_add modelName modelNames
           | None => modelNames
           end)
        entries []
  | _ => []
  end.

(** [preloadConfiguredWebLLMModels(settingsModel)]: the synchronous part
    of every [initializeWebLLMModel] it calls, in order. *)
Definition preloadConfiguredWebLLMModels (providers : list provider_config)
    (c : cache) : cache :=
  fold_left (fun c modelName => (initializeWebLLMModel modelName c).1)
            (getConfiguredWebLLMModelNames providers) c.

(** The factory of the WebLLM provider either throws its error or
    returns a model. *)
Inductive factory_result :=
  | NoModelConfigured
  | Created (c : cache) (model : handle).

Definition webLLM_factory (configuredWebLLMModels : list jsstring)
    (options_model : option jsstring) (c : cache) : factory_result :=
  (* options.model ?? configuredWebLLMModels[0] *)
  let modelName :=
    match options_model with
    | Some m => Some m
    | None => head configuredWebLLMModels
    end in
  match modelName with
  | Some (ch :: rest) =>
      let '(c1, model) := getOrCreateWebLLMModel (ch :: rest) c in
      let '(c2, _) := initializeWebLLMModel (ch :: rest) c1 in
      Created c2 model
  | _ => NoModelConfigured
  end.





End Settings.

(* ===================================================================== *)
(** * The provider registry plugin: Transformers.js models                *)
(* ===================================================================== *)

(** src/chrome-ai-file-summarizer.ts: [maybeWarnOnTransformersWithoutWebGPU]
    (lines 1302 to 1313) and [getOrCreateTransformersModel] (1377 to
    1401).  What [doesBrowserSupportWebLLM()] answers when it is called
    is an argument. *)

Module Transformers.
Import JS Registry.

Record models := Models {
  transformersModels : gmap jsstring handle;
  hasShownTransformersNoWebGPUWarning : bool;
  (* every call of [transformersJS(modelName, ...)] so far, the last one
     first *)
  built_models : list (jsstring * handle);
  (* the warnings emitted so far *)
  warnings : nat
}.

Definition no_models : models :=
  {| transformersModels := ∅; hasShownTransformersNoWebGPUWarning := false;
     built_models := []; warnings := 0 |}.

Definition maybeWarnOnTransformersWithoutWebGPU (webgpu : bool) (c : models)
  : models :=
  if hasShownTransformersNoWebGPUWarning c || webgpu then c
  else {| transformersModels := transformersModels c;
          hasShownTransformersNoWebGPUWarning := true;
          built_models := built_models c;
          warnings := S (warnings c) |}.

Definition getOrCreateTransformersModel (modelName : jsstring) (webgpu : bool)
    (c : models) : models * handle :=
  match transformersModels c !! modelName with
  | Some model => (c, model)
  | None =>
      let c1 := maybeWarnOnTransformersWithoutWebGPU webgpu c in
      let model := length (built_models c1) in
      ({| transformersModels := <[modelName := model]> (transformersModels c1);
          hasShownTransformersNoWebGPUWarning :=
            hasShownTransformersNoWebGPUWarning c1;
          built_models := (modelName, model) :: built_models c1;
          warnings := warnings c1 |}, model)
  end.

(** Calls of [getOrCreateTransformersModel], each with its model name
    and the answer of [doesBrowserSupportWebLLM()] at that time. *)
Definition get_all (c : models) (calls : list (jsstring * bool)) : models :=
  fold_left (fun c call => (getOrCreateTransformersModel call.1 call.2 c).1) calls c.

End Transformers.

(* ===================================================================== *)
(** * The provider registry plugin: the stream that holds a slot          *)
(* ===================================================================== *)

(** src/chrome-ai-file-summarizer.ts: [wrapSerializedStream] (lines 1085
    to 1124), with the release callback of [acquireModelExecutionSlot]
    as its [releaseExecutionSlot]. *)

Module SerializedStream.
Import Registry.

Section Wrap.
Context {T : Type}.

(** How [await reader.read()] ends. *)
Inductive read_result :=
  | ReadValue (value : T)
  | ReadDone
  | ReadFails.

(** A call of one of the two callbacks of the wrapped stream, with the
    outcome of the calls it makes on the reader and on the controller:
    [threw] tells whether [controller.enqueue], [controller.close] or
    [reader.cancel] threw. *)
Inductive callback :=
  | Pull (r : read_result) (threw : bool)
  | Cancel (threw : bool).

(** The variables of one wrapped stream, the queue they release on, and
    the chunks the controller has accepted, the last one first. *)
Record wrapped := Wrapped {
  released : bool;
  slot_of : slot;
  queue_of : executor;
  enqueued : list T;
  (* the calls of [releaseExecutionSlot] so far *)
  releases : nat
}.

Definition wrapSerializedStream (s : slot) (e : executor) : wrapped :=
  {| released := false; slot_of := s; queue_of := e; enqueued := [];
     releases := 0 |}.

(** The closure [release], lines 1092 to 1099. *)
Definition release_once (w : wrapped) : wrapped :=
  if released w then w
  else {| released := true; slot_of := slot_of w;
          queue_of := Registry.release (slot_of w) (queue_of w);
          enqueued := enqueued w; releases := S (releases w) |}.

Definition enqueue (value : T) (w : wrapped) : wrapped :=
  {| released := released w; slot_of := slot_of w; queue_of := queue_of w;
     enqueued := value :: enqueued w; releases := releases w |}.

(** [pull] and [cancel]. *)
Definition call (w : wrapped) (cb : callback) : wrapped :=
  match cb with
  | Pull (ReadValue value) false => enqueue value w
  | Pull (ReadValue _) true =>
      (* controller.enqueue threw: the catch block *)
      release_once w
  | Pull ReadDone false => release_once w
  | Pull ReadDone true =>
      (* controller.close threw after release(): the catch block *)
      release_once (release_once w)
  | Pull ReadFails _ => release_once w
  | Cancel _ =>
      (* try { await reader.cancel(reason) } finally { release() } *)
      release_once w
  end.

Definition calls (w : wrapped) (cbs : list callback) : wrapped :=
  fold_left call cbs w.

End Wrap.
Arguments read_result T : clear implicits.
Arguments callback T : clear implicits.
Arguments wrapped T : clear implicits.
End SerializedStream.

(* ===================================================================== *)
(** * The provider registry plugin: progress notifications                *)
(* ===================================================================== *)

(** src/chrome-ai-file-summarizer.ts: the [initProgressCallback] of
    [getOrCreateWebLLMModel] (lines 1182 to 1214), the progress messages
    (1224 to 1233 and 1403 to 1412) and the body of
    [initializeTransformersModel] from its timer on (1449 to 1526).

    A progress is a JavaScript number.  Its type [P], the clamping
    [Math.max(0, Math.min(1, p))], the rounding [Math.round(p * 100)],
    the numbers 0 and 1 and the decimal form of a number are parameters;
    a percentage is kept as the integer it is. *)

Module Progress.
Import JS.

Inductive kind := InProgress | Success | Failure | Warning.

(** The calls of the [Notification] API.  [emit] returns the identifier
    of the notification it creates; identifiers are numbered by the
    order of creation.  The [autoClose] of [emit] is [false] ([None]) or
    a number of milliseconds; a property that [update] does not give is
    [None]. *)
Inductive notification_call (P : Type) :=
  | Emit (message : jsstring) (type : kind) (progress : option P)
         (autoClose : option N)
  | Update (id : nat) (message : jsstring) (type : option kind)
           (progress : option P) (autoClose : option N).
Arguments Emit {P} message type progress autoClose.
Arguments Update {P} id message type progress autoClose.

Definition is_emit {P} (c : notification_call P) : bool :=
  match c with Emit _ _ _ _ => true | _ => false end.

Section Reports.
Context {P : Type}.
Context (clamp : P -> P) (percentage_of : P -> Z) (zero one : P).
Context (decimal : Z -> jsstring).

Definition getWebLLMProgressMessage (modelName : jsstring) (percentage : Z)
  : jsstring :=
  if (percentage <=? 0)%Z then str "Preparing " ++ modelName ++ str "..."
  else str "Downloading " ++ modelName ++ str "... " ++ decimal percentage ++ str "%".

Definition getTransformersProgressMessage (modelName : jsstring) (percentage : Z)
  : jsstring :=
  if (percentage <=? 0)%Z then str "Preparing " ++ modelName ++ str "..."
  else str "Loading " ++ modelName ++ str "... " ++ decimal percentage ++ str "%".

(** ** WebLLM: [initProgressCallback] *)

(** An [InitProgressReport]: [progress], and [text] when it is given. *)
Record report := Report {
  progress_of : P;
  text_of : option jsstring
}.

(** The variable [notificationId] of the closure and the calls made so
    far, the last one first. *)
Record webllm_progress := WebLLMProgress {
  webllm_notificationId : option nat;
  webllm_calls : list (notification_call P)
}.

Definition webllm_start : webllm_progress :=
  {| webllm_notificationId := None; webllm_calls := [] |}.

Definition initProgressCallback (modelName : jsstring) (st : webllm_progress)
    (r : report) : webllm_progress :=
  let clampedProgress := clamp (progress_of r) in
  let percentage := percentage_of clampedProgress in
  let progressMessage :=
    default (getWebLLMProgressMessage modelName percentage) (text_of r) in
  match webllm_notificationId st with
  | None =>
      {| webllm_notificationId := Some 0%nat;
         webllm_calls :=
           Emit progressMessage InProgress (Some clampedProgress) None
           :: webllm_calls st |}
  | Some notificationId =>
      if (percentage =? 100)%Z then
        {| webllm_notificationId := Some notificationId;
           webllm_calls :=
             Update notificationId (modelName ++ str " ready") (Some Success)
                    (Some one) (Some 3000)
             :: webllm_calls st |}
      else
        {| webllm_notificationId := Some notificationId;
           webllm_calls :=
             Update notificationId progressMessage None (Some clampedProgress) None
             :: webllm_calls st |}
  end.

(** ** Transformers.js: the reporter of [initializeTransformersModel] *)

(** The timer of [window.setTimeout]: waiting, fired, or cleared before
    it fired. *)
Inductive timer := Waiting | Fired | Cleared.

Record reporter := Reporter {
  notificationId : option nat;
  latestProgress : P;
  notificationDelayTimeout : timer;
  (* [createSessionWithProgress] has resolved or rejected *)
  settled : bool;
  (* the calls made so far, the last one first *)
  notifications : list (notification_call P)
}.

(** The state after [window.setTimeout], line 1469. *)
Definition reporter_start : reporter :=
  {| notificationId := None; latestProgress := zero;
     notificationDelayTimeout := Waiting; settled := false;
     notifications := [] |}.

(** What happens next: the timer fires, the model reports a progress,
    [createSessionWithProgress] resolves, or it rejects with an error
    whose message, as [getTransformersInitializationErrorMessage] words
    it, is [errorMessage]. *)
Inductive event :=
  | TimerFires
  | Reports (progress : P)
  | Resolves
  | Rejects (errorMessage : jsstring).

Definition ensureNotification (modelName : jsstring) (st : reporter) : reporter :=
  match notificationId st with
  | Some _ => st
  | None =>
      let percentage := percentage_of (latestProgress st) in
      {| notificationId := Some 0%nat; latestProgress := latestProgress st;
         notificationDelayTimeout := notificationDelayTimeout st;
         settled := settled st;
         notifications :=
           Emit (getTransformersProgressMessage modelName percentage) InProgress
                (Some (latestProgress st)) None
           :: notifications st |}
  end.

(** [clearTimeout(notificationDelayTimeout)] *)
Definition clear (t : timer) : timer :=
  match t with Waiting => Cleared | _ => t end.

Definition react (modelName : jsstring) (st : reporter) (ev : event) : reporter :=
  match ev with
  | TimerFires =>
      match notificationDelayTimeout st with
      | Waiting =>
          ensureNotification modelName
            {| notificationId := notificationId st;
               latestProgress := latestProgress st;
               notificationDelayTimeout := Fired; settled := settled st;
               notifications := notifications st |}
      | _ => st
      end
  | Reports progress =>
      let clampedProgress := clamp progress in
      {| notificationId := notificationId st; latestProgress := clampedProgress;
         notificationDelayTimeout := notificationDelayTimeout st;
         settled := settled st;
         notifications :=
           match notificationId st with
           | Some id =>
               Update id
                 (getTransformersProgressMessage modelName
                    (percentage_of clampedProgress))
                 None (Some clampedProgress) None
               :: notifications st
           | None => notifications st
           end |}
  | Resolves =>
      if settled st then st else
      {| notificationId := notificationId st; latestProgress := latestProgress st;
         notificationDelayTimeout := clear (notificationDelayTimeout st);
         settled := true;
         notifications :=
           match notificationId st with
           | Some id =>
               Update id (modelName ++ str " ready") (Some Success) (Some one)
                      (Some 3000)
               :: notifications st
           | None => notifications st
           end |}
  | Rejects errorMessage =>
      if settled st then st else
      {| notificationId := notificationId st; latestProgress := latestProgress st;
         notificationDelayTimeout := clear (notificationDelayTimeout st);
         settled := true;
         notifications :=
           match notificationId st with
           | Some id =>
               Update id errorMessage (Some Failure) None (Some 5000)
               :: notifications st
           | None => Emit errorMessage Failure None (Some 5000) :: notifications st
           end |}
  end.

Definition run (modelName : jsstring) (evs : list event) : reporter :=
  fold_left (react modelName) evs reporter_start.

End Reports.
Arguments report P : clear implicits.
Arguments webllm_progress P : clear implicits.
Arguments reporter P : clear implicits.
Arguments event P : clear implicits.
End Progress.

(* ===================================================================== *)
(** * Vocabulary of the properties                                        *)
(* ===================================================================== *)

Module Shape.
Import JS Provider.

(** The shape a tool call must have (section 4.3, step 5): an object
    whose [type] is the string function_call, with a [callId] and a
    [name] that are not empty (truthy), and [arguments] of runtime type
    string. *)
Definition valid_call (item : json) : bool :=
  match item with
  | JObject ms =>
      strict_eq_str (lookup_member (str "type") ms) (str "function_call")
      && truthy (lookup_member (str "callId") ms)
      && truthy (lookup_member (str "name") ms)
      && is_string (lookup_member (str "arguments") ms)
  | _ => false
  end.

(** [tool_call_envelope j items]: the text [j] is a tool-call envelope
    with output array [items]: a JSON object text, from its opening to
    its closing brace, that [JSON.parse] reads as an object whose
    [output] is the array [items], every element a valid call. *)
Definition tool_call_envelope (j : jsstring) (items : list json) : Prop :=
  (exists parsed,
      JSON_parse j = Normal parsed /\
      get_prop parsed (str "output") = Normal (Some (JArray items))) /\
  forallb valid_call items = true /\
  head j = Some LBRACE /\ last j = Some RBRACE.

(** [fence_free s]: no triple backtick occurs in [s]. *)
Definition fence_free (s : jsstring) : bool := negb (includes FENCE s).

(** Text in which no code unit satisfies [p]. *)
Definition free_of (p : N -> bool) (s : jsstring) : bool :=
  forallb (fun c => negb (p c)) s.

Definition is_backtick (c : N) : bool := BACKTICK =? c.
Definition is_brace (c : N) : bool := (c =? LBRACE) || (c =? RBRACE).

(** The three presentations of an envelope [j] named by the
    specification. *)
Inductive presented (j : jsstring) : jsstring -> Prop :=
  | plain_json w1 w2 :
      (* the envelope alone, whitespace around it *)
      forallb is_js_whitespace w1 = true ->
      forallb is_js_whitespace w2 = true ->
      presented j (w1 ++ j ++ w2)
  | fenced pre tag w1 w2 post :
      (* the envelope in a fenced block, with or without the json tag;
         any text without a backtick before the block, any text after *)
      free_of is_backtick pre = true ->
      tag = [] \/ tag = str "json" ->
      forallb is_js_whitespace w1 = true ->
      forallb is_js_whitespace w2 = true ->
      presented j (pre ++ FENCE ++ tag ++ w1 ++ j ++ w2 ++ FENCE ++ post)
  | in_prose before after :
      (* the envelope after a leading prose and before a trailing prose,
         neither holding a brace or a backtick *)
      free_of is_brace before = true ->
      free_of is_backtick before = true ->
      forallb is_js_whitespace before = false ->
      free_of is_brace after = true ->
      free_of is_backtick after = true ->
      presented j (before ++ j ++ after).

(** The parts of a stream that [transform] buffers. *)
Definition is_text_part (p : part) : bool :=
  match p with
  | TextStart _ | TextDelta _ _ | TextEnd _ => true
  | _ => false
  end.

(** The parts that open or close a text segment. *)
Definition is_segment_boundary (p : part) : bool :=
  match p with
  | TextStart _ | TextEnd _ => true
  | _ => false
  end.

(** The concatenation of the text deltas of a run of parts. *)
Fixpoint deltas (l : list part) : jsstring :=
  match l with
  | [] => []
  | TextDelta _ d :: l' => d ++ deltas l'
  | _ :: l' => deltas l'
  end.

(** The parts of a run that are not text parts. *)
Fixpoint others (l : list part) : list part :=
  match l with
  | [] => []
  | p :: l' => if is_text_part p then others l' else p :: others l'
  end.

(** The number of models constructed, and of initializations started,
    for the identifier [name]. *)
Definition built (name : jsstring) (c : Registry.cache) : nat :=
  length (filter (fun x => x.1 = name) (Registry.constructions c)).

Definition started (name : jsstring) (c : Registry.cache) : nat :=
  length (filter (fun x => x.1 = name) (Registry.initializations c)).

(** The requests about [name]: those that need its model, those that
    return its model, those that start or join its initialization. *)
Definition asks (name : jsstring) (r : Registry.request) : bool :=
  match r with
  | Registry.GetOrCreate n | Registry.Initialize n | Registry.Factory n =>
      bool_decide (n = name)
  | Registry.Settled _ => false
  end.

Definition wants_model (name : jsstring) (r : Registry.request) : bool :=
  match r with
  | Registry.GetOrCreate n | Registry.Factory n => bool_decide (n = name)
  | _ => false
  end.

Definition initializes (name : jsstring) (r : Registry.request) : bool :=
  match r with
  | Registry.Initialize n | Registry.Factory n => bool_decide (n = name)
  | _ => false
  end.

(** Every request that returns the model of [name] is answered with
    [model], and every call of [initializeWebLLMModel(name)] with the
    promise [p]. *)
Definition answers_for (name : jsstring) (rs : list Registry.request)
    (answers : list Registry.response) (model : Registry.handle)
    (p : Registry.promise_id) : Prop :=
  forall i r, rs !! i = Some r ->
    (wants_model name r = true -> answers !! i = Some (Registry.Model model)) /\
    (r = Registry.Initialize name ->
     answers !! i = Some (Registry.Initialization p)).

(** [earlier e s s']: [s'] is a call of [acquireModelExecutionSlot] on
    the model of [s] that came before [s]; [current] numbers the calls
    in their order. *)
Definition earlier (e : Registry.executor) (s s' : Registry.slot) : Prop :=
  s' ∈ Registry.acquired e /\
  Registry.model s' = Registry.model s /\
  (Registry.current s' < Registry.current s)%nat.

(** The invariant of the proxy: a call that is running holds a slot
    that is granted and not released. *)
Definition proxy_inv (p : Registry.proxy) : Prop :=
  Registry.reachable (Registry.queue p) /\
  forall x, x ∈ Registry.running p ->
    exists s, s ∈ Registry.acquired (Registry.queue p) /\
              Registry.current s = x /\
              Registry.granted (Registry.queue p) s = true /\
              x ∉ Registry.released (Registry.queue p).

(** The invariant of the execution queue. *)
Record queue_inv (e : Registry.executor) : Prop := {
  inv_current : forall s, s ∈ Registry.acquired e ->
    (Registry.current s < length (Registry.acquired e))%nat /\
    Registry.queueTail s =
      Registry.Chained (Registry.previous s) (Registry.current s);
  inv_unique : forall s1 s2,
    s1 ∈ Registry.acquired e -> s2 ∈ Registry.acquired e ->
    Registry.current s1 = Registry.current s2 -> s1 = s2;
  (* [previous] waits on earlier calls on the same model only, and on
     every one of them that has not released *)
  inv_previous : forall s, s ∈ Registry.acquired e ->
    (forall x, x ∈ Registry.chain (Registry.previous s) ->
       exists s', earlier e s s' /\ Registry.current s' = x) /\
    (forall s', earlier e s s' ->
       Registry.current s' ∈ Registry.chain (Registry.previous s) \/
       Registry.current s' ∈ Registry.released e);
  (* the tail of a model waits on calls on that model only, and on
     every one of them that has not released *)
  inv_tail : forall m t, Registry.modelExecutionQueue e !! m = Some t ->
    (forall x, x ∈ Registry.chain t ->
       exists s, s ∈ Registry.acquired e /\ Registry.model s = m /\
                 Registry.current s = x) /\
    (forall s, s ∈ Registry.acquired e -> Registry.model s = m ->
       Registry.current s ∈ Registry.chain t \/
       Registry.current s ∈ Registry.released e);
  (* a model without a tail has no call that has not released *)
  inv_none : forall m, Registry.modelExecutionQueue e !! m = None ->
    forall s, s ∈ Registry.acquired e -> Registry.model s = m ->
      Registry.current s ∈ Registry.released e
}.

(** The outermost open container is an array. *)
Definition arr_bottom (stk : list JS.frame) : Prop :=
  match last stk with Some (JS.FArr _) => True | _ => False end.

(** The value being read is an array. *)
Definition arr_rooted (st : JS.pstate) : Prop :=
  match st with
  | JS.PValue stk | JS.PObjFirst stk | JS.PObjKey _ stk | JS.PColon stk | JS.PAfter stk =>
      arr_bottom stk
  | JS.PArrFirst stk => stk = [] \/ arr_bottom stk
  | JS.PDone v => exists l, v = JS.JArray l
  end.

(** [then_emit out m]: the parts [out], then the parts of [m]. *)
Definition then_emit (out : list part) (m : completion (list part))
  : completion (list part) :=
  match m with
  | Normal o => Normal (out ++ o)
  | Throw e => Throw e
  end.

End Shape.

(* ===================================================================== *)
(** * Sample responses                                                    *)
(* ===================================================================== *)

Module Examples.
Import JS Provider.

(** One call of get_weather, as the system prompt asks for it. *)
Definition weather_call : json :=
  JObject [ (str "type", JString (str "function_call"));
            (str "callId", JString (str "call_1"));
            (str "name", JString (str "get_weather"));
            (str "arguments", JString (qq "{'city':'Paris'}")) ].

Definition weather_envelope : jsstring :=
  qq "{'output':[{'type':'function_call','callId':'call_1','name':'get_weather','arguments':'{\'city\':\'Paris\'}'}]}".

(** The same call with a nested object where the string should be. *)
Definition nested_call : json :=
  JObject [ (str "type", JString (str "function_call"));
            (str "callId", JString (str "call_1"));
            (str "name", JString (str "get_weather"));
            (str "arguments",
             JObject [(str "city", JString (str "Paris"))]) ].

Definition nested_envelope : jsstring :=
  qq "{'output':[{'type':'function_call','callId':'call_1','name':'get_weather','arguments':{'city':'Paris'}}]}".

(** A well-formed call followed by the nested one. *)
Definition mixed_envelope : jsstring :=
  qq "{'output':[{'type':'function_call','callId':'call_1','name':'get_weather','arguments':'{\'city\':\'Paris\'}'},{'type':'function_call','callId':'call_1','name':'get_weather','arguments':{'city':'Paris'}}]}".

(** The envelope in a fenced block tagged json, prose on both sides. *)
Definition fenced_response : jsstring :=
  str "Calling the tool." ++ [LF] ++ str "```json" ++ [LF] ++
  weather_envelope ++ [LF] ++ str "```" ++ [LF] ++ str "Done.".

(** The envelope between two sentences. *)
Definition prose_response : jsstring :=
  str "Here is the call: " ++ weather_envelope ++ str " I will wait.".

(** The envelope before a sentence that holds braces. *)
Definition braces_response : jsstring :=
  str "Here is the call: " ++ weather_envelope ++
  str " Replace {city} if needed.".

(** A JSON object whose [output] holds the nested call, and whose other
    members hold two fences around a well-formed envelope. *)
Definition shadowed_response : jsstring :=
  qq "{'output':[{'type':'function_call','callId':'call_1','name':'get_weather','arguments':{'city':'Paris'}}],'note':'```','retry':"
  ++ weather_envelope ++ qq ",'end':'```'}".

(** The envelope with no call. *)
Definition empty_envelope : jsstring := qq "{'output':[]}".

(** A conversation: an assistant message, then the user message hi,
    held by the array at reference 3. *)
Definition assistant_message : Polyfill.message unit :=
  Polyfill.Message (str "assistant") (Polyfill.Text (str "Hello!")) [].

Definition user_message : Polyfill.message unit :=
  Polyfill.Message (str "user") (Polyfill.Text (str "hi")) [].

Definition chat_heap : Polyfill.heap unit :=
  {[ 1%positive := Polyfill.MessageObject assistant_message;
     2%positive := Polyfill.MessageObject user_message;
     3%positive := Polyfill.ArrayObject [1%positive; 2%positive] ]}.


(** Two calls of [acquireModelExecutionSlot] on model 0, then one on
    model 1. *)
Definition first_call : Registry.slot :=
  (Registry.acquireModelExecutionSlot 0 Registry.idle).2.

Definition second_call : Registry.slot :=
  (Registry.acquireModelExecutionSlot 0
     (Registry.acquireModelExecutionSlot 0 Registry.idle).1).2.

Definition three_calls : Registry.proxy :=
  Registry.serialized_call 1
    (Registry.serialized_call 0
       (Registry.serialized_call 0 Registry.idle_proxy)).

(** The first call runs the original method and ends; then the second
    call runs it. *)
Definition first_running : Registry.proxy :=
  Registry.original_invoked first_call three_calls.

Definition second_running : Registry.proxy :=
  Registry.original_invoked second_call
    (Registry.slot_released first_call first_running).

End Examples.

(* ===================================================================== *)
(** * Vocabulary of the further properties                                *)
(* ===================================================================== *)

Module Views.
Import JS Provider.



Definition is_text_end (p : part) : bool :=
  match p with TextEnd _ => true | _ => false end.


(** A message that [preprocessPrompt] leaves to the parent class: not a
    tool message, and no tool call in an assistant message. *)
Definition plain_message {C} (m : Generate.prompt_message C) : bool :=
  match m with
  | Generate.ToolMessage _ _ _ => false
  | Generate.AssistantMessage content _ =>
      forallb (fun p => negb (Generate.is_tool_call p)) content
  | _ => true
  end.

(** A string that [trim] leaves as it is and that is not empty. *)
Definition trimmed_name (s : jsstring) : Prop :=
  s <> [] /\ trim s = s.

(** One turn of the loops that collect model names: the name of [x],
    when it has one, is added to the set. *)
Definition collect {A} (name_of : A -> option jsstring)
    (modelNames : list jsstring) (x : A) : list jsstring :=
  match name_of x with
  | Some modelName => Settings.set_add modelName modelNames
  | None => modelNames
  end.

(** A call of [pull] that hands a chunk to the consumer: the read gave
    a value and the controller took it. *)
Definition delivers {T} (cb : SerializedStream.callback T) : bool :=
  match cb with
  | SerializedStream.Pull (SerializedStream.ReadValue _) false => true
  | _ => false
  end.

(** The chunks that a run of callbacks delivers, in order. *)
Fixpoint delivered {T} (cbs : list (SerializedStream.callback T)) : list T :=
  match cbs with
  | [] => []
  | SerializedStream.Pull (SerializedStream.ReadValue value) false :: cbs' =>
      value :: delivered cbs'
  | _ :: cbs' => delivered cbs'
  end.

(** The events that report a progress, and those that settle the
    creation of the session. *)
Definition is_report {P} (ev : Progress.event P) : bool :=
  match ev with Progress.Reports _ => true | _ => false end.

Definition settles {P} (ev : Progress.event P) : bool :=
  match ev with
  | Progress.Resolves | Progress.Rejects _ => true
  | _ => false
  end.

Definition timer_fires {P} (ev : Progress.event P) : bool :=
  match ev with Progress.TimerFires => true | _ => false end.

(** A call of [Notification.update] on the notification [id]. *)
Definition updates_notification {P} (id : nat) (c : Progress.notification_call P)
  : Prop :=
  match c with
  | Progress.Update id' _ _ _ _ => id' = id
  | Progress.Emit _ _ _ _ => False
  end.

(** The states the reporter of [initializeTransformersModel] can be
    in: waiting for the timer, settled before the timer fired, showing
    its in-progress notification (with the updates made since), or
    failed before the timer fired (with its error notification). *)
Inductive reporter_phase {P} : Progress.reporter P -> Prop :=
  | waiting p :
      reporter_phase
        {| Progress.notificationId := None; Progress.latestProgress := p;
           Progress.notificationDelayTimeout := Progress.Waiting;
           Progress.settled := false; Progress.notifications := [] |}
  | quiet p :
      reporter_phase
        {| Progress.notificationId := None; Progress.latestProgress := p;
           Progress.notificationDelayTimeout := Progress.Cleared;
           Progress.settled := true; Progress.notifications := [] |}
  | shown p b updates message progress :
      Forall (updates_notification 0) updates ->
      reporter_phase
        {| Progress.notificationId := Some 0%nat; Progress.latestProgress := p;
           Progress.notificationDelayTimeout := Progress.Fired;
           Progress.settled := b;
           Progress.notifications :=
             updates ++
             [Progress.Emit message Progress.InProgress (Some progress) None] |}
  | failed p message :
      reporter_phase
        {| Progress.notificationId := None; Progress.latestProgress := p;
           Progress.notificationDelayTimeout := Progress.Cleared;
           Progress.settled := true;
           Progress.notifications :=
             [Progress.Emit message Progress.Failure None (Some 5000)] |}.

End Views.

(* ===================================================================== *)
(** * Properties of the tool-call parser                                  *)
(* ===================================================================== *)

Import JS Provider Shape.

Section ToolCallParser.

(** [hasRequiredFields] decides [valid_call], or throws on [null]. *)
Lemma hasRequiredFields_spec (item : json) :
  match hasRequiredFields item with
  | Normal b => b = valid_call item
  | Throw _ => item = JNull
  end.
Proof.
  destruct item; try reflexivity.
  unfold hasRequiredFields, valid_call; simpl.
  destruct (strict_eq_str _ _); simpl; [|reflexivity].
  destruct (truthy (lookup_member (str "callId") members)); simpl; [|reflexivity].
  destruct (truthy (lookup_member (str "name") members)); reflexivity.
Qed.

Lemma every_valid (items : list json) :
  forallb valid_call items = true ->
  every hasRequiredFields items = Normal true.
Proof.
  induction items as [|x items IH]; simpl; [reflexivity|].
  intros [Hx Hi]%andb_prop.
  pose proof (hasRequiredFields_spec x) as Hs.
  destruct (hasRequiredFields x) as [b|e]; simpl.
  - subst b. rewrite Hx. auto.
  - subst x. discriminate.
Qed.

Lemma every_invalid (items : list json) :
  forallb valid_call items = false ->
  every hasRequiredFields items = Normal false \/
  exists e, every hasRequiredFields items = Throw e.
Proof.
  induction items as [|x items IH]; simpl; [discriminate|].
  intros H.
  pose proof (hasRequiredFields_spec x) as Hs.
  destruct (hasRequiredFields x) as [b|e]; simpl; [|eauto].
  subst b. destruct (valid_call x); simpl in *; auto.
Qed.

(** What [parseToolCallResponse] returns once the candidate has parsed
    to a value with an [output] array. *)
Lemma parse_output_array (text : jsstring) (parsed : json) (items : list json) :
  JSON_parse (candidate text) = Normal parsed ->
  get_prop parsed (str "output") = Normal (Some (JArray items)) ->
  parseToolCallResponse text =
    Normal (if forallb valid_call items then Some items else None).
Proof.
  intros Hp Ho. unfold parseToolCallResponse, parse_body.
  rewrite Hp; simpl. rewrite Ho; simpl.
  destruct (forallb valid_call items) eqn:Hv.
  - rewrite (every_valid _ Hv). reflexivity.
  - destruct (every_invalid _ Hv) as [-> | [e ->]]; reflexivity.
Qed.

End ToolCallParser.

(* ===================================================================== *)
(** * Properties of the candidate extraction                              *)
(* ===================================================================== *)

Section Candidate.

Implicit Types (s a c r j w : jsstring).
Local Arguments N.eqb : simpl never.

Lemma drop_ws_all w : forallb is_js_whitespace w = true -> drop_ws w = [].
Proof.
  induction w as [|x w IH]; simpl; [reflexivity|].
  intros [-> Hw]%andb_prop. auto.
Qed.

Lemma drop_ws_app a x r :
  is_js_whitespace x = false -> drop_ws (a ++ x :: r) = drop_ws a ++ x :: r.
Proof.
  intros Hx. induction a as [|y a IH]; simpl.
  - rewrite Hx. reflexivity.
  - destruct (is_js_whitespace y); [exact IH | reflexivity].
Qed.

(** [drop_ws] keeps a suffix. *)
Lemma drop_ws_suffix a : exists w, a = w ++ drop_ws a.
Proof.
  induction a as [|y a [w IH]]; simpl.
  - exists []. reflexivity.
  - destruct (is_js_whitespace y).
    + exists (y :: w). simpl. congruence.
    + exists []. reflexivity.
Qed.

Lemma forallb_rev {A} (f : A -> bool) (l : list A) :
  forallb f (rev l) = forallb f l.
Proof.
  induction l as [|x l IH]; simpl; [reflexivity|].
  rewrite forallb_app, IH. simpl. rewrite andb_true_r, andb_comm. reflexivity.
Qed.

Lemma forallb_drop_ws (f : N -> bool) a :
  forallb f a = true -> forallb f (drop_ws a) = true.
Proof.
  destruct (drop_ws_suffix a) as [w Hw]. rewrite Hw at 1.
  rewrite forallb_app. intros [_ H]%andb_prop. exact H.
Qed.

Lemma forallb_rtrim (f : N -> bool) c :
  forallb f c = true -> forallb f (rtrim c) = true.
Proof.
  intros H. unfold rtrim. rewrite forallb_rev.
  apply forallb_drop_ws. rewrite forallb_rev. exact H.
Qed.

Lemma rtrim_all w : forallb is_js_whitespace w = true -> rtrim w = [].
Proof.
  intros H. unfold rtrim. rewrite drop_ws_all; [reflexivity|].
  rewrite forallb_rev. exact H.
Qed.

Lemma rtrim_app a y c :
  is_js_whitespace y = false -> rtrim (a ++ y :: c) = a ++ y :: rtrim c.
Proof.
  intros Hy. unfold rtrim.
  rewrite rev_app_distr. simpl. rewrite <- app_assoc. simpl.
  rewrite (drop_ws_app (rev c) y _ Hy).
  rewrite rev_app_distr. simpl. rewrite rev_involutive, <- app_assoc.
  reflexivity.
Qed.

(** Trimming around a block [x :: m ++ [y]] whose ends are not
    whitespace trims the two sides only. *)
Lemma trim_middle a x m y c :
  is_js_whitespace x = false -> is_js_whitespace y = false ->
  trim (a ++ (x :: m ++ [y]) ++ c) = drop_ws a ++ (x :: m ++ [y]) ++ rtrim c.
Proof.
  intros Hx Hy. unfold trim. simpl.
  rewrite (drop_ws_app a x _ Hx).
  rewrite <- (app_assoc m [y] c). simpl.
  change (drop_ws a ++ x :: m ++ y :: c)
    with (drop_ws a ++ (x :: m) ++ y :: c).
  rewrite (app_assoc (drop_ws a) (x :: m) (y :: c)).
  rewrite (rtrim_app _ y c Hy).
  rewrite <- !app_assoc. reflexivity.
Qed.

(** A text with a first and a last code unit. *)
Lemma ends_inv j x y :
  head j = Some x -> last j = Some y ->
  j = [x] /\ x = y \/ exists m, j = x :: m ++ [y].
Proof.
  destruct j as [|x' j]; simpl; [discriminate|].
  intros [= ->] Hl.
  destruct j as [|z j] using rev_ind.
  - left. simpl in Hl. split; congruence.
  - right. exists j. rewrite app_comm_cons, last_snoc in Hl. congruence.
Qed.

(** ** Fences *)

Lemma fence_free_None s : fence_free s = true -> after_first FENCE s = None.
Proof.
  unfold fence_free, includes. destruct (after_first FENCE s); [discriminate|reflexivity].
Qed.

Lemma after_first_skip a r :
  free_of is_backtick a = true -> after_first FENCE (a ++ r) = after_first FENCE r.
Proof.
  induction a as [|x a IH]; [reflexivity|].
  unfold free_of; simpl. unfold is_backtick at 1.
  intros [Hx Ha]%andb_prop. apply negb_true_iff in Hx.
  rewrite Hx. apply IH, Ha.
Qed.

Lemma after_first_tail x s :
  after_first FENCE (x :: s) = None -> after_first FENCE s = None.
Proof.
  simpl. destruct (BACKTICK =? x); [destruct s as [|y [|z s]]; simpl|]; auto;
    repeat (destruct (BACKTICK =? _); try discriminate; auto).
Qed.

Lemma starts_with_fence_None s :
  after_first FENCE s = None -> starts_with FENCE s = false.
Proof.
  unfold starts_with. destruct s as [|x s]; [reflexivity|].
  simpl. destruct (if BACKTICK =? x then _ else _); [discriminate|reflexivity].
Qed.

Lemma starts_with_lf_fence_None s :
  after_first FENCE s = None -> starts_with (LF :: FENCE) s = false.
Proof.
  intros H. destruct s as [|x s]; [reflexivity|].
  apply after_first_tail, starts_with_fence_None in H.
  unfold starts_with in *. simpl.
  destruct (LF =? x); [exact H | reflexivity].
Qed.

(** A prefix [p] that does not hold [y] cannot reach beyond a [y]. *)
Lemma starts_with_guard (p : jsstring) s (y : N) r :
  forallb (fun u : N => negb (u =? y)) p = true ->
  starts_with p (s ++ y :: r) = true -> starts_with p (s ++ [y]) = true.
Proof.
  unfold starts_with. revert s. induction p as [|u p IH]; intros s; [reflexivity|].
  simpl. intros [Hu Hp]%andb_prop. apply negb_true_iff in Hu.
  destruct s as [|b s]; simpl.
  - rewrite Hu. discriminate.
  - destruct (u =? b); [apply IH, Hp | discriminate].
Qed.

Lemma no_fence_app j c :
  after_first FENCE j = None -> free_of is_backtick c = true ->
  after_first FENCE (j ++ c) = None.
Proof.
  intros Hj Hc. induction j as [|x j IH].
  - simpl. rewrite <- (app_nil_r c), after_first_skip by exact Hc. reflexivity.
  - pose proof (after_first_tail _ _ Hj) as Hj'. specialize (IH Hj').
    simpl in *. rewrite IH.
    destruct (BACKTICK =? x); [|reflexivity].
    destruct j as [|y [|z j]]; simpl in *.
    + destruct c as [|c1 c]; [reflexivity|]. unfold free_of, is_backtick in Hc.
      simpl in Hc. apply andb_prop in Hc as [Hc _]. apply negb_true_iff in Hc.
      rewrite Hc. reflexivity.
    + destruct (BACKTICK =? y); [|reflexivity].
      destruct c as [|c1 c]; [reflexivity|]. unfold free_of, is_backtick in Hc.
      simpl in Hc. apply andb_prop in Hc as [Hc _]. apply negb_true_iff in Hc.
      rewrite Hc. reflexivity.
    + destruct (BACKTICK =? y); [|reflexivity].
      destruct (BACKTICK =? z); [discriminate|reflexivity].
Qed.

(** The lazy group runs through a fence-free text that ends with a
    closing brace. *)
Lemma lazy_through j r g :
  after_first FENCE j = None -> last j = Some RBRACE ->
  lazy_until_fence r = Some g ->
  lazy_until_fence (j ++ r) = Some (j ++ g).
Proof.
  intros Hj Hl Hr. induction j as [|x j IH]; [discriminate|].
  assert (Hno : starts_with (LF :: FENCE) ((x :: j) ++ r) ||
                starts_with FENCE ((x :: j) ++ r) = false).
  { destruct (ends_inv (x :: j) x RBRACE eq_refl Hl) as [[Hj1 ->]|[m Hm]].
    - injection Hj1 as ->. reflexivity.
    - rewrite Hm in *. apply orb_false_iff. split.
      + destruct (starts_with (LF :: FENCE) _) eqn:E; [|reflexivity].
        rewrite app_comm_cons, <- app_assoc in E. simpl in E.
        apply (starts_with_guard (LF :: FENCE) (x :: m) RBRACE r eq_refl) in E.
        simpl app in E. rewrite (starts_with_lf_fence_None _ Hj) in E. discriminate.
      + destruct (starts_with FENCE _) eqn:E; [|reflexivity].
        rewrite app_comm_cons, <- app_assoc in E. simpl in E.
        apply (starts_with_guard FENCE (x :: m) RBRACE r eq_refl) in E.
        simpl app in E. rewrite (starts_with_fence_None _ Hj) in E. discriminate. }
  change (lazy_until_fence ((x :: j) ++ r))
    with (if starts_with (LF :: FENCE) ((x :: j) ++ r) ||
             starts_with FENCE ((x :: j) ++ r)
          then Some [] else cons x <$> lazy_until_fence (j ++ r)).
  rewrite Hno. destruct j as [|y j].
  - simpl. rewrite Hr. reflexivity.
  - rewrite IH; [reflexivity | exact (after_first_tail _ _ Hj) | exact Hl].
Qed.

(** Before a closing fence, the lazy group takes whitespace only. *)
Lemma lazy_whitespace w post :
  forallb is_js_whitespace w = true ->
  exists w', lazy_until_fence (w ++ FENCE ++ post) = Some w' /\
             forallb is_js_whitespace w' = true.
Proof.
  induction w as [|x w IH].
  - intros _. exists []. split; reflexivity.
  - intros [Hx Hw]%andb_prop. destruct (IH Hw) as (w' & E & Hw').
    change (lazy_until_fence ((x :: w) ++ FENCE ++ post))
      with (if starts_with (LF :: FENCE) ((x :: w) ++ FENCE ++ post) ||
               starts_with FENCE ((x :: w) ++ FENCE ++ post)
            then Some [] else cons x <$> lazy_until_fence (w ++ FENCE ++ post)).
    destruct (_ || _).
    + exists []. split; reflexivity.
    + rewrite E. exists (x :: w'). split; [reflexivity|]. simpl.
      rewrite Hx. exact Hw'.
Qed.

(** ** Brace spans *)

Lemma from_first_skip ch a r :
  free_of is_brace a = true -> ch = LBRACE \/ ch = RBRACE ->
  from_first ch (a ++ r) = from_first ch r.
Proof.
  intros Ha Hch. induction a as [|x a IH]; [reflexivity|].
  unfold free_of in Ha. simpl in *. apply andb_prop in Ha as [Hx Ha].
  apply negb_true_iff, orb_false_iff in Hx as [H1 H2].
  replace (x =? ch) with false by (destruct Hch; subst ch; auto).
  apply IH, Ha.
Qed.

Lemma json_match_span a j c :
  free_of is_brace a = true -> free_of is_brace c = true ->
  head j = Some LBRACE -> last j = Some RBRACE ->
  json_match (a ++ j ++ c) = Some j.
Proof.
  intros Ha Hc Hh Hl. unfold json_match.
  rewrite (from_first_skip LBRACE a _ Ha) by auto.
  destruct j as [|x j]; [discriminate|]. injection Hh as ->. simpl.
  unfold upto_last.
  change (LBRACE :: j ++ c) with ((LBRACE :: j) ++ c). rewrite rev_app_distr.
  rewrite (from_first_skip RBRACE (rev c)) by (unfold free_of; rewrite ?forallb_rev; auto).
  destruct (ends_inv (LBRACE :: j) LBRACE RBRACE eq_refl Hl) as [[_ ?]|[m Hm]];
    [discriminate|].
  rewrite Hm. rewrite app_comm_cons, rev_app_distr. simpl.
  rewrite rev_app_distr, rev_involutive. reflexivity.
Qed.

(** ** The candidate of each presentation *)

Lemma drop_ws_nil a : drop_ws a = [] -> forallb is_js_whitespace a = true.
Proof.
  induction a as [|x a IH]; simpl; [reflexivity|].
  destruct (is_js_whitespace x); [exact IH | discriminate].
Qed.

Lemma envelope_ends j :
  head j = Some LBRACE -> last j = Some RBRACE ->
  exists m, j = LBRACE :: m ++ [RBRACE].
Proof.
  intros Hh Hl. destruct (ends_inv j _ _ Hh Hl) as [[_ ?]|?]; [discriminate|assumption].
Qed.

(** The steps of [candidate], one equation each. *)
Lemma candidate_steps text t c :
  trim text = t ->
  match code_block_match t with Some g => trim g | None => t end = c ->
  candidate text =
    if starts_with [LBRACE] c then c else default c (json_match c).
Proof.
  intros <- <-. unfold candidate.
  destruct (starts_with _ _); simpl; [reflexivity|].
  destruct (json_match _); reflexivity.
Qed.

Lemma trim_envelope j w :
  head j = Some LBRACE -> last j = Some RBRACE ->
  forallb is_js_whitespace w = true -> trim (j ++ w) = j.
Proof.
  intros Hh Hl Hw. destruct (envelope_ends j Hh Hl) as [m ->].
  rewrite <- (app_nil_l ((_ :: _) ++ w)), trim_middle by reflexivity.
  rewrite (rtrim_all w Hw), app_nil_r. reflexivity.
Qed.

Lemma starts_with_envelope j :
  head j = Some LBRACE -> starts_with [LBRACE] j = true.
Proof. destruct j as [|x j]; [discriminate|]. intros [= ->]. reflexivity. Qed.

Lemma candidate_plain j w1 w2 :
  head j = Some LBRACE -> last j = Some RBRACE -> fence_free j = true ->
  forallb is_js_whitespace w1 = true -> forallb is_js_whitespace w2 = true ->
  candidate (w1 ++ j ++ w2) = j.
Proof.
  intros Hh Hl Hf H1 H2.
  rewrite (candidate_steps _ j j).
  - rewrite (starts_with_envelope j Hh). reflexivity.
  - destruct (envelope_ends j Hh Hl) as [m ->].
    rewrite trim_middle by reflexivity.
    rewrite (drop_ws_all _ H1), (rtrim_all _ H2), app_nil_r. reflexivity.
  - unfold code_block_match. rewrite (fence_free_None _ Hf). reflexivity.
Qed.

Lemma candidate_in_prose j before after :
  head j = Some LBRACE -> last j = Some RBRACE -> fence_free j = true ->
  free_of is_brace before = true -> free_of is_backtick before = true ->
  forallb is_js_whitespace before = false ->
  free_of is_brace after = true -> free_of is_backtick after = true ->
  candidate (before ++ j ++ after) = j.
Proof.
  intros Hh Hl Hf Hb1 Hb2 Hb3 Ha1 Ha2.
  set (t := drop_ws before ++ j ++ rtrim after).
  rewrite (candidate_steps _ t t).
  - assert (Hsw : starts_with [LBRACE] t = false).
    { pose proof (forallb_drop_ws _ _ Hb1) as Hd. unfold t.
      destruct (drop_ws before) as [|x d] eqn:E.
      - apply drop_ws_nil in E. congruence.
      - simpl in Hd. apply andb_prop in Hd as [Hx _].
        apply negb_true_iff, orb_false_iff in Hx as [Hx _].
        unfold starts_with. simpl. rewrite N.eqb_sym, Hx. reflexivity. }
    rewrite Hsw. unfold t.
    rewrite json_match_span; auto.
    + apply forallb_drop_ws, Hb1.
    + apply forallb_rtrim, Ha1.
  - destruct (envelope_ends j Hh Hl) as [m ->]. unfold t.
    apply trim_middle; reflexivity.
  - unfold code_block_match, t.
    rewrite after_first_skip by (apply forallb_drop_ws, Hb2).
    rewrite no_fence_app; [reflexivity | apply fence_free_None, Hf |].
    apply forallb_rtrim, Ha2.
Qed.

(** After the opening fence, the tag and the whitespace are skipped. *)
Lemma skip_tag j tag w1 r :
  head j = Some LBRACE ->
  tag = [] \/ tag = str "json" ->
  forallb is_js_whitespace w1 = true ->
  drop_ws (default (tag ++ w1 ++ j ++ r)
             (strip_prefix (str "json") (tag ++ w1 ++ j ++ r))) = j ++ r.
Proof.
  intros Hh Htag H1.
  destruct j as [|x j]; [discriminate|]. injection Hh as ->.
  assert (Hd : drop_ws (w1 ++ (LBRACE :: j) ++ r) = (LBRACE :: j) ++ r).
  { simpl app. rewrite drop_ws_app by reflexivity.
    rewrite (drop_ws_all _ H1). reflexivity. }
  destruct Htag as [-> | ->]; [|exact Hd].
  change ([] ++ w1 ++ (LBRACE :: j) ++ r) with (w1 ++ (LBRACE :: j) ++ r).
  replace (strip_prefix (str "json") (w1 ++ (LBRACE :: j) ++ r)) with (@None jsstring);
    [exact Hd|].
  destruct w1 as [|x w1]; [reflexivity|].
  simpl in H1. apply andb_prop in H1 as [Hx _].
  change (strip_prefix (str "json") ((x :: w1) ++ ?r'))
    with (if 106 =? x then strip_prefix (str "son") (w1 ++ r') else None).
  destruct (N.eqb_spec 106 x) as [<-|_]; [discriminate|reflexivity].
Qed.

Lemma candidate_fenced j pre tag w1 w2 post :
  head j = Some LBRACE -> last j = Some RBRACE -> fence_free j = true ->
  free_of is_backtick pre = true ->
  tag = [] \/ tag = str "json" ->
  forallb is_js_whitespace w1 = true -> forallb is_js_whitespace w2 = true ->
  candidate (pre ++ FENCE ++ tag ++ w1 ++ j ++ w2 ++ FENCE ++ post) = j.
Proof.
  intros Hh Hl Hf Hpre Htag H1 H2.
  set (rest := tag ++ w1 ++ j ++ w2 ++ FENCE ++ rtrim post).
  set (t := drop_ws pre ++ FENCE ++ rest).
  rewrite (candidate_steps _ t j).
  - rewrite (starts_with_envelope j Hh). reflexivity.
  - (* the text, trimmed *)
    set (inner := tag ++ w1 ++ j ++ w2).
    replace (pre ++ FENCE ++ tag ++ w1 ++ j ++ w2 ++ FENCE ++ post)
      with (pre ++ (BACKTICK :: ([BACKTICK; BACKTICK] ++ inner ++ [BACKTICK; BACKTICK])
                    ++ [BACKTICK]) ++ post).
    2:{ unfold inner. simpl. rewrite <- !app_assoc. simpl. reflexivity. }
    rewrite trim_middle by reflexivity.
    unfold t, rest, inner. simpl. rewrite <- !app_assoc. simpl. reflexivity.
  - (* group 1 of the code block *)
    unfold code_block_match, t.
    rewrite after_first_skip by (apply forallb_drop_ws, Hpre).
    change (after_first FENCE (FENCE ++ rest)) with (Some rest).
    cbn [mbind option_bind]. unfold rest. rewrite (skip_tag j tag w1 _ Hh Htag H1).
    destruct (lazy_whitespace w2 (rtrim post) H2) as (w & E & Hw).
    rewrite (lazy_through j _ w (fence_free_None _ Hf) Hl E).
    apply trim_envelope; assumption.
Qed.

Lemma candidate_presented j text :
  head j = Some LBRACE -> last j = Some RBRACE -> fence_free j = true ->
  presented j text -> candidate text = j.
Proof.
  intros Hh Hl Hf [w1 w2 H1 H2 | pre tag w1 w2 post Hp Ht H1 H2
                   | before after Hb1 Hb2 Hb3 Ha1 Ha2].
  - apply candidate_plain; assumption.
  - apply candidate_fenced; assumption.
  - apply candidate_in_prose; assumption.
Qed.

End Candidate.

(* ===================================================================== *)
(** * Properties of JSON.parse                                            *)
(* ===================================================================== *)

Section JSONParse.

Ltac no_cmp :=
  repeat match goal with
         | |- context [?a =? ?b] => destruct (N.eqb_spec a b); [lia|]
         | |- context [?a <=? ?b] => destruct (N.leb_spec a b); try lia
         end; simpl.

Lemma ws_cases c :
  is_js_whitespace c = true ->
  c = 9 \/ c = 10 \/ c = 11 \/ c = 12 \/ c = 13 \/ c = 32 \/ 160 <= c.
Proof.
  unfold is_js_whitespace. rewrite !orb_true_iff, !andb_true_iff, !N.eqb_eq, !N.leb_le.
  lia.
Qed.

(** A whitespace of JavaScript starts no token and continues none. *)
Lemma ws_class c :
  is_js_whitespace c = true ->
  punct c = None /\ (c =? 34) = false /\ (c =? 92) = false /\
  escape c = None /\ (c =? 117) = false /\ hex_digit c = None /\
  is_num_char c = false /\ is_digit c || (c =? 45) = false /\
  is_lower c = false.
Proof.
  intros Hc. apply ws_cases in Hc.
  destruct Hc as [->|[->|[->|[->|[->|[->|Hc]]]]]]; try (repeat split; reflexivity).
  unfold punct, escape, hex_digit, is_num_char, is_digit, is_lower.
  repeat split; no_cmp; reflexivity.
Qed.

(** What the scanner does with a whitespace of JavaScript. *)
Lemma lex_step_ws mode out c mode' out' :
  is_js_whitespace c = true ->
  lex_step mode out c = Some (mode', out') ->
  lex mode' out' [] = lex mode out [].
Proof.
  intros Hc.
  destruct (ws_class c Hc) as (Hp & Hq & Hb & He & Hu & Hh & Hn & Hd & Hl).
  assert (Htop : forall o, lex_top o c = Some (mode', out') -> mode' = LTop /\ out' = o).
  { intros o. unfold lex_top. rewrite Hp, Hq, Hd, Hl.
    destruct (is_json_ws c); [intros [= <- <-]; auto | discriminate]. }
  destruct mode; simpl.
  - intros H. apply Htop in H as [-> ->]. reflexivity.
  - rewrite Hq, Hb. destruct (c <? 32); [discriminate|].
    intros [= <- <-]. reflexivity.
  - rewrite He, Hu. discriminate.
  - rewrite Hh. discriminate.
  - rewrite Hn. destruct (number_token (rev acc)) as [t|]; simpl; [|discriminate].
    intros H. apply Htop in H as [-> ->]. reflexivity.
  - rewrite Hl. destruct (word_token (rev acc)) as [t|]; simpl; [|discriminate].
    intros H. apply Htop in H as [-> ->]. reflexivity.
Qed.

Lemma lex_trailing_ws w : forall mode out toks,
  forallb is_js_whitespace w = true ->
  lex mode out w = Some toks -> lex mode out [] = Some toks.
Proof.
  induction w as [|c w IH]; intros mode out toks Hw; [auto|].
  simpl in Hw. apply andb_prop in Hw as [Hc Hw].
  cbn [lex]. destruct (lex_step mode out c) as [[mode' out']|] eqn:E; [|discriminate].
  cbn [mbind option_bind]. intros H. apply (IH _ _ _ Hw) in H.
  transitivity (lex mode' out' []); [|exact H].
  symmetry. exact (lex_step_ws _ _ _ _ _ Hc E).
Qed.

Lemma lex_app_trailing s w : forall mode out toks,
  forallb is_js_whitespace w = true ->
  lex mode out (s ++ w) = Some toks -> lex mode out s = Some toks.
Proof.
  induction s as [|c s IH]; intros mode out toks Hw.
  - apply lex_trailing_ws, Hw.
  - cbn [lex app].
    destruct (lex_step mode out c) as [[mode' out']|]; [|discriminate].
    cbn [mbind option_bind]. apply IH, Hw.
Qed.

Lemma lex_leading w s : forall out toks,
  forallb is_js_whitespace w = true ->
  lex LTop out (w ++ s) = Some toks -> lex LTop out s = Some toks.
Proof.
  induction w as [|c w IH]; intros out toks Hw; [auto|].
  simpl in Hw. apply andb_prop in Hw as [Hc Hw].
  destruct (ws_class c Hc) as (Hp & Hq & _ & _ & _ & _ & _ & Hd & Hl).
  cbn [lex app]. cbn [lex_step]. unfold lex_top. rewrite Hp, Hq, Hd, Hl.
  destruct (is_json_ws c); [|discriminate].
  cbn [mbind option_bind]. apply IH, Hw.
Qed.

(** [JSON.parse] ignores what [trim] removes. *)
Lemma trim_parts s : exists w1 w2,
  forallb is_js_whitespace w1 = true /\ forallb is_js_whitespace w2 = true /\
  s = w1 ++ trim s ++ w2.
Proof.
  assert (Hl : forall a, exists w, forallb is_js_whitespace w = true /\ a = w ++ drop_ws a).
  { induction a as [|y a (w & Hw & IH)]; simpl.
    - exists []. split; reflexivity.
    - destruct (is_js_whitespace y) eqn:E.
      + exists (y :: w). simpl. rewrite E, Hw. split; [reflexivity|congruence].
      + exists []. split; reflexivity. }
  destruct (Hl s) as (w1 & H1 & E1).
  destruct (Hl (rev (drop_ws s))) as (w2 & H2 & E2).
  exists w1, (rev w2). split; [exact H1|]. split; [rewrite forallb_rev; exact H2|].
  unfold trim, rtrim. rewrite <- rev_app_distr, <- E2, rev_involutive. exact E1.
Qed.

Lemma JSON_parse_trim s v :
  JSON_parse s = Normal v -> JSON_parse (trim s) = Normal v.
Proof.
  unfold JSON_parse.
  destruct (trim_parts s) as (w1 & w2 & H1 & H2 & E).
  destruct (lex LTop [] s) as [toks|] eqn:El; [|discriminate].
  rewrite E in El. apply (lex_leading _ _ _ _ H1), (lex_app_trailing _ _ _ _ _ H2) in El.
  rewrite El. auto.
Qed.

(** ** The first token *)

Lemma is_json_ws_js c : is_json_ws c = true -> is_js_whitespace c = true.
Proof.
  unfold is_json_ws. rewrite !orb_true_iff, !N.eqb_eq.
  intros [[[->| ->]| ->]| ->]; reflexivity.
Qed.

Lemma number_token_kind s t : number_token s = Some t -> t <> TLBrace.
Proof.
  unfold number_token.
  destruct (match s with [] => _ | c :: s' => _ end) as [neg s0].
  destruct s0 as [|c s0]; [discriminate|].
  destruct (read_digits 0 0 (c :: s0)) as [[ip n] s1].
  destruct n as [|k]; [discriminate|].
  destruct (_ && _); [discriminate|].
  destruct s1 as [|d s2]; [intros [= <-]; discriminate|].
  destruct (d =? 46).
  - destruct (read_digits ip 0 s2) as [[m nf] s3].
    destruct nf; [discriminate|].
    destruct (read_exponent s3); simpl; [intros [= <-]|]; discriminate.
  - destruct (read_exponent (d :: s2)); simpl; [intros [= <-]|]; discriminate.
Qed.

Lemma word_token_kind s t : word_token s = Some t -> t <> TLBrace.
Proof.
  unfold word_token. repeat case_bool_decide; intros [= <-]; discriminate.
Qed.

Lemma lex_top_out o c mode' out' :
  lex_top o c = Some (mode', out') ->
  out' = o \/ (exists t, punct c = Some t /\ out' = t :: o /\ mode' = LTop).
Proof.
  unfold lex_top. destruct (is_json_ws c); [intros [= <- <-]; auto|].
  destruct (punct c) as [t|]; [intros [= <- <-]; eauto|].
  destruct (c =? 34); [intros [= <- <-]; auto|].
  destruct (is_digit c || (c =? 45)); [intros [= <- <-]; auto|].
  destruct (is_lower c); [intros [= <- <-]; auto|discriminate].
Qed.

(** The tokens come out in the order of the text; a token that is being
    read is not an opening brace. *)
Lemma lex_first s : forall mode out toks,
  lex mode out s = Some toks ->
  exists more, toks = rev out ++ more /\
    (mode <> LTop -> exists t rest, more = t :: rest /\ t <> TLBrace).
Proof.
  induction s as [|c s IH]; intros mode out toks.
  - destruct mode; simpl; try discriminate.
    + intros [= <-]. exists []. rewrite app_nil_r. split; [reflexivity|congruence].
    + destruct (number_token (rev acc)) as [t|] eqn:E; simpl; [|discriminate].
      intros [= <-]. exists [t]. split; [reflexivity|]. intros _.
      exists t, []. split; [reflexivity | exact (number_token_kind _ _ E)].
    + destruct (word_token (rev acc)) as [t|] eqn:E; simpl; [|discriminate].
      intros [= <-]. exists [t]. split; [reflexivity|]. intros _.
      exists t, []. split; [reflexivity | exact (word_token_kind _ _ E)].
  - cbn [lex]. destruct (lex_step mode out c) as [[mode' out']|] eqn:E; [|discriminate].
    cbn [mbind option_bind]. intros H.
    destruct (IH _ _ _ H) as (more & -> & Hk). clear H IH.
    assert (Hafter : forall t, t <> TLBrace ->
              lex_top (t :: out) c = Some (mode', out') ->
              exists more0, rev out' ++ more = rev out ++ more0 /\
                exists t0 rest, more0 = t0 :: rest /\ t0 <> TLBrace).
    { intros t Ht Htop. apply lex_top_out in Htop as [-> | (t' & _ & -> & _)]; simpl.
      - exists (t :: more). rewrite <- app_assoc. split; [reflexivity|]. eauto.
      - exists (t :: t' :: more). rewrite <- !app_assoc. split; [reflexivity|]. eauto. }
    destruct mode; simpl in E.
    + apply lex_top_out in E as [-> | (t & _ & -> & _)].
      * exists more. split; [reflexivity|congruence].
      * exists (t :: more). simpl. rewrite <- app_assoc.
        split; [reflexivity|congruence].
    + destruct (c =? 34); [injection E as <- <-|].
      { exists (TStr (rev acc) :: more). simpl. rewrite <- app_assoc.
        split; [reflexivity|]. intros _. eexists _, _. split; [reflexivity|discriminate]. }
      destruct (c =? 92); [injection E as <- <-|].
      { exists more. split; [reflexivity|]. intros _. apply Hk. discriminate. }
      destruct (c <? 32); [discriminate|]. injection E as <- <-.
      exists more. split; [reflexivity|]. intros _. apply Hk. discriminate.
    + destruct (escape c); [injection E as <- <-|].
      { exists more. split; [reflexivity|]. intros _. apply Hk. discriminate. }
      destruct (c =? 117); [injection E as <- <-|discriminate].
      exists more. split; [reflexivity|]. intros _. apply Hk. discriminate.
    + destruct (hex_digit c); simpl in E; [injection E as <- <-|discriminate].
      exists more. split; [reflexivity|]. intros _. apply Hk.
      destruct (Nat.eqb k 3); discriminate.
    + destruct (is_num_char c); [injection E as <- <-|].
      { exists more. split; [reflexivity|]. intros _. apply Hk. discriminate. }
      destruct (number_token (rev acc)) as [t|] eqn:Et; simpl in E; [|discriminate].
      destruct (Hafter t (number_token_kind _ _ Et) E) as (more0 & E0 & Hk0).
      exists more0. split; [exact E0 | intros _; exact Hk0].
    + destruct (is_lower c); [injection E as <- <-|].
      { exists more. split; [reflexivity|]. intros _. apply Hk. discriminate. }
      destruct (word_token (rev acc)) as [t|] eqn:Et; simpl in E; [|discriminate].
      destruct (Hafter t (word_token_kind _ _ Et) E) as (more0 & E0 & Hk0).
      exists more0. split; [exact E0 | intros _; exact Hk0].
Qed.

Lemma punct_lbrace c : punct c = Some TLBrace -> c = LBRACE.
Proof.
  unfold punct. destruct (N.eqb_spec c 123); [auto|].
  repeat (destruct (_ =? _); [discriminate|]). discriminate.
Qed.

(** When the first token is an opening brace, the first code unit that
    is not whitespace is one. *)
Lemma lex_lbrace_first c s ts :
  is_js_whitespace c = false ->
  lex LTop [] (c :: s) = Some (TLBrace :: ts) -> c = LBRACE.
Proof.
  intros Hc. cbn [lex lex_step].
  destruct (lex_top [] c) as [[mode' out']|] eqn:E; [|discriminate].
  cbn [mbind option_bind]. intros H.
  destruct (lex_first _ _ _ _ H) as (more & Htoks & Hk).
  unfold lex_top in E.
  destruct (is_json_ws c) eqn:Ew.
  { apply is_json_ws_js in Ew. congruence. }
  destruct (punct c) as [t|] eqn:Ep.
  - injection E as <- <-. simpl in Htoks. injection Htoks as <- _.
    apply punct_lbrace, Ep.
  - assert (Hm : mode' <> LTop /\ out' = []).
    { destruct (c =? 34); [injection E as <- <-; split; [discriminate|reflexivity]|].
      destruct (is_digit c || (c =? 45));
        [injection E as <- <-; split; [discriminate|reflexivity]|].
      destruct (is_lower c); [injection E as <- <-|discriminate].
      split; [discriminate|reflexivity]. }
    destruct Hm as [Hm ->]. destruct (Hk Hm) as (t & rest & -> & Ht).
    simpl in Htoks. congruence.
Qed.

(** ** The root of the parsed value *)

Lemma arr_bottom_cons f stk :
  arr_bottom stk -> arr_bottom (f :: stk).
Proof. destruct stk as [|g stk]; [contradiction|]. unfold arr_bottom. simpl. auto. Qed.

Lemma arr_bottom_inv f stk :
  arr_bottom (f :: stk) -> (stk = [] /\ exists l, f = FArr l) \/ arr_bottom stk.
Proof.
  destruct stk as [|g stk]; [|right; exact H].
  unfold arr_bottom. simpl. destruct f; [eauto|contradiction].
Qed.

Lemma deliver_rooted v stk : arr_bottom stk -> arr_rooted (deliver v stk).
Proof.
  destruct stk as [|f stk]; [contradiction|]. intros H.
  apply arr_bottom_inv in H as [[-> [l ->]]|H]; simpl.
  - exact I.
  - destruct f; simpl; apply arr_bottom_cons, H.
Qed.

Lemma deliver_array l stk :
  stk = [] \/ arr_bottom stk -> arr_rooted (deliver (JArray l) stk).
Proof. intros [->|H]; [simpl; eauto | apply deliver_rooted, H]. Qed.

Lemma parse_value_rooted stk t st :
  arr_bottom stk -> parse_value stk t = Some st -> arr_rooted st.
Proof.
  intros H. destruct t; simpl; intros [= <-];
    auto using deliver_rooted; simpl; auto.
Qed.

Lemma parse_step_rooted st t st' :
  arr_rooted st -> parse_step st t = Some st' -> arr_rooted st'.
Proof.
  destruct st as [stk|stk|stk|ms stk|stk|stk|v]; simpl.
  - apply parse_value_rooted.
  - intros H. destruct t;
      try (apply parse_value_rooted; destruct H as [->|H];
           [exact I | apply arr_bottom_cons, H]).
    intros [= <-]. apply deliver_array, H.
  - intros H. destruct t; try discriminate; intros [= <-].
    + apply deliver_rooted, H.
    + simpl. apply arr_bottom_cons, H.
  - intros H. destruct t; try discriminate; intros [= <-].
    simpl. apply arr_bottom_cons, H.
  - intros H. destruct t; try discriminate; intros [= <-]. exact H.
  - intros H. destruct stk as [|[elems|ms k] stk]; [discriminate| |].
    + destruct t; try discriminate; intros [= <-]; [|exact H].
      apply deliver_array. apply arr_bottom_inv in H as [[-> _]|H]; auto.
    + apply arr_bottom_inv in H as [[_ [l Hl]]|H]; [discriminate|].
      destruct t; try discriminate; intros [= <-]; [|exact H].
      apply deliver_rooted, H.
  - discriminate.
Qed.

Lemma parse_tokens_rooted ts : forall st v,
  arr_rooted st -> parse_tokens st ts = Some v -> exists l, v = JArray l.
Proof.
  induction ts as [|t ts IH]; intros st v H; simpl.
  - destruct st; try discriminate. intros [= <-]. exact H.
  - destruct (parse_step st t) as [st'|] eqn:E; [|discriminate].
    cbn [mbind option_bind]. apply IH. exact (parse_step_rooted _ _ _ H E).
Qed.

(** An object starts with an opening brace. *)
Lemma parse_tokens_object toks ms :
  parse_tokens (PValue []) toks = Some (JObject ms) ->
  exists ts, toks = TLBrace :: ts.
Proof.
  destruct toks as [|t ts]; [discriminate|]. simpl.
  destruct t; simpl; try discriminate; eauto.
  - intros H. apply parse_tokens_rooted in H as [l Hl]; [discriminate|].
    left. reflexivity.
  - destruct ts; simpl; [intros [=]|discriminate].
  - destruct ts; simpl; [intros [=]|discriminate].
  - destruct ts; simpl; [intros [=]|discriminate].
  - destruct ts; simpl; [intros [=]|discriminate].
  - destruct ts; simpl; [intros [=]|discriminate].
Qed.

Lemma drop_ws_head s :
  match drop_ws s with [] => True | c :: _ => is_js_whitespace c = false end.
Proof.
  induction s as [|c s IH]; simpl; [exact I|].
  destruct (is_js_whitespace c) eqn:E; [exact IH | exact E].
Qed.

(** A text that parses to an object starts, once trimmed, with an
    opening brace. *)
Lemma JSON_parse_object_brace s ms :
  JSON_parse s = Normal (JObject ms) -> starts_with [LBRACE] (trim s) = true.
Proof.
  intros H. apply JSON_parse_trim in H. unfold JSON_parse in H.
  destruct (lex LTop [] (trim s)) as [toks|] eqn:El; [|discriminate].
  cbn [mbind option_bind] in H.
  destruct (parse_tokens (PValue []) toks) as [v|] eqn:Ep; [|discriminate].
  injection H as ->. apply parse_tokens_object in Ep as [ts ->].
  unfold trim in *. pose proof (drop_ws_head s) as Hh.
  destruct (drop_ws s) as [|c r]; [discriminate El|].
  pose proof (rtrim_app [] c r Hh) as Hr. simpl app in Hr. rewrite Hr in *.
  apply (lex_lbrace_first c _ ts Hh) in El. subst c. reflexivity.
Qed.

(** ** Texts that are JSON as they are *)

Lemma strip_prefix_app_Some (p s b r : jsstring) :
  strip_prefix p s = Some r -> strip_prefix p (s ++ b) = Some (r ++ b).
Proof.
  revert s. induction p as [|a p IH]; intros s; simpl.
  - intros [= ->]. reflexivity.
  - destruct s as [|x s]; [discriminate|]. simpl.
    destruct (a =? x); [apply IH | discriminate].
Qed.

Lemma fence_free_prefix (a b : jsstring) :
  after_first FENCE (a ++ b) = None -> after_first FENCE a = None.
Proof.
  induction a as [|x a IH]; [reflexivity|].
  intros H. pose proof (after_first_tail _ _ H) as Ht. specialize (IH Ht).
  change (after_first FENCE ((x :: a) ++ b))
    with (match strip_prefix FENCE ((x :: a) ++ b) with
          | Some r => Some r
          | None => after_first FENCE (a ++ b)
          end) in H.
  change (after_first FENCE (x :: a))
    with (match strip_prefix FENCE (x :: a) with
          | Some r => Some r
          | None => after_first FENCE a
          end).
  destruct (strip_prefix FENCE (x :: a)) as [r|] eqn:E; [|exact IH].
  rewrite (strip_prefix_app_Some _ _ b _ E) in H. discriminate.
Qed.

Lemma fence_free_suffix (a b : jsstring) :
  after_first FENCE (a ++ b) = None -> after_first FENCE b = None.
Proof.
  induction a as [|x a IH]; [auto|].
  intros H. apply IH. exact (after_first_tail _ _ H).
Qed.

(** A text without a fence that is the JSON text of an object is its
    own candidate, up to the whitespace around it. *)
Lemma candidate_json_object text ms :
  fence_free text = true ->
  JSON_parse text = Normal (JObject ms) ->
  candidate text = trim text /\
  JSON_parse (candidate text) = Normal (JObject ms).
Proof.
  intros Hf Hp.
  assert (Hc : candidate text = trim text).
  { rewrite (candidate_steps text (trim text) (trim text) eq_refl).
    - rewrite (JSON_parse_object_brace text ms Hp). reflexivity.
    - unfold code_block_match.
      destruct (trim_parts text) as (w1 & w2 & _ & _ & E).
      apply fence_free_None in Hf. rewrite E in Hf.
      apply fence_free_suffix, fence_free_prefix in Hf. rewrite Hf. reflexivity. }
  split; [exact Hc|]. rewrite Hc. apply JSON_parse_trim, Hp.
Qed.

End JSONParse.

(* ===================================================================== *)
(** * Properties of the stream transform                                  *)
(* ===================================================================== *)

Section StreamReshaper.

Lemma pipe_cons b chunk rest b' out :
  transform b chunk = Normal (b', out) ->
  pipeThrough b (chunk :: rest) = then_emit out (pipeThrough b' rest).
Proof. intros H. simpl. rewrite H. reflexivity. Qed.

Lemma then_emit_app o1 o2 m :
  then_emit o1 (then_emit o2 m) = then_emit (o1 ++ o2) m.
Proof. destruct m; simpl; [rewrite app_assoc|]; reflexivity. Qed.

(** A part that is not a text part passes through at once and leaves the
    buffer as it is. *)
Lemma transform_passthrough b chunk :
  is_text_part chunk = false -> transform b chunk = Normal (b, [chunk]).
Proof. destruct chunk; simpl; intros; (discriminate || reflexivity). Qed.

(** Inside a segment, deltas are buffered and the other parts pass. *)
Lemma pipe_body body : forall buf tid rest,
  forallb (fun p => negb (is_segment_boundary p)) body = true ->
  pipeThrough {| bufferedText := buf; textId := tid |} (body ++ rest) =
  then_emit (others body)
    (pipeThrough {| bufferedText := buf ++ deltas body; textId := tid |} rest).
Proof.
  induction body as [|p body IH]; intros buf tid rest Hb.
  - simpl. rewrite app_nil_r. destruct (pipeThrough _ rest); reflexivity.
  - simpl in Hb. apply andb_prop in Hb as [Hp Hb].
    destruct p; try discriminate Hp.
    2-6: rewrite <- app_comm_cons;
         erewrite pipe_cons by (apply transform_passthrough; reflexivity);
         rewrite (IH _ _ _ Hb), then_emit_app; reflexivity.
    rewrite <- app_comm_cons.
    rewrite (pipe_cons {| bufferedText := buf; textId := tid |} (TextDelta id delta)
               _ {| bufferedText := buf ++ delta; textId := tid |} [] eq_refl).
    rewrite (IH _ _ _ Hb). simpl deltas. rewrite <- app_assoc.
    destruct (pipeThrough _ rest); reflexivity.
Qed.

(** Outside a segment, every part passes. *)
Lemma pipe_passthrough l : forall b,
  forallb (fun p => negb (is_text_part p)) l = true ->
  forall rest, pipeThrough b (l ++ rest) = then_emit l (pipeThrough b rest).
Proof.
  induction l as [|p l IH]; intros b Hl rest.
  - simpl. destruct (pipeThrough b rest); reflexivity.
  - simpl in Hl. apply andb_prop in Hl as [Hp Hl]. apply negb_true_iff in Hp.
    rewrite <- app_comm_cons, (pipe_cons _ _ _ _ _ (transform_passthrough b p Hp)).
    rewrite (IH b Hl), then_emit_app. reflexivity.
Qed.

(** A response with one text segment: parts that are not text, the
    start of the segment, its deltas among other parts, its end, parts
    that are not text.  What the segment becomes is decided at its end. *)
Lemma doStream_segment pre id body id' post b' out :
  forallb (fun p => negb (is_text_part p)) pre = true ->
  forallb (fun p => negb (is_segment_boundary p)) body = true ->
  forallb (fun p => negb (is_text_part p)) post = true ->
  transform {| bufferedText := deltas body; textId := Some id |} (TextEnd id')
    = Normal (b', out) ->
  doStream (pre ++ TextStart id :: body ++ TextEnd id' :: post) =
    Normal (pre ++ others body ++ out ++ post).
Proof.
  intros Hpre Hbody Hpost Hend. unfold doStream.
  rewrite (pipe_passthrough pre _ Hpre).
  rewrite (pipe_cons initial_buffer (TextStart id) _
             {| bufferedText := []; textId := Some id |} [] eq_refl).
  rewrite (pipe_body body _ _ _ Hbody). simpl app at 2.
  rewrite (pipe_cons _ _ _ _ _ Hend).
  rewrite <- (app_nil_r post) at 1. rewrite (pipe_passthrough post _ Hpost).
  simpl. rewrite app_nil_r. reflexivity.
Qed.

End StreamReshaper.

(* ===================================================================== *)
(** * The tool-call parser: statements of the specification               *)
(* ===================================================================== *)

Import Examples.

Section ParserClaims.

(** C1, as stated, does not hold: an envelope between a leading and a
    trailing prose is not returned when the trailing prose holds a
    closing brace, because the brace span is taken up to the last
    closing brace of the whole text. *)
Lemma C1_counterexample :
  tool_call_envelope weather_envelope [weather_call] /\
  braces_response =
    str "Here is the call: " ++ weather_envelope ++ str " Replace {city} if needed." /\
  parseToolCallResponse braces_response = Normal None.
Proof.
  split; [|split].
  - split; [|split; [|split]]; try reflexivity.
    exists (JObject [(str "output", JArray [weather_call])]).
    split; vm_compute; reflexivity.
  - reflexivity.
  - vm_compute. reflexivity.
Qed.

(** C1 (amended).  For every tool-call envelope [j] that holds no triple
    backtick, [parseToolCallResponse] returns exactly the output array
    of [j], element for element, on each of these texts: [j] with
    whitespace around it; [j] in a fenced code block, tagged json or
    not, after any text without a backtick and before any text; [j]
    after a leading prose that is not blank and before a trailing prose,
    when neither prose holds a brace or a backtick. *)
Theorem C1_envelope_returned (j text : jsstring) (items : list json) :
  tool_call_envelope j items ->
  fence_free j = true ->
  presented j text ->
  parseToolCallResponse text = Normal (Some items).
Proof.
  intros ((parsed & Hp & Ho) & Hv & Hh & Hl) Hf Hpres.
  rewrite (parse_output_array text parsed items).
  - rewrite Hv. reflexivity.
  - rewrite (candidate_presented j text Hh Hl Hf Hpres). exact Hp.
  - exact Ho.
Qed.

Lemma C1_envelope_returned_witness :
  parseToolCallResponse ([LF] ++ weather_envelope ++ str "  ")
    = Normal (Some [weather_call]) /\
  parseToolCallResponse fenced_response = Normal (Some [weather_call]) /\
  parseToolCallResponse prose_response = Normal (Some [weather_call]).
Proof.
  assert (He : tool_call_envelope weather_envelope [weather_call]).
  { split; [|split; [|split]]; try reflexivity.
    exists (JObject [(str "output", JArray [weather_call])]).
    split; vm_compute; reflexivity. }
  split; [|split].
  - apply (C1_envelope_returned weather_envelope _ _ He eq_refl).
    apply (plain_json _ [LF] (str "  ")); reflexivity.
  - apply (C1_envelope_returned weather_envelope _ _ He eq_refl).
    apply (fenced _ (str "Calling the tool." ++ [LF]) (str "json") [LF] [LF]
             ([LF] ++ str "Done.")); auto; reflexivity.
  - apply (C1_envelope_returned weather_envelope _ _ He eq_refl).
    apply (in_prose _ (str "Here is the call: ") (str " I will wait."));
      reflexivity.
Defined.

(** C2, as stated, does not hold: the text below parses as a JSON object
    whose [output] array holds a call with a nested object as
    [arguments], and [parseToolCallResponse] returns a call all the
    same, read from the brace span between the two fences the text
    holds. *)
Lemma C2_counterexample :
  JSON_parse shadowed_response =
    Normal (JObject [ (str "output", JArray [nested_call]);
                      (str "note", JString FENCE);
                      (str "retry",
                       JObject [(str "output", JArray [weather_call])]);
                      (str "end", JString FENCE) ]) /\
  valid_call nested_call = false /\
  parseToolCallResponse shadowed_response = Normal (Some [weather_call]).
Proof. repeat split; vm_compute; reflexivity. Qed.

(** An element whose [arguments] is not a string is not a valid call. *)
Lemma nested_arguments_invalid (item : json) :
  is_string (field item (str "arguments")) = false -> valid_call item = false.
Proof.
  destruct item; try reflexivity. unfold field, valid_call; simpl.
  intros ->. apply andb_false_r.
Qed.

(** C2 (amended).  For every response text that holds no triple
    backtick and parses as JSON with an [output] array in which at
    least one element fails the shape validation (for example, its
    [arguments] is a nested object), and for every response text whose
    JSON candidate (the text [parseToolCallResponse] hands to
    [JSON.parse]: the trimmed response, or the inside of its first
    fenced block, or its brace span) parses so, [parseToolCallResponse]
    returns null: no element of the array is accepted. *)
Theorem C2_all_or_nothing (text : jsstring) (parsed : json) (items : list json) :
  (fence_free text = true /\ JSON_parse text = Normal parsed) \/
  JSON_parse (candidate text) = Normal parsed ->
  get_prop parsed (str "output") = Normal (Some (JArray items)) ->
  Exists (fun item => valid_call item = false) items ->
  parseToolCallResponse text = Normal None.
Proof.
  intros Hp Ho Hex.
  assert (Hc : JSON_parse (candidate text) = Normal parsed).
  { destruct Hp as [[Hf Hp]|Hp]; [|exact Hp].
    destruct parsed; try discriminate Ho.
    exact (proj2 (candidate_json_object text _ Hf Hp)). }
  rewrite (parse_output_array text parsed items Hc Ho).
  replace (forallb valid_call items) with false; [reflexivity|].
  symmetry. apply not_true_is_false. intros Hall.
  rewrite forallb_forall in Hall. apply Exists_exists in Hex as (x & Hx & Hv).
  rewrite (Hall x) in Hv; [discriminate|]. apply list_elem_of_In, Hx.
Qed.

Lemma C2_all_or_nothing_witness :
  parseToolCallResponse ([LF] ++ nested_envelope ++ str "  ") = Normal None /\
  parseToolCallResponse mixed_envelope = Normal None /\
  parseToolCallResponse
    (str "```json" ++ [LF] ++ nested_envelope ++ [LF] ++ str "```") = Normal None.
Proof.
  split; [|split].
  - apply (C2_all_or_nothing _
             (JObject [(str "output", JArray [nested_call])]) [nested_call]).
    + left. split; vm_compute; reflexivity.
    + reflexivity.
    + constructor. apply nested_arguments_invalid. reflexivity.
  - apply (C2_all_or_nothing mixed_envelope
             (JObject [(str "output", JArray [weather_call; nested_call])])
             [weather_call; nested_call]).
    + left. split; vm_compute; reflexivity.
    + reflexivity.
    + right. left. apply nested_arguments_invalid. reflexivity.
  - apply (C2_all_or_nothing _
             (JObject [(str "output", JArray [nested_call])]) [nested_call]).
    + right. vm_compute. reflexivity.
    + reflexivity.
    + constructor. apply nested_arguments_invalid. reflexivity.
Defined.

(** C5.  On every input string [parseToolCallResponse] completes
    normally, with null or with an array: it never throws.  It returns
    null whenever [JSON.parse] throws on the candidate, whenever
    anything else throws while the parsed value is checked, and
    whenever the parsed value is not an object whose [output] is an
    array of valid calls. *)
Theorem C5_never_throws (text : jsstring) :
  (parseToolCallResponse text = Normal None \/
   exists items, parseToolCallResponse text = Normal (Some items)) /\
  (forall e, JSON_parse (candidate text) = Throw e ->
             parseToolCallResponse text = Normal None) /\
  (forall e, parse_body (candidate text) = Throw e ->
             parseToolCallResponse text = Normal None) /\
  (forall parsed,
     JSON_parse (candidate text) = Normal parsed ->
     (forall items, get_prop parsed (str "output") = Normal (Some (JArray items)) ->
                    forallb valid_call items = false) ->
     parseToolCallResponse text = Normal None).
Proof.
  unfold parseToolCallResponse. split; [|split; [|split]].
  - destruct (parse_body (candidate text)) as [[items|]|e]; simpl; eauto.
  - intros e He. unfold parse_body. rewrite He. reflexivity.
  - intros e He. rewrite He. reflexivity.
  - intros parsed Hp Hbad. unfold parse_body. rewrite Hp. simpl.
    destruct (get_prop parsed (str "output")) as [[[ | | | |elems| ]|]|e] eqn:Ho;
      simpl; try reflexivity.
    destruct (every_invalid elems (Hbad elems eq_refl)) as [-> | [e ->]];
      reflexivity.
Qed.

Lemma C5_never_throws_witness :
  parseToolCallResponse (qq "{'output': [oops") = Normal None /\
  parseToolCallResponse (qq "null") = Normal None /\
  parseToolCallResponse (qq "{'output':[null]}") = Normal None /\
  parseToolCallResponse (qq "{'output':'none'}") = Normal None.
Proof.
  split; [|split; [|split]].
  - apply (proj1 (proj2 (C5_never_throws (qq "{'output': [oops"))) SyntaxError).
    vm_compute. reflexivity.
  - apply (proj1 (proj2 (proj2 (C5_never_throws (qq "null")))) TypeError).
    vm_compute. reflexivity.
  - apply (proj1 (proj2 (proj2 (C5_never_throws (qq "{'output':[null]}"))))
             TypeError).
    vm_compute. reflexivity.
  - apply (proj2 (proj2 (proj2 (C5_never_throws (qq "{'output':'none'}"))))
             (JObject [(str "output", JString (str "none"))])).
    + vm_compute. reflexivity.
    + intros items. discriminate.
Defined.

(** C6, as stated, does not hold: on the envelope with an empty
    [output] array the parser returns the empty array, a successful
    result, and not null. *)
Lemma C6_counterexample :
  JSON_parse empty_envelope = Normal (JObject [(str "output", JArray [])]) /\
  parseToolCallResponse empty_envelope = Normal (Some []).
Proof. split; vm_compute; reflexivity. Qed.

(** C6 (amended).  For every input text, a successful result of
    [parseToolCallResponse] is the whole [output] array of the parsed
    candidate, every element of it a valid call: a full assistant turn
    maps to null or to all the calls of its envelope, never to a part of
    them.  The array can be empty. *)
Theorem C6_success_is_whole_output (text : jsstring) (items : list json) :
  parseToolCallResponse text = Normal (Some items) ->
  exists parsed,
    JSON_parse (candidate text) = Normal parsed /\
    get_prop parsed (str "output") = Normal (Some (JArray items)) /\
    forallb valid_call items = true.
Proof.
  unfold parseToolCallResponse, parse_body.
  destruct (JSON_parse (candidate text)) as [parsed|e]; simpl; [|discriminate].
  destruct (get_prop parsed (str "output")) as [[[ | | | |elems| ]|]|e] eqn:Ho;
    simpl; try discriminate.
  destruct (forallb valid_call elems) eqn:Hv.
  - rewrite (every_valid _ Hv). simpl. intros [= <-]. eauto.
  - destruct (every_invalid _ Hv) as [-> | [e ->]]; discriminate.
Qed.

Lemma C6_success_is_whole_output_witness :
  exists parsed,
    JSON_parse (candidate fenced_response) = Normal parsed /\
    get_prop parsed (str "output") = Normal (Some (JArray [weather_call])) /\
    forallb valid_call [weather_call] = true.
Proof.
  apply (C6_success_is_whole_output fenced_response [weather_call]).
  vm_compute. reflexivity.
Defined.

(** An envelope followed by prose only is not read: the trimmed text
    starts with a brace, so the brace span is not looked for and
    [JSON.parse] fails on the prose. *)
Example trailing_prose_only :
  parseToolCallResponse (weather_envelope ++ str " Done.") = Normal None.
Proof. vm_compute. reflexivity. Qed.

End ParserClaims.

(* ===================================================================== *)
(** * The stream transform: statements of the specification               *)
(* ===================================================================== *)

Section StreamClaims.




(** C4.  For every streamed response with one text segment whose
    buffered text parses as the tool calls [calls], the reshaped stream
    holds, where the segment ended and for each call in array order,
    tool-input-start, tool-input-delta with the full arguments,
    tool-input-end and tool-call, each with the callId of that call:
    four parts per call and no text part at all; and a part that is
    not text-start, text-delta or text-end is enqueued unchanged by the
    very call of [transform] that receives it. *)
Theorem C4_tool_calls_emitted (pre body post : list part) (id id' : jsstring)
    (calls : list json) :
  forallb (fun p => negb (is_text_part p)) pre = true ->
  forallb (fun p => negb (is_segment_boundary p)) body = true ->
  forallb (fun p => negb (is_text_part p)) post = true ->
  parseToolCallResponse (deltas body) = Normal (Some calls) ->
  let emitted :=
    calls ≫= (fun call =>
      [ ToolInputStart (field call (str "callId")) (field call (str "name"));
        ToolInputDelta (field call (str "callId")) (field call (str "arguments"));
        ToolInputEnd (field call (str "callId"));
        ToolCall (field call (str "callId")) (field call (str "name"))
                 (field call (str "arguments")) ]) in
  doStream (pre ++ TextStart id :: body ++ TextEnd id' :: post) =
    Normal (pre ++ others body ++ emitted ++ post) /\
  length emitted = (4 * length calls)%nat /\
  forallb (fun p => negb (is_text_part p))
          (pre ++ others body ++ emitted ++ post) = true /\
  (forall b chunk, is_text_part chunk = false ->
                   transform b chunk = Normal (b, [chunk])).
Proof.
  intros Hpre Hbody Hpost Hparse emitted.
  assert (Hem : forallb (fun p => negb (is_text_part p)) emitted = true).
  { unfold emitted. clear. induction calls as [|c calls IH]; [reflexivity|exact IH]. }
  assert (Hoth : forall l, forallb (fun p => negb (is_text_part p)) (others l) = true).
  { clear. induction l as [|p l IH]; [reflexivity|]. simpl.
    destruct (is_text_part p) eqn:E; [exact IH|]. simpl. rewrite E. exact IH. }
  split; [|split; [|split]].
  - eapply doStream_segment; try eassumption.
    simpl. rewrite Hparse. reflexivity.
  - unfold emitted. clear. induction calls as [|c calls IH]; [reflexivity|].
    change (length ((c :: calls) ≫= _)) with (4 + length (calls ≫= tool_parts))%nat.
    change (length (calls ≫= _)) with (length (calls ≫= tool_parts)) in IH.
    rewrite IH. simpl. lia.
  - rewrite !forallb_app, Hpre, Hoth, Hem, Hpost. reflexivity.
  - apply transform_passthrough.
Qed.

Lemma C4_tool_calls_emitted_witness :
  doStream [ OtherPart (str "stream-start") JNull;
             TextStart (str "text-0");
             TextDelta (str "text-0") (take 40 weather_envelope);
             TextDelta (str "text-0") (drop 40 weather_envelope);
             TextEnd (str "text-0");
             OtherPart (str "finish") JNull ]
  = Normal [ OtherPart (str "stream-start") JNull;
             ToolInputStart (Some (JString (str "call_1")))
                            (Some (JString (str "get_weather")));
             ToolInputDelta (Some (JString (str "call_1")))
                            (Some (JString (qq "{'city':'Paris'}")));
             ToolInputEnd (Some (JString (str "call_1")));
             ToolCall (Some (JString (str "call_1")))
                      (Some (JString (str "get_weather")))
                      (Some (JString (qq "{'city':'Paris'}")));
             OtherPart (str "finish") JNull ].
Proof.
  apply (C4_tool_calls_emitted
           [OtherPart (str "stream-start") JNull]
           [TextDelta (str "text-0") (take 40 weather_envelope);
            TextDelta (str "text-0") (drop 40 weather_envelope)]
           [OtherPart (str "finish") JNull]
           (str "text-0") (str "text-0") [weather_call]); reflexivity.
Defined.

(** C10.  On the text of the envelope with an empty [output] array
    [parseToolCallResponse] returns the empty array as a successful
    parse, and the transform of [doStream] then enqueues nothing for a
    segment that carries this text, however it is cut into deltas:
    neither text parts nor tool parts. *)
Theorem C10_empty_envelope_swallowed (id id' : jsstring) (body : list part) :
  forallb (fun p => negb (is_segment_boundary p)) body = true ->
  others body = [] ->
  deltas body = empty_envelope ->
  parseToolCallResponse empty_envelope = Normal (Some []) /\
  doStream (TextStart id :: body ++ [TextEnd id']) = Normal [].
Proof.
  intros Hbody Hoth Hd.
  assert (Hp : parseToolCallResponse empty_envelope = Normal (Some []))
    by (vm_compute; reflexivity).
  split; [exact Hp|].
  change (TextStart id :: body ++ [TextEnd id'])
    with ([] ++ TextStart id :: body ++ TextEnd id' :: []).
  rewrite (doStream_segment [] id body id' []
             {| bufferedText := deltas body; textId := Some id |} []);
    try reflexivity; try assumption.
  - rewrite Hoth. reflexivity.
  - simpl. rewrite Hd, Hp. reflexivity.
Qed.

Lemma C10_empty_envelope_swallowed_witness :
  doStream [ TextStart (str "text-0");
             TextDelta (str "text-0") (qq "{'out");
             TextDelta (str "text-0") (qq "put':[]}");
             TextEnd (str "text-0") ] = Normal [].
Proof.
  apply (C10_empty_envelope_swallowed (str "text-0") (str "text-0")
           [TextDelta (str "text-0") (qq "{'out");
            TextDelta (str "text-0") (qq "put':[]}")]); reflexivity.
Defined.

End StreamClaims.

(* ===================================================================== *)
(** * Properties of prependSystemPromptToMessages                         *)
(* ===================================================================== *)

Import Polyfill.

Section PromptAssembler.
Context {S : Type} (stringify : S -> jsstring).

Implicit Types (h : heap S) (m : message S) (es : list loc).

Lemma findIndex_first {A} (f : A -> bool) (eb : list A) (x : A) (ea : list A) :
  forallb (fun y => negb (f y)) eb = true -> f x = true ->
  findIndex f (eb ++ x :: ea) = Some (length eb).
Proof.
  intros Hb Hx. induction eb as [|y eb IH]; simpl.
  - rewrite Hx. reflexivity.
  - simpl in Hb. apply andb_prop in Hb as [Hy Hb]. apply negb_true_iff in Hy.
    rewrite Hy, (IH Hb). reflexivity.
Qed.

Lemma findIndex_none {A} (f : A -> bool) (l : list A) :
  forallb (fun y => negb (f y)) l = true -> findIndex f l = None.
Proof.
  induction l as [|y l IH]; simpl; [reflexivity|].
  intros [Hy Hl]%andb_prop. apply negb_true_iff in Hy.
  rewrite Hy, (IH Hl). reflexivity.
Qed.

(** A reference that denotes a message is allocated. *)
Lemma message_at_dom h p m : message_at h p = Some m -> p ∈ dom h.
Proof.
  unfold message_at. destruct (h !! p) eqn:E; [|discriminate].
  intros _. apply elem_of_dom. eauto.
Qed.

(** Writing at references that are not allocated in [h] changes no
    message of [h]. *)
Lemma message_at_frame h a o ca co p m :
  a ∉ dom h -> o ∉ dom h ->
  message_at h p = Some m ->
  message_at (<[a := ca]> (<[o := co]> h)) p = Some m.
Proof.
  intros Ha Ho Hp. pose proof (message_at_dom _ _ _ Hp) as Hd.
  unfold message_at in *.
  rewrite !lookup_insert_ne by (intros ->; contradiction). exact Hp.
Qed.

Lemma messages_frame h a o ca co es ms :
  a ∉ dom h -> o ∉ dom h ->
  Forall2 (fun p m => message_at h p = Some m) es ms ->
  Forall2 (fun p m => message_at (<[a := ca]> (<[o := co]> h)) p = Some m) es ms.
Proof.
  intros Ha Ho H. eapply Forall2_impl; [exact H|].
  intros p m. apply message_at_frame; assumption.
Qed.

Lemma role_is_user_spec h p m :
  message_at h p = Some m ->
  role_is_user h p = bool_decide (role m = str "user").
Proof.
  unfold message_at, role_is_user.
  destruct (h !! p) as [[m'|]|]; try discriminate. intros [= ->]. reflexivity.
Qed.

Lemma no_user_findIndex h es ms :
  Forall2 (fun p m => message_at h p = Some m) es ms ->
  Forall (fun m => role m <> str "user") ms ->
  forallb (fun p => negb (role_is_user h p)) es = true.
Proof.
  induction 1 as [|p m es ms Hp _ IH]; [reflexivity|].
  intros [Hm Hms]%Forall_cons. simpl.
  rewrite (role_is_user_spec _ _ _ Hp), bool_decide_eq_false_2 by exact Hm.
  apply IH, Hms.
Qed.

(** The call allocates; it writes nowhere else. *)
Lemma prepend_frame h messages systemPrompt :
  let r := prependSystemPromptToMessages stringify h messages systemPrompt in
  (forall l, l ∈ dom h -> r.1 !! l = h !! l) /\ r.2 = fresh (dom h).
Proof.
  unfold prependSystemPromptToMessages.
  set (elems := match h !! messages with Some (ArrayObject es) => es | _ => [messages] end).
  set (a := fresh (dom h)).
  set (h1 := <[a := ArrayObject elems]> h).
  set (o := fresh (dom h1)).
  assert (Ha : a ∉ dom h) by apply is_fresh.
  assert (Ho : o ∉ dom h1) by apply is_fresh.
  assert (Ho' : o ∉ dom h).
  { intros Hd. apply Ho. unfold h1. rewrite dom_insert. set_solver. }
  destruct (findIndex _ elems) as [i|]; [destruct (_ ≫= _) as [[fm|]|]|];
    simpl; (split; [|reflexivity]); intros l Hl; unfold h1;
    rewrite ?lookup_insert_ne by (intros ->; contradiction); reflexivity.
Qed.

Lemma message_at_insert h a c p :
  a <> p -> message_at (<[a := c]> h) p = message_at h p.
Proof. intros Hne. unfold message_at. rewrite lookup_insert_ne by exact Hne. reflexivity. Qed.

Lemma message_at_inv h p m :
  message_at h p = Some m -> h !! p = Some (MessageObject m).
Proof.
  unfold message_at. destruct (h !! p) as [[m'|]|]; try discriminate.
  intros [= ->]. reflexivity.
Qed.

(** The messages of [h] read in a heap that extends [h] at [a] and [o]. *)
Lemma messages_extend h h' a o es ms :
  a ∉ dom h -> o ∉ dom h ->
  (forall p, p <> a -> p <> o -> message_at h' p = message_at h p) ->
  Forall2 (fun p m => message_at h p = Some m) es ms ->
  Forall2 (fun p m => message_at h' p = Some m) es ms.
Proof.
  intros Ha Ho Hext H. eapply Forall2_impl; [exact H|].
  intros p m Hp. pose proof (message_at_dom _ _ _ Hp) as Hd.
  rewrite Hext; [exact Hp | |]; intros ->; contradiction.
Qed.

(** With a first user message. *)
Lemma prepend_first_user h messages es before m after systemPrompt :
  h !! messages = Some (ArrayObject es) ->
  Forall2 (fun p x => message_at h p = Some x) es (before ++ m :: after) ->
  Forall (fun x => role x <> str "user") before ->
  role m = str "user" ->
  let r := prependSystemPromptToMessages stringify h messages systemPrompt in
  messages_of r.1 r.2 =
    Some (before ++
          {| role := role m;
             content_of := Text (systemPrompt ++ [LF; LF] ++
                                 originalContent stringify (content_of m));
             other_props := other_props m |} :: after).
Proof.
  intros Harr Hes Hbefore Hm.
  apply Forall2_app_inv_r in Hes as (eb & rest & Heb & Hrest & ->).
  apply Forall2_cons_inv_r in Hrest as (p & ea & Hp & Hea & ->).
  unfold prependSystemPromptToMessages. rewrite Harr.
  set (a := fresh (dom h)).
  set (h1 := <[a := ArrayObject (eb ++ p :: ea)]> h).
  set (o := fresh (dom h1)).
  assert (Ha : a ∉ dom h) by apply is_fresh.
  assert (Ho : o ∉ dom h1) by apply is_fresh.
  assert (Hoa : a <> o).
  { intros Heq. apply Ho. rewrite <- Heq. unfold h1. rewrite dom_insert. set_solver. }
  assert (Ho' : o ∉ dom h).
  { intros Hd. apply Ho. unfold h1. rewrite dom_insert. set_solver. }
  assert (H1 : forall q, q <> a -> message_at h1 q = message_at h q).
  { intros q Hq. apply message_at_insert. congruence. }
  (* the index of the first user message *)
  assert (Hidx : findIndex (role_is_user h1) (eb ++ p :: ea) = Some (length eb)).
  { apply findIndex_first.
    - apply (no_user_findIndex h1 eb before); [|exact Hbefore].
      eapply Forall2_impl; [exact Heb|]. intros q x Hq.
      rewrite H1; [exact Hq|]. intros ->. apply Ha, (message_at_dom _ _ _ Hq).
    - rewrite (role_is_user_spec h1 p m), bool_decide_eq_true_2; auto.
      rewrite H1; [exact Hp|]. intros ->. apply Ha, (message_at_dom _ _ _ Hp). }
  rewrite Hidx.
  assert (Hpa : a <> p).
  { intros ->. apply Ha, (message_at_dom _ _ _ Hp). }
  assert (Hh1p : h1 !! p = Some (MessageObject m)).
  { unfold h1. rewrite lookup_insert_ne by exact Hpa.
    exact (message_at_inv _ _ _ Hp). }
  rewrite list_lookup_middle by reflexivity. cbn [mbind option_bind].
  rewrite Hh1p. cbn [fst snd].
  (* the array that is returned *)
  unfold messages_of. rewrite lookup_insert_eq.
  replace (length eb) with (length eb + 0)%nat by lia.
  rewrite insert_app_r. cbn [list_insert insert].
  apply mapM_Some.
  match goal with |- Forall2 (fun _ _ => message_at ?H _ = _) _ _ => set (h3 := H) end.
  assert (H3 : forall q, q <> a -> q <> o -> message_at h3 q = message_at h q).
  { intros q Hqa Hqo. unfold h3. rewrite !message_at_insert by congruence.
    apply H1, Hqa. }
  apply Forall2_app; [|apply Forall2_cons; split].
  - exact (messages_extend h h3 a o _ _ Ha Ho' H3 Heb).
  - unfold h3, message_at. rewrite lookup_insert_ne by exact Hoa.
    rewrite lookup_insert_eq. reflexivity.
  - exact (messages_extend h h3 a o _ _ Ha Ho' H3 Hea).
Qed.

(** Without a user message. *)
Lemma prepend_no_user h messages es ms systemPrompt :
  h !! messages = Some (ArrayObject es) ->
  Forall2 (fun p x => message_at h p = Some x) es ms ->
  Forall (fun x => role x <> str "user") ms ->
  let r := prependSystemPromptToMessages stringify h messages systemPrompt in
  messages_of r.1 r.2 =
    Some ({| role := str "user"; content_of := Text systemPrompt;
             other_props := [] |} :: ms).
Proof.
  intros Harr Hes Hms.
  unfold prependSystemPromptToMessages. rewrite Harr.
  set (a := fresh (dom h)).
  set (h1 := <[a := ArrayObject es]> h).
  set (o := fresh (dom h1)).
  assert (Ha : a ∉ dom h) by apply is_fresh.
  assert (Ho : o ∉ dom h1) by apply is_fresh.
  assert (Hoa : a <> o).
  { intros Heq. apply Ho. rewrite <- Heq. unfold h1. rewrite dom_insert. set_solver. }
  assert (Ho' : o ∉ dom h).
  { intros Hd. apply Ho. unfold h1. rewrite dom_insert. set_solver. }
  assert (H1 : forall q, q <> a -> message_at h1 q = message_at h q).
  { intros q Hq. apply message_at_insert. congruence. }
  rewrite findIndex_none.
  2:{ apply (no_user_findIndex h1 es ms); [|exact Hms].
      eapply Forall2_impl; [exact Hes|]. intros q x Hq.
      rewrite H1; [exact Hq|]. intros ->. apply Ha, (message_at_dom _ _ _ Hq). }
  cbn [fst snd]. unfold messages_of. rewrite lookup_insert_eq.
  apply mapM_Some.
  match goal with |- Forall2 (fun _ _ => message_at ?H _ = _) _ _ => set (h3 := H) end.
  assert (H3 : forall q, q <> a -> q <> o -> message_at h3 q = message_at h q).
  { intros q Hqa Hqo. unfold h3. rewrite !message_at_insert by congruence.
    apply H1, Hqa. }
  apply Forall2_cons; split.
  - unfold h3, message_at. rewrite lookup_insert_ne by exact Hoa.
    rewrite lookup_insert_eq. reflexivity.
  - exact (messages_extend h h3 a o _ _ Ha Ho' H3 Hes).
Qed.

(** C9.  [prependSystemPromptToMessages] returns a new array and leaves
    its input as it was: every object allocated before the call, the
    input array and its messages among them, is unchanged after it.
    When the sequence has a message of role user, the returned sequence
    is the input sequence with, in place of the first such message, a
    message with the same role and other properties whose content is
    the instruction, a blank line (two line feeds), and the original
    content, serialized with [JSON.stringify] when it is not a string;
    every other message keeps its place, role and content.  When the
    sequence has no message of role user, the returned sequence is a
    new user message whose content is the instruction, followed by the
    input sequence. *)
Theorem C9_prompt_assembled (h : heap S) (messages : loc)
    (msgs : list (message S)) (systemPrompt : jsstring) :
  messages_of h messages = Some msgs ->
  let r := prependSystemPromptToMessages stringify h messages systemPrompt in
  (forall l, l ∈ dom h -> r.1 !! l = h !! l) /\
  (r.2 ∉ dom h) /\
  messages_of r.1 messages = Some msgs /\
  (forall before m after,
     msgs = before ++ m :: after ->
     Forall (fun x => role x <> str "user") before ->
     role m = str "user" ->
     messages_of r.1 r.2 =
       Some (before ++
             {| role := role m;
                content_of :=
                  Text (systemPrompt ++ [LF; LF] ++
                        match content_of m with
                        | Text s => s
                        | Parts v => stringify v
                        end);
                other_props := other_props m |} :: after)) /\
  (Forall (fun x => role x <> str "user") msgs ->
   messages_of r.1 r.2 =
     Some ({| role := str "user"; content_of := Text systemPrompt;
              other_props := [] |} :: msgs)).
Proof.
  intros Hmsgs r.
  pose proof (prepend_frame h messages systemPrompt) as [Hframe Hres].
  fold r in Hframe, Hres.
  assert (Harr : exists es, h !! messages = Some (ArrayObject es) /\
                 Forall2 (fun p x => message_at h p = Some x) es msgs).
  { unfold messages_of in Hmsgs.
    destruct (h !! messages) as [[?|es]|]; try discriminate.
    exists es. split; [reflexivity|]. apply mapM_Some, Hmsgs. }
  destruct Harr as (es & Harr & Hes).
  split; [exact Hframe|]. split; [rewrite Hres; apply is_fresh|].
  split; [|split].
  - unfold messages_of. rewrite Hframe by (apply elem_of_dom; eauto).
    rewrite Harr. apply mapM_Some.
    eapply Forall2_impl; [exact Hes|]. intros p x Hp.
    unfold message_at. rewrite Hframe by exact (message_at_dom _ _ _ Hp).
    exact Hp.
  - intros before m after -> Hbefore Hm.
    exact (prepend_first_user h messages es before m after systemPrompt
             Harr Hes Hbefore Hm).
  - intros Hnone.
    exact (prepend_no_user h messages es msgs systemPrompt Harr Hes Hnone).
Qed.

End PromptAssembler.

Lemma C9_prompt_assembled_witness :
  let r := prependSystemPromptToMessages (fun _ : unit => [])
             chat_heap 3%positive (str "X") in
  messages_of r.1 r.2 =
    Some [ assistant_message;
           Message (str "user") (Text (str "X" ++ [LF; LF] ++ str "hi")) [] ] /\
  messages_of r.1 3%positive = Some [assistant_message; user_message].
Proof.
  assert (Hm : messages_of chat_heap 3%positive
               = Some [assistant_message; user_message]) by reflexivity.
  pose proof (C9_prompt_assembled (fun _ : unit => []) chat_heap 3%positive
                [assistant_message; user_message] (str "X") Hm)
    as (_ & _ & Hsame & Hfirst & _).
  split; [|exact Hsame].
  apply (Hfirst [assistant_message] user_message []); [reflexivity| |reflexivity].
  constructor; [discriminate|constructor].
Defined.

(* ===================================================================== *)
(** * Properties of the model cache                                       *)
(* ===================================================================== *)

Import Registry.

Section ModelInstanceCache.

Variable name : jsstring.

Ltac cache_crush :=
  unfold serve, initializeWebLLMModel, getOrCreateWebLLMModel,
    initialization_settled, built, started, asks, wants_model, initializes in *;
  repeat (simpl in *; simplify_map_eq;
          first [ case_match | case_bool_decide ]);
  simpl in *; simplify_map_eq;
  rewrite ?filter_cons_True, ?filter_cons_False by (simpl; congruence);
  simpl; repeat split; try congruence; try lia; auto;
  try (apply lookup_delete_None; auto).

(** One request when the model of [name] is cached and its
    initialization is in flight. *)
Lemma serve_both_present c r h p :
  webLLMModels c !! name = Some h ->
  webLLMModelInitialization c !! name = Some p ->
  r <> Settled name ->
  let c1 := (serve c r).1 in
  webLLMModels c1 !! name = Some h /\
  webLLMModelInitialization c1 !! name = Some p /\
  built name c1 = built name c /\
  started name c1 = started name c /\
  (wants_model name r = true -> (serve c r).2 = Model h) /\
  (r = Initialize name -> (serve c r).2 = Initialization p).
Proof.
  intros Hm Hi Hr. destruct r as [n|n|n|n];
    [| | |assert (n <> name) by congruence]; cache_crush.
Qed.

(** One request when the model of [name] is cached and no
    initialization of it is in flight. *)
Lemma serve_model_present c r h :
  webLLMModels c !! name = Some h ->
  webLLMModelInitialization c !! name = None ->
  let c1 := (serve c r).1 in
  webLLMModels c1 !! name = Some h /\
  built name c1 = built name c /\
  (wants_model name r = true -> (serve c r).2 = Model h) /\
  if initializes name r then
    webLLMModelInitialization c1 !! name = Some (length (initializations c)) /\
    started name c1 = S (started name c) /\
    (r = Initialize name ->
     (serve c r).2 = Initialization (length (initializations c)))
  else
    webLLMModelInitialization c1 !! name = None /\
    started name c1 = started name c.
Proof.
  intros Hm Hi. destruct r as [n|n|n|n]; cache_crush.
Qed.

(** One request when the model of [name] is not cached and no
    initialization of it is in flight. *)
Lemma serve_absent c r :
  webLLMModels c !! name = None ->
  webLLMModelInitialization c !! name = None ->
  let c1 := (serve c r).1 in
  if asks name r then
    webLLMModels c1 !! name = Some (length (constructions c)) /\
    built name c1 = S (built name c) /\
    (wants_model name r = true ->
     (serve c r).2 = Model (length (constructions c))) /\
    if initializes name r then
      webLLMModelInitialization c1 !! name = Some (length (initializations c)) /\
      started name c1 = S (started name c) /\
      (r = Initialize name ->
       (serve c r).2 = Initialization (length (initializations c)))
    else
      webLLMModelInitialization c1 !! name = None /\
      started name c1 = started name c
  else
    webLLMModels c1 !! name = None /\
    webLLMModelInitialization c1 !! name = None /\
    built name c1 = built name c /\
    started name c1 = started name c.
Proof.
  intros Hm Hi. destruct r as [n|n|n|n]; cache_crush.
Qed.



Lemma serve_all_cons c r rs :
  serve_all c (r :: rs) =
    ((serve_all (serve c r).1 rs).1, (serve c r).2 :: (serve_all (serve c r).1 rs).2).
Proof.
  simpl. destruct (serve c r) as [c1 a]. simpl.
  destruct (serve_all c1 rs) as [c2 als]. reflexivity.
Qed.

Lemma answers_for_cons r rs a als h p :
  (wants_model name r = true -> a = Model h) ->
  (r = Initialize name -> a = Initialization p) ->
  answers_for name rs als h p ->
  answers_for name (r :: rs) (a :: als) h p.
Proof.
  intros H1 H2 H [|i] r'; simpl.
  - intros [= <-]. split; intros; f_equal; auto.
  - apply H.
Qed.

Lemma answers_for_nil h p : answers_for name [] [] h p.
Proof. intros i r. rewrite lookup_nil. discriminate. Qed.

(** Requests while the model is cached and its initialization is in
    flight. *)
Lemma serve_all_both_present rs : forall c h p,
  webLLMModels c !! name = Some h ->
  webLLMModelInitialization c !! name = Some p ->
  Settled name ∉ rs ->
  let R := serve_all c rs in
  webLLMModels R.1 !! name = Some h /\
  webLLMModelInitialization R.1 !! name = Some p /\
  built name R.1 = built name c /\
  started name R.1 = started name c /\
  answers_for name rs R.2 h p.
Proof.
  induction rs as [|r rs IH]; intros c h p Hm Hi Hs.
  - simpl. split_and!; auto using answers_for_nil.
  - apply not_elem_of_cons in Hs as [Hr Hs].
    destruct (serve_both_present c r h p Hm Hi (not_eq_sym Hr))
      as (Hm1 & Hi1 & Hb1 & Hs1 & Ha1 & Ha2).
    destruct (IH _ h p Hm1 Hi1 Hs) as (Hm2 & Hi2 & Hb2 & Hs2 & Ha).
    rewrite serve_all_cons. simpl.
    split_and!; try congruence. apply answers_for_cons; assumption.
Qed.

(** Requests while the model is cached and no initialization is in
    flight: the first call that initializes starts the one
    initialization. *)
Lemma serve_all_model_present rs : forall c h,
  webLLMModels c !! name = Some h ->
  webLLMModelInitialization c !! name = None ->
  Settled name ∉ rs ->
  let R := serve_all c rs in
  webLLMModels R.1 !! name = Some h /\
  built name R.1 = built name c /\
  started name R.1 =
    (started name c + if existsb (initializes name) rs then 1 else 0)%nat /\
  exists p, answers_for name rs R.2 h p.
Proof.
  induction rs as [|r rs IH]; intros c h Hm Hi Hs.
  - simpl. split_and!; auto. exists 0%nat. apply answers_for_nil.
  - apply not_elem_of_cons in Hs as [Hr Hs].
    pose proof (serve_model_present c r h Hm Hi) as (Hm1 & Hb1 & Ha1 & Hinit).
    rewrite serve_all_cons. simpl.
    destruct (initializes name r) eqn:Ei.
    + destruct Hinit as (Hi1 & Hs1 & Ha2).
      destruct (serve_all_both_present rs _ h _ Hm1 Hi1 Hs)
        as (Hm2 & Hi2 & Hb2 & Hs2 & Ha).
      split_and!; simpl; try congruence; try lia.
      eexists. apply answers_for_cons; eassumption.
    + destruct Hinit as (Hi1 & Hs1).
      destruct (IH _ h Hm1 Hi1 Hs) as (Hm2 & Hb2 & Hs2 & p & Ha).
      split_and!; simpl; try congruence; try lia.
      exists p. apply answers_for_cons; auto.
      intros ->. simpl in Ei. rewrite bool_decide_eq_true_2 in Ei by reflexivity.
      discriminate.
Qed.

(** Requests from a cache that has no model of [name] and no
    initialization of it in flight. *)
Lemma serve_all_absent rs : forall c,
  webLLMModels c !! name = None ->
  webLLMModelInitialization c !! name = None ->
  Settled name ∉ rs ->
  let R := serve_all c rs in
  built name R.1 =
    (built name c + if existsb (asks name) rs then 1 else 0)%nat /\
  started name R.1 =
    (started name c + if existsb (initializes name) rs then 1 else 0)%nat /\
  exists h p,
    answers_for name rs R.2 h p /\
    (existsb (asks name) rs = true -> webLLMModels R.1 !! name = Some h).
Proof.
  induction rs as [|r rs IH]; intros c Hm Hi Hs.
  - simpl. split_and!; auto. exists 0%nat, 0%nat.
    split; [apply answers_for_nil | discriminate].
  - apply not_elem_of_cons in Hs as [Hr Hs].
    pose proof (serve_absent c r Hm Hi) as Hstep.
    rewrite serve_all_cons. simpl.
    destruct (asks name r) eqn:Ea.
    + destruct Hstep as (Hm1 & Hb1 & Ha1 & Hinit).
      destruct (initializes name r) eqn:Ei.
      * destruct Hinit as (Hi1 & Hs1 & Ha2).
        destruct (serve_all_both_present rs _ _ _ Hm1 Hi1 Hs)
          as (Hm2 & Hi2 & Hb2 & Hs2 & Ha).
        split_and!; simpl; try congruence; try lia.
        exists (length (constructions c)), (length (initializations c)).
        split; [apply answers_for_cons; assumption | intros _; exact Hm2].
      * destruct Hinit as (Hi1 & Hs1).
        destruct (serve_all_model_present rs _ _ Hm1 Hi1 Hs)
          as (Hm2 & Hb2 & Hs2 & p & Ha).
        split_and!; simpl; try congruence; try lia.
        exists (length (constructions c)), p.
        split; [|intros _; exact Hm2]. apply answers_for_cons; auto.
        intros ->. simpl in Ei. rewrite bool_decide_eq_true_2 in Ei by reflexivity.
        discriminate.
    + destruct Hstep as (Hm1 & Hi1 & Hb1 & Hs1).
      assert (Ei : initializes name r = false).
      { destruct r; simpl in *; congruence. }
      assert (Ew : wants_model name r = false).
      { destruct r; simpl in *; congruence. }
      rewrite Ei. simpl.
      destruct (IH _ Hm1 Hi1 Hs) as (Hb2 & Hs2 & h & p & Ha & Hc).
      split_and!; simpl; try congruence; try lia.
      exists h, p. split; [|exact Hc]. apply answers_for_cons; auto.
      * rewrite Ew. discriminate.
      * intros ->. simpl in Ea. rewrite bool_decide_eq_true_2 in Ea by reflexivity.
        discriminate.
Qed.


End ModelInstanceCache.



(* ===================================================================== *)
(** * Properties of the execution queue                                   *)
(* ===================================================================== *)

Section InferenceSerializer.

Lemma fulfilled_chain (R : gset nat) (p : promise) :
  fulfilled R p = true <-> chain p ⊆ R.
Proof.
  induction p as [|p IH x]; simpl.
  - split; [set_solver | reflexivity].
  - rewrite andb_true_iff, bool_decide_eq_true, IH. set_solver.
Qed.

Lemma queue_inv_idle : queue_inv idle.
Proof.
  split; simpl; try (intros; exfalso; eapply not_elem_of_nil; eassumption).
  intros m t Hm. rewrite lookup_empty in Hm. discriminate.
Qed.

Lemma queue_inv_acquire e m :
  queue_inv e -> queue_inv (acquireModelExecutionSlot m e).1.
Proof.
  intros [Hcur Huniq Hprev Htail Hnone].
  set (n := length (acquired e)).
  set (prev := default Resolved (modelExecutionQueue e !! m)).
  set (s0 := {| model := m; previous := prev; current := n;
                queueTail := Chained prev n |}).
  (* what the previous tail of [m] says *)
  assert (Hp1 : forall x, x ∈ chain prev ->
            exists s, s ∈ acquired e /\ model s = m /\ current s = x).
  { unfold prev. destruct (modelExecutionQueue e !! m) as [t|] eqn:E; simpl.
    - apply (Htail m t E).
    - set_solver. }
  assert (Hp2 : forall s, s ∈ acquired e -> model s = m ->
            current s ∈ chain prev \/ current s ∈ released e).
  { unfold prev. destruct (modelExecutionQueue e !! m) as [t|] eqn:E; simpl.
    - apply (Htail m t E).
    - intros s Hs Hm. right. exact (Hnone m E s Hs Hm). }
  assert (Hold : forall s, s ∈ acquired e -> (current s < n)%nat).
  { intros s Hs. apply Hcur, Hs. }
  split; simpl; fold n prev s0.
  - intros s [->|Hs]%elem_of_cons.
    + split; [simpl; lia | reflexivity].
    + destruct (Hcur s Hs). split; [lia | assumption].
  - intros s1 s2 [->|H1]%elem_of_cons [->|H2]%elem_of_cons Heq; auto.
    + apply Hold in H2. simpl in Heq. lia.
    + apply Hold in H1. simpl in Heq. lia.
  - intros s [->|Hs]%elem_of_cons.
    + split.
      * intros x Hx. destruct (Hp1 x Hx) as (s' & Hs' & Hm' & <-).
        exists s'. split; [|reflexivity].
        split; [apply elem_of_cons; auto|]. split; [exact Hm'|].
        simpl. apply Hold, Hs'.
      * intros s' (Hs' & Hm' & Hlt). simpl in *.
        apply elem_of_cons in Hs' as [->|Hs']; [simpl in Hlt; lia|].
        apply Hp2; assumption.
    + destruct (Hprev s Hs) as [Ha Hb]. split.
      * intros x Hx. destruct (Ha x Hx) as (s' & (Hs' & Hm' & Hlt) & <-).
        exists s'. split; [|reflexivity].
        split; [apply elem_of_cons; auto|]. split; assumption.
      * intros s' (Hs' & Hm' & Hlt).
        apply elem_of_cons in Hs' as [->|Hs'].
        { apply Hold in Hs. simpl in Hlt. lia. }
        apply Hb. split; [|split]; assumption.
  - intros m' t. destruct (decide (m' = m)) as [->|Hne].
    + rewrite lookup_insert_eq. intros [= <-]. simpl. split.
      * intros x [Hx|Hx%elem_of_singleton]%elem_of_union.
        -- destruct (Hp1 x Hx) as (s & Hs & Hm & <-).
           exists s. split; [apply elem_of_cons; auto|]. auto.
        -- subst x. exists s0. split; [apply elem_of_cons; auto|]. auto.
      * intros s [->|Hs]%elem_of_cons Hm.
        -- left. simpl. set_solver.
        -- destruct (Hp2 s Hs Hm); [left; set_solver | right; assumption].
    + rewrite lookup_insert_ne by congruence. intros Ht.
      destruct (Htail m' t Ht) as [Ha Hb]. split.
      * intros x Hx. destruct (Ha x Hx) as (s & Hs & Hm & <-).
        exists s. split; [apply elem_of_cons; auto|]. auto.
      * intros s [->|Hs]%elem_of_cons Hm; [simpl in Hm; congruence|].
        apply Hb; assumption.
  - intros m' Hq s Hs Hm.
    destruct (decide (m' = m)) as [->|Hne].
    + rewrite lookup_insert_eq in Hq. discriminate.
    + rewrite lookup_insert_ne in Hq by congruence.
      apply elem_of_cons in Hs as [->|Hs]; [simpl in Hm; congruence|].
      exact (Hnone m' Hq s Hs Hm).
Qed.

Lemma queue_inv_release e s :
  queue_inv e -> s ∈ acquired e -> granted e s = true ->
  queue_inv (release s e).
Proof.
  intros Hinv Hs Hg. pose proof Hinv as [Hcur Huniq Hprev Htail Hnone].
  unfold release. destruct (decide (current s ∈ released e)); [exact Hinv|].
  apply fulfilled_chain in Hg.
  split; simpl.
  - exact Hcur.
  - exact Huniq.
  - intros s1 H1. destruct (Hprev s1 H1) as [Ha Hb]. split; [exact Ha|].
    intros s' Hs'. destruct (Hb s' Hs'); [left|right]; set_solver.
  - intros m t Hq.
    assert (Hq' : modelExecutionQueue e !! m = Some t).
    { destruct (decide (modelExecutionQueue e !! model s = Some (queueTail s)));
        [|exact Hq].
      apply lookup_delete_Some in Hq. tauto. }
    destruct (Htail m t Hq') as [Ha Hb]. split; [exact Ha|].
    intros s1 H1 Hm. destruct (Hb s1 H1 Hm); [left|right]; set_solver.
  - intros m Hq s1 H1 Hm.
    destruct (decide (modelExecutionQueue e !! model s = Some (queueTail s)))
      as [Ht|Hnt].
    + apply lookup_delete_None in Hq as [<-|Hq].
      * destruct (Htail _ _ Ht) as [_ Hb].
        destruct (Hb s1 H1 Hm) as [Hc|Hr]; [|set_solver].
        destruct (Hcur s Hs) as [_ Hqt]. rewrite Hqt in Hc. simpl in Hc.
        set_solver.
      * pose proof (Hnone m Hq s1 H1 Hm). set_solver.
    + pose proof (Hnone m Hq s1 H1 Hm). set_solver.
Qed.

Lemma reachable_inv e : reachable e -> queue_inv e.
Proof.
  induction 1 as [|e m _ IH|e s _ IH Hs Hg].
  - exact queue_inv_idle.
  - apply queue_inv_acquire, IH.
  - apply queue_inv_release; assumption.
Qed.

Lemma fulfilled_mono (R R' : gset nat) (q : promise) :
  R ⊆ R' -> fulfilled R q = true -> fulfilled R' q = true.
Proof. rewrite !fulfilled_chain. set_solver. Qed.

Lemma release_released s e : released e ⊆ released (release s e).
Proof. unfold release. destruct (decide _); simpl; set_solver. Qed.

Lemma release_acquired s e : acquired (release s e) = acquired e.
Proof. unfold release. destruct (decide _); reflexivity. Qed.

Lemma release_released_inv s e x :
  x ∈ released (release s e) -> x = current s \/ x ∈ released e.
Proof. unfold release. destruct (decide _); simpl; set_solver. Qed.

Lemma proxy_reachable_inv p : proxy_reachable p -> proxy_inv p.
Proof.
  induction 1 as [|p m _ [Hq Hrun]|p s _ [Hq Hrun] Hs Hg Hr
                  |p s _ [Hq Hrun] Hs Hx]; unfold proxy_inv; simpl.
  - split; [apply reach_idle | set_solver].
  - split; [apply reach_acquire, Hq|].
    intros x Hx. destruct (Hrun x Hx) as (s & Hs & Hc & Hg & Hr).
    exists s. split; [apply elem_of_cons; auto|]. auto.
  - split; [exact Hq|].
    intros x [->%elem_of_singleton|Hx]%elem_of_union; [eauto|apply Hrun, Hx].
  - destruct (Hrun _ Hx) as (s0 & Hs0 & Hc0 & Hg0 & Hr0).
    assert (s0 = s) as ->.
    { apply (inv_unique _ (reachable_inv _ Hq)); assumption. }
    split; [apply reach_release; assumption|].
    intros x [Hx1 Hx2]%elem_of_difference.
    destruct (Hrun x Hx1) as (s1 & Hs1 & Hc1 & Hg1 & Hr1).
    exists s1. rewrite release_acquired. split; [exact Hs1|]. split; [exact Hc1|].
    split.
    + unfold granted in *. eapply fulfilled_mono; [apply release_released|exact Hg1].
    + intros [->|Hin]%release_released_inv; [|contradiction].
      apply Hx2. set_solver.
Qed.

(** C8.  In every state of the proxies and their execution queue: a
    call of [acquireModelExecutionSlot] is granted its slot exactly when
    every earlier call on the same model has had its release callback
    called, so slots are granted in acquisition order; a call whose
    original [doGenerate] or [doStream] has been invoked and that has
    not released (an outstanding call) has every earlier call on its
    model released, so the work of a second caller never begins before
    the release of the first; on one model at most one call is
    outstanding; and a call on a model whose earlier calls have all
    released is granted at once, whatever is held or awaited on other
    models. *)
Theorem C8_serialized_fifo (p : proxy) :
  proxy_reachable p ->
  let e := queue p in
  (forall s, s ∈ acquired e ->
     (granted e s = true <->
      forall s', earlier e s s' -> current s' ∈ released e)) /\
  (forall s, s ∈ acquired e -> current s ∈ running p ->
     forall s', earlier e s s' -> current s' ∈ released e) /\
  (forall s1 s2, s1 ∈ acquired e -> s2 ∈ acquired e ->
     model s1 = model s2 ->
     current s1 ∈ running p -> current s2 ∈ running p -> s1 = s2) /\
  (forall m,
     (forall s, s ∈ acquired e -> model s = m -> current s ∈ released e) ->
     granted (acquireModelExecutionSlot m e).1
             (acquireModelExecutionSlot m e).2 = true).
Proof.
  intros Hp e. destruct (proxy_reachable_inv p Hp) as [Hreach Hrun]. fold e in Hreach, Hrun.
  pose proof (reachable_inv e Hreach) as [Hcur Huniq Hprev Htail Hnone].
  assert (Hfifo : forall s, s ∈ acquired e ->
            (granted e s = true <->
             forall s', earlier e s s' -> current s' ∈ released e)).
  { intros s Hs. unfold granted. rewrite fulfilled_chain.
    destruct (Hprev s Hs) as [Ha Hb]. split.
    - intros Hsub s' Hs'. destruct (Hb s' Hs'); [set_solver | assumption].
    - intros Hall x Hx. destruct (Ha x Hx) as (s' & Hs' & <-). apply Hall, Hs'. }
  assert (Hout : forall s, s ∈ acquired e -> current s ∈ running p ->
            granted e s = true /\ current s ∉ released e).
  { intros s Hs Hx. destruct (Hrun _ Hx) as (s0 & Hs0 & Hc0 & Hg0 & Hr0).
    assert (s0 = s) as -> by (apply Huniq; assumption). auto. }
  split; [exact Hfifo|]. split; [|split].
  - intros s Hs Hx. apply (Hfifo s Hs), (Hout s Hs Hx).
  - intros s1 s2 H1 H2 Hm Hx1 Hx2.
    destruct (Hout s1 H1 Hx1) as [Hg1 Hr1]. destruct (Hout s2 H2 Hx2) as [Hg2 Hr2].
    destruct (Nat.lt_trichotomy (current s1) (current s2)) as [Hlt|[Heq|Hgt]].
    + exfalso. apply Hr1. apply (proj1 (Hfifo s2 H2) Hg2 s1).
      split; [|split]; assumption.
    + apply Huniq; assumption.
    + exfalso. apply Hr2. apply (proj1 (Hfifo s1 H1) Hg1 s2).
      split; [|split]; auto.
  - intros m Hall. unfold granted. simpl. apply fulfilled_chain.
    destruct (modelExecutionQueue e !! m) as [t|] eqn:E; simpl; [|set_solver].
    intros x Hx. destruct (Htail m t E) as [Ha _].
    destruct (Ha x Hx) as (s & Hs & Hm & <-). apply Hall; assumption.
Qed.

End InferenceSerializer.

Lemma C8_serialized_fifo_witness :
  granted (queue first_running) second_call = false /\
  current second_call ∈ running second_running /\
  current first_call ∈ released (queue second_running).
Proof.
  assert (Hreach : proxy_reachable second_running).
  { apply proxy_invoke; [apply proxy_release; [apply proxy_invoke|..]|..].
    - do 3 apply proxy_call. apply proxy_idle.
    - vm_compute. set_solver.
    - reflexivity.
    - vm_compute. set_solver.
    - vm_compute. set_solver.
    - vm_compute. set_solver.
    - vm_compute. set_solver.
    - reflexivity.
    - vm_compute. set_solver. }
  split; [reflexivity|]. split; [vm_compute; set_solver|].
  assert (Hin : second_call ∈ acquired (queue second_running)).
  { vm_compute. set_solver. }
  apply (proj1 (proj2 (C8_serialized_fifo _ Hreach)) second_call Hin).
  - vm_compute. set_solver.
  - split; [|split].
    + vm_compute. set_solver.
    + reflexivity.
    + vm_compute. lia.
Defined.

(* ===================================================================== *)
(** * doGenerate                                                          *)
(* ===================================================================== *)

Section Generation.
Import Generate Views.

Lemma parse_normal (text : jsstring) :
  exists r, parseToolCallResponse text = Normal r.
Proof.
  unfold parseToolCallResponse.
  destruct (parse_body (candidate text)); simpl; eauto.
Qed.








Lemma deltas_parts (calls : list json) : deltas (calls ≫= tool_parts) = [].
Proof.
  induction calls as [|c calls IH]; [reflexivity|].
  change ((c :: calls) ≫= tool_parts) with (tool_parts c ++ (calls ≫= tool_parts)).
  simpl. exact IH.
Qed.






End Generation.

(* ===================================================================== *)
(** * doStream on any stream                                              *)
(* ===================================================================== *)

Section StreamAtLarge.
Import Views.

(** [transform] never throws, and forwards a part that is not text. *)
Lemma transform_normal (b : buffer) (chunk : part) :
  exists b' out, transform b chunk = Normal (b', out) /\
                 (is_text_part chunk = false -> out = [chunk]) /\
                 (is_text_part chunk = true -> is_text_end chunk = false ->
                  out = []).
Proof.
  destruct chunk;
    try (eexists _, _; split_and!; [reflexivity|auto; discriminate..]; fail).
  cbn [transform].
  destruct (parse_normal (bufferedText b)) as [[calls|] ->]; cbn [mbind completion_bind].
  - eexists _, _. split_and!; [reflexivity|discriminate..].
  - destruct (textId b) as [[|c cs]|];
      eexists _, _; (split_and!; [reflexivity|discriminate..]).
Qed.

Lemma pipeThrough_total (stream : list part) : forall b,
  exists out, pipeThrough b stream = Normal out /\ sublist (others stream) out.
Proof.
  induction stream as [|chunk rest IH]; intros b.
  - exists []. split; [reflexivity|constructor].
  - destruct (transform_normal b chunk) as (b' & o & Ht & Hother & _).
    destruct (IH b') as (out & Hout & Hsub).
    exists (o ++ out). split.
    + rewrite (pipe_cons _ _ _ _ _ Ht), Hout. reflexivity.
    + simpl. destruct (is_text_part chunk).
      * apply sublist_inserts_l, Hsub.
      * rewrite (Hother eq_refl). simpl. apply sublist_skip, Hsub.
Qed.

(** X4.  [doStream] transforms every stream without throwing, whatever
    the texts it buffers hold, and every part that is not text-start,
    text-delta or text-end is in the output, in the order of the source
    stream. *)
Theorem X4_doStream_total (stream : list part) :
  exists out, doStream stream = Normal out /\ sublist (others stream) out.
Proof. apply pipeThrough_total. Qed.

Lemma pipeThrough_no_end (stream : list part) : forall b,
  forallb (fun p => negb (is_text_end p)) stream = true ->
  pipeThrough b stream = Normal (others stream).
Proof.
  induction stream as [|chunk rest IH]; intros b; [reflexivity|].
  simpl forallb. intros [Hc Hr]%andb_prop. apply negb_true_iff in Hc.
  destruct (transform_normal b chunk) as (b' & o & Ht & Hother & Htext).
  rewrite (pipe_cons _ _ _ _ _ Ht), (IH b' Hr). simpl.
  destruct (is_text_part chunk).
  - rewrite (Htext eq_refl Hc). reflexivity.
  - rewrite (Hother eq_refl). reflexivity.
Qed.

(** X5.  The transformer has no flush: text is released at a text-end
    only.  A stream in which no text-end arrives comes out with its
    other parts and none of its text, however many deltas it held. *)
Theorem X5_doStream_unterminated_text_dropped (stream : list part) :
  forallb (fun p => negb (is_text_end p)) stream = true ->
  doStream stream = Normal (others stream).
Proof. apply pipeThrough_no_end. Qed.

Lemma X5_doStream_unterminated_text_dropped_witness :
  doStream [ OtherPart (str "stream-start") JNull;
             TextStart (str "text-0");
             TextDelta (str "text-0") (str "Hello");
             OtherPart (str "finish") JNull ] =
    Normal [ OtherPart (str "stream-start") JNull;
             OtherPart (str "finish") JNull ].
Proof.
  exact (X5_doStream_unterminated_text_dropped
           [ OtherPart (str "stream-start") JNull;
             TextStart (str "text-0");
             TextDelta (str "text-0") (str "Hello");
             OtherPart (str "finish") JNull ] eq_refl).
Defined.

Lemma pipeThrough_restart (l1 : list part) (id : jsstring) (l2 : list part) :
  forall b,
  pipeThrough b (l1 ++ TextStart id :: l2) =
    pipeThrough b l1 ≫= fun o1 =>
    pipeThrough initial_buffer (TextStart id :: l2) ≫= fun o2 =>
    Normal (o1 ++ o2).
Proof.
  induction l1 as [|chunk l1 IH]; intros b.
  - simpl. destruct (pipeThrough _ l2); reflexivity.
  - destruct (transform_normal b chunk) as (b' & o & Ht & _).
    rewrite <- app_comm_cons, !(pipe_cons _ _ _ _ _ Ht), (IH b').
    destruct (pipeThrough b' l1) as [o1|e]; simpl; [|reflexivity].
    destruct (pipeThrough _ l2) as [o2|e]; simpl; [|reflexivity].
    rewrite app_assoc. reflexivity.
Qed.

(** X6.  A text-start resets the buffer and the text id, so nothing
    received before it can change what comes after: the output of a
    stream cut before a text-start is the output of the first piece
    followed by the output of the second piece transformed on its
    own. *)
Theorem X6_doStream_restarts_at_text_start (l1 : list part) (id : jsstring)
    (l2 : list part) :
  doStream (l1 ++ TextStart id :: l2) =
    doStream l1 ≫= fun o1 =>
    doStream (TextStart id :: l2) ≫= fun o2 =>
    Normal (o1 ++ o2).
Proof. apply pipeThrough_restart. Qed.

End StreamAtLarge.

(* ===================================================================== *)
(** * preprocessPrompt                                                    *)
(* ===================================================================== *)

Section PromptHistory.
Import Generate Views.
Context {C : Type} (stringify : C -> jsstring).

Lemma filter_text_text (l : list prompt_part) :
  filter (fun p => is_text p = true) (filter (fun p => is_text p = true) l) =
  filter (fun p => is_text p = true) l.
Proof.
  induction l as [|p l IH]; [reflexivity|].
  rewrite filter_cons. case_decide as Hp; [|exact IH].
  rewrite filter_cons. rewrite decide_True by exact Hp. rewrite IH. reflexivity.
Qed.

Lemma filter_text_no_call (l : list prompt_part) :
  forallb (fun p => negb (is_tool_call p)) (filter (fun p => is_text p = true) l)
  = true.
Proof.
  induction l as [|p l IH]; [reflexivity|].
  rewrite filter_cons. case_decide as Hp; [|exact IH].
  simpl. rewrite IH. destruct p; try discriminate. reflexivity.
Qed.

Lemma existsb_forallb_negb {A} (f : A -> bool) (l : list A) :
  existsb f l = false -> forallb (fun x => negb (f x)) l = true.
Proof.
  induction l as [|x l IH]; [reflexivity|]. simpl.
  intros [-> Hl]%orb_false_iff. simpl. auto.
Qed.

Lemma preprocessMessage_plain (m : prompt_message C) :
  plain_message (preprocessMessage stringify m) = true.
Proof.
  destruct m as [c o|c o|c o|n c o]; try reflexivity. simpl.
  case_bool_decide as Hlen; simpl.
  - destruct (existsb is_tool_call c) eqn:Hcall; [reflexivity|].
    case_bool_decide; [lia|]. simpl. apply existsb_forallb_negb, Hcall.
  - case_bool_decide; [|lia]. simpl. apply filter_text_no_call.
Qed.

Lemma preprocessMessage_idempotent (m : prompt_message C) :
  preprocessMessage stringify (preprocessMessage stringify m) =
  preprocessMessage stringify m.
Proof.
  destruct m as [c o|c o|c o|n c o]; try reflexivity. simpl.
  case_bool_decide as Hlen; simpl.
  - destruct (existsb is_tool_call c) eqn:Hcall; [reflexivity|].
    case_bool_decide; [lia|]. simpl.
    rewrite bool_decide_true by exact Hlen. rewrite Hcall. simpl.
    rewrite bool_decide_false by lia. reflexivity.
  - case_bool_decide; [|lia]. simpl. rewrite filter_text_text.
    rewrite bool_decide_false by exact Hlen. simpl.
    rewrite bool_decide_true by lia. reflexivity.
Qed.

(** X7.  What [preprocessPrompt] returns holds no tool message and no
    tool call in an assistant message, which are the messages the
    parent class rejects; it has one message for each message of the
    prompt, in the same order, and the system and user messages are the
    ones of the prompt, unchanged. *)
Theorem X7_preprocessPrompt_plain (prompt : list (prompt_message C)) :
  length (preprocessPrompt stringify prompt) = length prompt /\
  forallb plain_message (preprocessPrompt stringify prompt) = true /\
  (forall i content options,
     prompt !! i = Some (SystemMessage content options) ->
     preprocessPrompt stringify prompt !! i = Some (SystemMessage content options)) /\
  (forall i content options,
     prompt !! i = Some (UserMessage content options) ->
     preprocessPrompt stringify prompt !! i = Some (UserMessage content options)).
Proof.
  unfold preprocessPrompt. split_and!.
  - apply length_fmap.
  - induction prompt as [|m prompt IH]; [reflexivity|]. simpl.
    rewrite preprocessMessage_plain. exact IH.
  - intros i c o H. rewrite list_lookup_fmap, H. reflexivity.
  - intros i c o H. rewrite list_lookup_fmap, H. reflexivity.
Qed.

(** X8.  [preprocessPrompt] is idempotent: a prompt that has been
    preprocessed is left as it is by a second pass, so the history can
    be preprocessed at every turn. *)
Theorem X8_preprocessPrompt_idempotent (prompt : list (prompt_message C)) :
  preprocessPrompt stringify (preprocessPrompt stringify prompt) =
  preprocessPrompt stringify prompt.
Proof.
  unfold preprocessPrompt. rewrite <- list_fmap_compose.
  apply list_fmap_ext. intros i m _. apply preprocessMessage_idempotent.
Qed.

(** X9.  An assistant message that holds text keeps its text parts and
    nothing else: its tool calls and its parts of any other type are
    dropped, and no placeholder is written for the tool calls.  The
    placeholder that names the tools called is written only for an
    assistant message without any text part. *)
Theorem X9_preprocessPrompt_assistant_text (prompt : list (prompt_message C))
    (i : nat) (content : list prompt_part) (options : jsval) :
  prompt !! i = Some (AssistantMessage content options) ->
  existsb is_text content = true ->
  preprocessPrompt stringify prompt !! i =
    Some (AssistantMessage (filter (fun p => is_text p = true) content) options) /\
  forallb is_text (filter (fun p => is_text p = true) content) = true.
Proof.
  intros Hi Ht.
  assert (Hlen : (0 < length (filter (fun p => is_text p = true) content))%nat).
  { clear Hi. induction content as [|p l IH]; [discriminate|].
    rewrite filter_cons. simpl in Ht. case_decide as Hp; simpl; [lia|].
    apply IH. destruct (is_text p); [congruence|exact Ht]. }
  split.
  - unfold preprocessPrompt. rewrite list_lookup_fmap, Hi. simpl.
    rewrite bool_decide_false by lia. simpl.
    rewrite bool_decide_true by lia. reflexivity.
  - clear. induction content as [|p l IH]; [reflexivity|].
    rewrite filter_cons. case_decide as Hp; [|exact IH].
    simpl. rewrite Hp. exact IH.
Qed.

End PromptHistory.

Lemma X9_preprocessPrompt_assistant_text_witness :
  Generate.preprocessPrompt (fun _ : unit => [])
    [Generate.AssistantMessage
       [ Generate.TextPart (str "Let me check.") None;
         Generate.ToolCallPart (str "call_1") (str "get_weather") JNull ] None]
    !! 0%nat =
    Some (Generate.AssistantMessage [Generate.TextPart (str "Let me check.") None]
                                    None).
Proof.
  exact (proj1 (X9_preprocessPrompt_assistant_text (fun _ : unit => [])
                  [Generate.AssistantMessage
                     [ Generate.TextPart (str "Let me check.") None;
                       Generate.ToolCallPart (str "call_1") (str "get_weather") JNull ]
                     None]
                  0%nat _ None eq_refl eq_refl)).
Defined.

(* ===================================================================== *)
(** * The tool-call parser on texts at large                              *)
(* ===================================================================== *)

Section ParserAtLarge.

Implicit Types (s a b c r w p : jsstring).
Local Arguments N.eqb : simpl never.

Lemma drop_ws_lead w s :
  forallb is_js_whitespace w = true -> drop_ws (w ++ s) = drop_ws s.
Proof.
  induction w as [|x w IH]; [reflexivity|]. simpl.
  intros [-> Hw]%andb_prop. auto.
Qed.

Lemma rtrim_trail s w :
  forallb is_js_whitespace w = true -> rtrim (s ++ w) = rtrim s.
Proof.
  intros Hw. unfold rtrim. rewrite rev_app_distr, drop_ws_lead; [reflexivity|].
  rewrite forallb_rev. exact Hw.
Qed.

Lemma trim_trail s w :
  forallb is_js_whitespace w = true -> trim (s ++ w) = trim s.
Proof.
  intros Hw. unfold trim. induction s as [|x s IH]; simpl.
  - rewrite (drop_ws_all _ Hw). reflexivity.
  - destruct (is_js_whitespace x); [exact IH|].
    exact (rtrim_trail (x :: s) w Hw).
Qed.

Lemma trim_around w1 s w2 :
  forallb is_js_whitespace w1 = true -> forallb is_js_whitespace w2 = true ->
  trim (w1 ++ s ++ w2) = trim s.
Proof.
  intros H1 H2. unfold trim at 1. rewrite (drop_ws_lead _ _ H1).
  exact (trim_trail s w2 H2).
Qed.

(** [trim] is idempotent. *)
Lemma trim_trim s : trim (trim s) = trim s.
Proof.
  destruct (trim_parts s) as (w1 & w2 & H1 & H2 & E).
  rewrite E at 2. rewrite trim_around; [reflexivity|..]; assumption.
Qed.

(** The candidate depends on the trimmed text only. *)
Lemma candidate_trim s t : trim s = trim t -> candidate s = candidate t.
Proof.
  intros H.
  rewrite (candidate_steps s (trim s) _ eq_refl eq_refl).
  rewrite (candidate_steps t (trim t) _ eq_refl eq_refl).
  rewrite H. reflexivity.
Qed.

(** X10.  Whitespace around a response changes nothing: with any
    whitespace before and after it, a text is read as the same calls, or
    as no call, as the text alone. *)
Theorem X10_parse_ignores_outer_whitespace (w1 text w2 : jsstring) :
  forallb is_js_whitespace w1 = true ->
  forallb is_js_whitespace w2 = true ->
  parseToolCallResponse (w1 ++ text ++ w2) = parseToolCallResponse text.
Proof.
  intros H1 H2. unfold parseToolCallResponse.
  rewrite (candidate_trim (w1 ++ text ++ w2) text (trim_around _ _ _ H1 H2)).
  reflexivity.
Qed.

Lemma X10_parse_ignores_outer_whitespace_witness :
  parseToolCallResponse ([LF; 32] ++ prose_response ++ [32; LF; LF]) =
  parseToolCallResponse prose_response.
Proof.
  exact (X10_parse_ignores_outer_whitespace [LF; 32] prose_response [32; LF; LF]
           eq_refl eq_refl).
Defined.

(** ** The first fenced block *)


Lemma strip_prefix_free (f : N -> bool) p s r :
  strip_prefix p s = Some r -> forallb f s = true -> forallb f r = true.
Proof.
  revert s. induction p as [|u p IH]; intros s; simpl.
  - intros [= ->]. auto.
  - destruct s as [|x s]; [discriminate|].
    destruct (u =? x); [|discriminate]. simpl.
    intros H [_ Hs]%andb_prop. eauto.
Qed.







(** ** Texts without a brace *)

Section Within.
Variable f : N -> bool.

Lemma trim_within s : forallb f s = true -> forallb f (trim s) = true.
Proof. intros H. apply forallb_rtrim, forallb_drop_ws, H. Qed.

Lemma strip_prefix_within p s r :
  strip_prefix p s = Some r -> forallb f s = true -> forallb f r = true.
Proof. apply strip_prefix_free. Qed.

Lemma after_first_within p s r :
  after_first p s = Some r -> forallb f s = true -> forallb f r = true.
Proof.
  induction s as [|x s IH]; simpl.
  - destruct (strip_prefix p []) eqn:E; [|discriminate].
    intros [= <-] _. exact (strip_prefix_within _ _ _ E eq_refl).
  - destruct (strip_prefix p (x :: s)) eqn:E.
    + intros [= <-] H. exact (strip_prefix_within _ _ _ E H).
    + intros H [_ Hs]%andb_prop. auto.
Qed.

Lemma lazy_within s : forall g,
  lazy_until_fence s = Some g -> forallb f s = true -> forallb f g = true.
Proof.
  induction s as [|x s IH]; intros g.
  - discriminate.
  - change (lazy_until_fence (x :: s))
      with (if starts_with (LF :: FENCE) (x :: s) || starts_with FENCE (x :: s)
            then Some [] else cons x <$> lazy_until_fence s).
    destruct (_ || _); [intros [= <-]; reflexivity|].
    destruct (lazy_until_fence s) as [g'|]; [|discriminate].
    intros [= <-]. simpl. intros [-> Hs]%andb_prop. simpl. eauto.
Qed.

Lemma code_block_within s g :
  code_block_match s = Some g -> forallb f s = true -> forallb f g = true.
Proof.
  unfold code_block_match. destruct (after_first FENCE s) as [r|] eqn:E;
    [|discriminate].
  cbn [mbind option_bind]. intros Hl Hs.
  pose proof (after_first_within _ _ _ E Hs) as Hr.
  apply (lazy_within _ _ Hl), forallb_drop_ws.
  destruct (strip_prefix (str "json") r) as [r'|] eqn:E'; simpl;
    [exact (strip_prefix_within _ _ _ E' Hr) | exact Hr].
Qed.

Lemma from_first_within ch s r :
  from_first ch s = Some r -> forallb f s = true -> forallb f r = true.
Proof.
  induction s as [|x s IH]; simpl; [discriminate|].
  destruct (x =? ch).
  - intros [= <-]. auto.
  - intros H [_ Hs]%andb_prop. auto.
Qed.

Lemma json_match_within s m :
  json_match s = Some m -> forallb f s = true -> forallb f m = true.
Proof.
  unfold json_match. destruct (from_first LBRACE s) as [r|] eqn:E; [|discriminate].
  cbn [mbind option_bind]. unfold upto_last.
  destruct (from_first RBRACE (rev r)) as [r'|] eqn:E'; [|discriminate].
  simpl. intros [= <-] Hs. rewrite forallb_rev.
  apply (from_first_within _ _ _ E'). rewrite forallb_rev.
  exact (from_first_within _ _ _ E Hs).
Qed.

(** The candidate is made of code units of the text. *)
Lemma candidate_within text :
  forallb f text = true -> forallb f (candidate text) = true.
Proof.
  intros H. apply trim_within in H.
  rewrite (candidate_steps text _ _ eq_refl eq_refl).
  set (c := match code_block_match (trim text) with
            | Some g => trim g
            | None => trim text
            end).
  assert (Hc : forallb f c = true).
  { unfold c. destruct (code_block_match (trim text)) as [g|] eqn:E; [|exact H].
    apply trim_within, (code_block_within _ _ E H). }
  destruct (starts_with [LBRACE] c); [exact Hc|].
  destruct (json_match c) as [m|] eqn:E; simpl; [|exact Hc].
  exact (json_match_within _ _ E Hc).
Qed.

End Within.

(** X12.  A response that holds no opening brace is never read as a
    tool call: [parseToolCallResponse] returns null on it, whatever
    else it holds, fences included. *)
Theorem X12_parse_without_brace (text : jsstring) :
  free_of (fun u : N => u =? LBRACE) text = true ->
  parseToolCallResponse text = Normal None.
Proof.
  intros Hfree.
  destruct (parse_normal text) as [[items|] Hparse]; [|exact Hparse].
  exfalso. revert Hparse. unfold parseToolCallResponse, parse_body.
  destruct (JSON_parse (candidate text)) as [parsed|e] eqn:Hp; simpl; [|discriminate].
  destruct parsed as [ | | | | |ms]; try discriminate.
  apply JSON_parse_object_brace in Hp.
  pose proof (trim_within _ _ (candidate_within _ text Hfree)) as Hc.
  destruct (trim (candidate text)) as [|x r]; [discriminate|].
  unfold starts_with in Hp. simpl in Hp, Hc.
  destruct (N.eqb_spec LBRACE x) as [<-|]; [discriminate|discriminate].
Qed.

Lemma X12_parse_without_brace_witness :
  parseToolCallResponse
    (str "I cannot call a tool here: " ++ FENCE ++ str "json" ++ [LF] ++
     str "[1, 2]" ++ [LF] ++ FENCE) = Normal None.
Proof.
  exact (X12_parse_without_brace
           (str "I cannot call a tool here: " ++ FENCE ++ str "json" ++ [LF] ++
            str "[1, 2]" ++ [LF] ++ FENCE) eq_refl).
Defined.

End ParserAtLarge.

(* ===================================================================== *)
(** * The wrapped prompt methods                                          *)
(* ===================================================================== *)

Section WrappedPrompt.
Import Session.
Context {S : Type} (stringify : S -> jsstring).

Implicit Types (h : heap S) (m : message S) (es : list loc).

(** A sequence of messages has no message of role user, or a first
    one. *)
Lemma first_user_split (msgs : list (message S)) :
  Forall (fun x => role x <> str "user") msgs \/
  exists before m after,
    msgs = before ++ m :: after /\
    Forall (fun x => role x <> str "user") before /\ role m = str "user".
Proof.
  induction msgs as [|x msgs IH]; [left; constructor|].
  destruct (decide (role x = str "user")) as [Hx|Hx].
  - right. exists [], x, msgs. split_and!; [reflexivity|constructor|exact Hx].
  - destruct IH as [IH|(before & m & after & -> & Hb & Hm)].
    + left. constructor; assumption.
    + right. exists (x :: before), m, after.
      split_and!; [reflexivity|constructor; assumption|exact Hm].
Qed.

(** The copy of the input array denotes the messages of the input. *)
Lemma normalize_array h a es msgs :
  h !! a = Some (ArrayObject es) ->
  Forall2 (fun p x => message_at h p = Some x) es msgs ->
  let n := normalize_input h (InputArray a) in
  n.1 !! n.2 = Some (ArrayObject es) /\
  Forall2 (fun p x => message_at n.1 p = Some x) es msgs /\
  (forall l, l ∈ dom h -> n.1 !! l = h !! l) /\
  dom h ⊆ dom n.1.
Proof.
  intros Ha Hes. unfold normalize_input. rewrite Ha. simpl.
  pose proof (is_fresh (dom h)) as Hf.
  split_and!.
  - apply lookup_insert_eq.
  - eapply Forall2_impl; [exact Hes|]. intros p x Hp. simpl in Hp.
    rewrite message_at_insert; [exact Hp|].
    intros E. apply Hf. rewrite E. exact (message_at_dom _ _ _ Hp).
  - intros l Hl. apply lookup_insert_ne. intros <-. contradiction.
  - rewrite dom_insert. set_solver.
Qed.

(** X13.  A prompt given as a plain string reaches the model as one
    message of role user whose content is the tool instruction, a blank
    line, and the string; no object allocated before the call is
    changed. *)
Theorem X13_prompt_argument_string (h : heap S) (s systemPrompt : jsstring) :
  let r := prompt_argument stringify h (InputString s) systemPrompt in
  messages_of r.1 r.2 =
    Some [ {| role := str "user";
              content_of := Text (systemPrompt ++ [LF; LF] ++ s);
              other_props := [] |} ] /\
  (forall l, l ∈ dom h -> r.1 !! l = h !! l).
Proof.
  unfold prompt_argument, normalize_input.
  set (o := fresh (dom h)).
  set (user := {| role := str "user"; content_of := Text s; other_props := [] |}).
  set (h1 := <[o := MessageObject user]> h).
  set (a := fresh (dom h1)).
  set (h2 := <[a := ArrayObject [o]]> h1).
  assert (Ho : o ∉ dom h) by apply is_fresh.
  assert (Ha : a ∉ dom h1) by apply is_fresh.
  assert (Hoa : o <> a).
  { intros E. apply Ha. rewrite <- E. unfold h1. rewrite dom_insert. set_solver. }
  split.
  - apply (prepend_first_user stringify h2 a [o] [] user [] systemPrompt).
    + apply lookup_insert_eq.
    + constructor; [|constructor].
      unfold message_at, h2, h1.
      rewrite lookup_insert_ne by (intros E; apply Hoa; congruence).
      rewrite lookup_insert_eq. reflexivity.
    + constructor.
    + reflexivity.
  - intros l Hl.
    pose proof (prepend_frame stringify h2 a systemPrompt) as [Hframe _].
    simpl in Hframe. rewrite Hframe.
    + unfold h2, h1. rewrite !lookup_insert_ne; [reflexivity|..].
      * intros <-. contradiction.
      * intros <-. apply Ha. unfold h1. rewrite dom_insert. set_solver.
    + unfold h2, h1. rewrite !dom_insert. set_solver.
Qed.

(** X14.  A prompt given as an array of messages reaches the model as
    [prependSystemPromptToMessages] would return it for that array: the
    copy that the wrapped method makes first changes nothing.  The
    array of the caller still denotes the same messages. *)
Theorem X14_prompt_argument_array (h : heap S) (a : loc) (msgs : list (message S))
    (systemPrompt : jsstring) :
  messages_of h a = Some msgs ->
  let r := prompt_argument stringify h (InputArray a) systemPrompt in
  let direct := prependSystemPromptToMessages stringify h a systemPrompt in
  messages_of r.1 r.2 = messages_of direct.1 direct.2 /\
  (exists sent, messages_of r.1 r.2 = Some sent) /\
  (forall l, l ∈ dom h -> r.1 !! l = h !! l) /\
  messages_of r.1 a = Some msgs.
Proof.
  intros Hmsgs.
  assert (Harr : exists es, h !! a = Some (ArrayObject es) /\
                 Forall2 (fun p x => message_at h p = Some x) es msgs).
  { unfold messages_of in Hmsgs.
    destruct (h !! a) as [[?|es]|]; try discriminate.
    exists es. split; [reflexivity|]. apply mapM_Some, Hmsgs. }
  destruct Harr as (es & Harr & Hes).
  pose proof (normalize_array h a es msgs Harr Hes) as (Hn & Hnes & Hnframe & Hndom).
  unfold prompt_argument.
  destruct (normalize_input h (InputArray a)) as [h1 a1] eqn:En.
  cbn [fst snd] in Hn, Hnes, Hnframe, Hndom.
  set (r := prependSystemPromptToMessages stringify h1 a1 systemPrompt).
  set (direct := prependSystemPromptToMessages stringify h a systemPrompt).
  pose proof (prepend_frame stringify h1 a1 systemPrompt) as [Hframe _].
  fold r in Hframe.
  assert (Hkeep : forall l, l ∈ dom h -> r.1 !! l = h !! l).
  { intros l Hl. rewrite Hframe by (apply Hndom, Hl). apply Hnframe, Hl. }
  assert (Hsent : messages_of r.1 r.2 = messages_of direct.1 direct.2 /\
                  exists sent, messages_of r.1 r.2 = Some sent).
  { destruct (first_user_split msgs) as [Hnone|(before & m & after & -> & Hb & Hm)].
    - unfold r, direct.
      rewrite (prepend_no_user stringify h1 a1 es msgs systemPrompt Hn Hnes Hnone).
      rewrite (prepend_no_user stringify h a es msgs systemPrompt Harr Hes Hnone).
      eauto.
    - unfold r, direct.
      rewrite (prepend_first_user stringify h1 a1 es before m after systemPrompt
                 Hn Hnes Hb Hm).
      rewrite (prepend_first_user stringify h a es before m after systemPrompt
                 Harr Hes Hb Hm).
      eauto. }
  destruct Hsent as [Hsame Hex].
  split_and!; [exact Hsame | exact Hex | exact Hkeep |].
  unfold messages_of. rewrite Hkeep by (apply elem_of_dom; eauto).
  rewrite Harr. apply mapM_Some.
  eapply Forall2_impl; [exact Hes|]. intros p x Hp. simpl in Hp.
  unfold message_at. rewrite Hkeep by exact (message_at_dom _ _ _ Hp).
  exact Hp.
Qed.

End WrappedPrompt.

Lemma X14_prompt_argument_array_witness :
  let r := Session.prompt_argument (fun _ : unit => []) chat_heap
             (Session.InputArray 3%positive) (str "X") in
  let direct := prependSystemPromptToMessages (fun _ : unit => []) chat_heap
                  3%positive (str "X") in
  messages_of r.1 r.2 = messages_of direct.1 direct.2 /\
  (exists sent, messages_of r.1 r.2 = Some sent) /\
  (forall l, l ∈ dom chat_heap -> r.1 !! l = chat_heap !! l) /\
  messages_of r.1 3%positive = Some [assistant_message; user_message].
Proof.
  exact (X14_prompt_argument_array (fun _ : unit => []) chat_heap 3%positive
           [assistant_message; user_message] (str "X") eq_refl).
Defined.

(* ===================================================================== *)
(** * Configured models                                                   *)
(* ===================================================================== *)

Section ConfiguredModels.
Import Settings Views.

Lemma normalizeModelName_trim (s name : jsstring) :
  normalizeModelName (Some (JString s)) = Some name <-> trim s = name /\ name <> [].
Proof.
  unfold normalizeModelName. destruct (trim s) as [|x r]; split.
  - discriminate.
  - intros [<- H]. congruence.
  - intros [= <-]. split; [reflexivity|discriminate].
  - intros [<- _]. reflexivity.
Qed.

Lemma normalizeModelName_fixed (v : jsval) (name : jsstring) :
  normalizeModelName v = Some name ->
  trimmed_name name /\ normalizeModelName (Some (JString name)) = Some name.
Proof.
  destruct v as [[ | | |s| | ]|]; try discriminate.
  intros [Ht Hne]%normalizeModelName_trim.
  assert (Hfix : trim name = name) by (rewrite <- Ht; apply trim_trim).
  split; [split; assumption|].
  apply normalizeModelName_trim. split; assumption.
Qed.

(** X15.  A normalized model name is never empty and has no whitespace
    at either end; normalizing it again gives it back; and a name
    written with any whitespace around it normalizes as the name
    alone. *)
Theorem X15_normalizeModelName_normal (modelName : jsval) (name : jsstring) :
  normalizeModelName modelName = Some name ->
  name <> [] /\
  trim name = name /\
  normalizeModelName (Some (JString name)) = Some name /\
  (forall w1 w2,
     forallb is_js_whitespace w1 = true -> forallb is_js_whitespace w2 = true ->
     normalizeModelName (Some (JString (w1 ++ name ++ w2))) = Some name).
Proof.
  intros H. destruct (normalizeModelName_fixed _ _ H) as [[Hne Ht] Hfix].
  split_and!; try assumption.
  intros w1 w2 H1 H2. apply normalizeModelName_trim.
  split; [|exact Hne]. rewrite trim_around by assumption. exact Ht.
Qed.

Lemma X15_normalizeModelName_normal_witness :
  normalizeModelName (Some (JString (str "Llama-3.2-1B"))) =
    Some (str "Llama-3.2-1B") /\
  normalizeModelName (Some (JString ([32] ++ str "Llama-3.2-1B" ++ [32; LF]))) =
    Some (str "Llama-3.2-1B").
Proof.
  pose proof (X15_normalizeModelName_normal
                (Some (JString (str "  Llama-3.2-1B ")))
                (str "Llama-3.2-1B") eq_refl) as (_ & _ & Hfix & Hws).
  exact (conj Hfix (Hws [32] [32; LF] eq_refl eq_refl)).
Defined.

(** ** The set of names *)

Section Collect.
Context {A : Type} (name_of : A -> option jsstring).

Lemma set_add_elem (x y : jsstring) (set : list jsstring) :
  y ∈ set_add x set <-> y = x \/ y ∈ set.
Proof.
  unfold set_add. case_bool_decide as Hx.
  - split; [auto|]. intros [->|]; assumption.
  - rewrite elem_of_app, list_elem_of_singleton. tauto.
Qed.

Lemma set_add_NoDup (x : jsstring) (set : list jsstring) :
  NoDup set -> NoDup (set_add x set).
Proof.
  unfold set_add. case_bool_decide as Hx; [auto|]. intros Hs.
  apply NoDup_app. split_and!; [exact Hs| |apply NoDup_singleton].
  intros y Hy ->%list_elem_of_singleton. contradiction.
Qed.

Lemma collect_all (xs : list A) : forall acc,
  NoDup acc ->
  NoDup (fold_left (collect name_of) xs acc) /\
  (forall name, name ∈ fold_left (collect name_of) xs acc <->
                name ∈ acc \/ exists x, x ∈ xs /\ name_of x = Some name).
Proof.
  induction xs as [|x xs IH]; intros acc Hacc; simpl.
  - split; [exact Hacc|]. intros name. split; [auto|].
    intros [H|(x & Hx & _)]; [exact H|]. inversion Hx.
  - assert (Hacc' : NoDup (collect name_of acc x)).
    { unfold collect. destruct (name_of x); [apply set_add_NoDup|]; exact Hacc. }
    destruct (IH _ Hacc') as [Hnd Hin]. split; [exact Hnd|].
    intros name. rewrite Hin. unfold collect.
    destruct (name_of x) as [n|] eqn:En.
    + rewrite set_add_elem. split.
      * intros [[->|H]|(y & Hy & E)]; [right|left|right]; eauto.
        -- exists x. split; [left|exact En].
        -- exists y. split; [right; exact Hy|exact E].
      * intros [H|(y & Hy & E)]; [auto|].
        apply elem_of_cons in Hy as [->|Hy]; [left; left; congruence|].
        right. eauto.
    + split.
      * intros [H|(y & Hy & E)]; [auto|]. right. exists y.
        split; [right; exact Hy|exact E].
      * intros [H|(y & Hy & E)]; [auto|].
        apply elem_of_cons in Hy as [->|Hy]; [congruence|]. right. eauto.
Qed.

(** Names that are new and distinct are appended in their order. *)
Lemma collect_fresh (xs : list A) (names : list jsstring) : forall acc,
  Forall2 (fun x n => name_of x = Some n) xs names ->
  NoDup (acc ++ names) ->
  fold_left (collect name_of) xs acc = acc ++ names.
Proof.
  intros acc H. revert acc.
  induction H as [|x n xs names Hx _ IH]; intros acc Hnd; simpl.
  - rewrite app_nil_r. reflexivity.
  - unfold collect at 2. rewrite Hx. unfold set_add.
    assert (Hn : n ∉ acc).
    { apply NoDup_app in Hnd as (_ & Hd & _). intros Hin.
      apply (Hd n Hin). left. }
    rewrite bool_decide_false by exact Hn.
    rewrite IH; [rewrite <- app_assoc; reflexivity|].
    rewrite <- app_assoc. exact Hnd.
Qed.

End Collect.

Lemma getUserConfiguredModelNames_collect (entries : list json) :
  getUserConfiguredModelNames (Some (JArray entries)) =
  fold_left (collect (fun entry => normalizeModelName (Some entry))) entries [].
Proof. reflexivity. Qed.

Lemma user_names (value : jsval) :
  let names := getUserConfiguredModelNames value in
  NoDup names /\
  forall name, name ∈ names <->
    exists entries entry,
      value = Some (JArray entries) /\ entry ∈ entries /\
      normalizeModelName (Some entry) = Some name.
Proof.
  intros names. unfold names. destruct value as [[ | | | |entries| ]|];
    try (split; [constructor|]; intros name; split;
         [intros H; inversion H | intros (? & ? & [=] & _)]).
  rewrite getUserConfiguredModelNames_collect.
  destruct (collect_all (fun entry => normalizeModelName (Some entry))
              entries [] (NoDup_nil_2)) as [Hnd Hin].
  split; [exact Hnd|]. intros name. rewrite Hin. split.
  - intros [H|(x & Hx & E)]; [inversion H|]. eauto.
  - intros (es & x & [= <-] & Hx & E). right. eauto.
Qed.

Lemma user_names_trimmed (value : jsval) (name : jsstring) :
  name ∈ getUserConfiguredModelNames value -> trimmed_name name.
Proof.
  intros (es & x & _ & _ & E)%user_names. apply (normalizeModelName_fixed _ _ E).
Qed.

(** X16.  The configured model names hold no duplicate; a name is among
    them exactly when some entry of the setting normalizes to it, so
    every name is non-empty and trimmed and entries that are not
    strings, or blank, are skipped; a setting that is not an array
    gives no name; and reading back the names as a setting gives the
    same names in the same order. *)
Theorem X16_getUserConfiguredModelNames_set (value : jsval) :
  let names := getUserConfiguredModelNames value in
  NoDup names /\
  (forall name, name ∈ names <->
     exists entries entry,
       value = Some (JArray entries) /\ entry ∈ entries /\
       normalizeModelName (Some entry) = Some name) /\
  (forall name, name ∈ names -> name <> [] /\ trim name = name) /\
  getUserConfiguredModelNames (Some (JArray (JString <$> names))) = names.
Proof.
  intros names. destruct (user_names value) as [Hnd Hin].
  split_and!.
  - exact Hnd.
  - exact Hin.
  - intros name Hname. exact (user_names_trimmed value name Hname).
  - rewrite getUserConfiguredModelNames_collect.
    rewrite (collect_fresh _ (JString <$> names) names []); [reflexivity| |exact Hnd].
    apply Forall2_fmap_l, Forall_Forall2_diag, Forall_forall.
    intros name (es & x & _ & _ & E)%Hin. apply (normalizeModelName_fixed _ _ E).
Qed.

Lemma getConfiguredProviderModelNames_collect (providers : list provider_config)
    (providerId : jsstring) :
  getConfiguredProviderModelNames providers providerId =
  fold_left
    (collect (fun p => if bool_decide (provider p = providerId)
                       then normalizeModelName (Some (JString (model p)))
                       else None))
    providers [].
Proof.
  unfold getConfiguredProviderModelNames. generalize (@nil jsstring).
  induction providers as [|p ps IH]; intros acc; [reflexivity|].
  simpl. rewrite IH. f_equal. unfold collect.
  destruct (bool_decide (provider p = providerId)); reflexivity.
Qed.

Lemma configured_names (providers : list provider_config) (providerId : jsstring) :
  let names := getConfiguredProviderModelNames providers providerId in
  NoDup names /\
  forall name, name ∈ names <->
    exists p, p ∈ providers /\ provider p = providerId /\
              trim (model p) = name /\ name <> [].
Proof.
  intros names. unfold names. rewrite getConfiguredProviderModelNames_collect.
  destruct (collect_all
              (fun p => if bool_decide (provider p = providerId)
                        then normalizeModelName (Some (JString (model p)))
                        else None)
              providers [] NoDup_nil_2) as [Hnd Hin].
  split; [exact Hnd|]. intros name. rewrite Hin. split.
  - intros [H|(p & Hp & E)]; [inversion H|]. exists p.
    case_bool_decide; [|discriminate].
    apply normalizeModelName_trim in E as [Ht Hne]. auto.
  - intros (p & Hp & Hid & Ht & Hne). right. exists p. split; [exact Hp|].
    rewrite bool_decide_true by exact Hid.
    apply normalizeModelName_trim. auto.
Qed.

(** X17.  The model names configured for a provider are, without
    duplicate, the trimmed and non-empty model names of the entries of
    that provider: an entry of another provider never contributes a
    name, and an entry with a blank model name is skipped. *)
Theorem X17_getConfiguredProviderModelNames_set (providers : list provider_config)
    (providerId : jsstring) :
  let names := getConfiguredProviderModelNames providers providerId in
  NoDup names /\
  (forall name, name ∈ names <->
     exists p, p ∈ providers /\ provider p = providerId /\
               trim (model p) = name /\ name <> []).
Proof. apply configured_names. Qed.

(* ===================================================================== *)
(** * The WebLLM factory and the preload                                  *)
(* ===================================================================== *)

(** X18.  The factory of the WebLLM provider never caches a model under
    the empty name: it throws on an empty model name, even when models
    are configured, and with no model name it throws exactly when no
    model is configured.  When it returns a model, the model is cached
    under the name asked for, or under the first configured name when
    none was asked for, and the initialization of that name is in
    flight. *)
Theorem X18_webLLM_factory_model (value : jsval) (options_model : option jsstring)
    (c : cache) :
  let configured := getUserConfiguredModelNames value in
  webLLM_factory configured (Some []) c = NoModelConfigured /\
  (webLLM_factory configured None c = NoModelConfigured <-> configured = []) /\
  (forall c' model,
     webLLM_factory configured options_model c = Created c' model ->
     exists name,
       name <> [] /\
       (options_model = Some name \/
        options_model = None /\ head configured = Some name) /\
       webLLMModels c' !! name = Some model /\
       is_Some (webLLMModelInitialization c' !! name)).
Proof.
  intros configured. split_and!.
  - reflexivity.
  - unfold webLLM_factory.
    destruct configured as [|n ns] eqn:E; [split; reflexivity|].
    assert (Hn : trimmed_name n).
    { apply (user_names_trimmed value). fold configured. rewrite E. left. }
    destruct Hn as [Hne _]. destruct n as [|ch rest]; [congruence|]. simpl.
    destruct (getOrCreateWebLLMModel _ c) as [c1 m].
    destruct (initializeWebLLMModel _ c1) as [c2 p]. split; discriminate.
  - intros c' model. unfold webLLM_factory.
    set (chosen := match options_model with
                   | Some m => Some m
                   | None => head configured
                   end).
    assert (Hchosen : forall name, chosen = Some name ->
              options_model = Some name \/
              options_model = None /\ head configured = Some name).
    { unfold chosen. destruct options_model; intros name; [left|right]; auto. }
    destruct chosen as [[|ch rest]|]; try discriminate.
    specialize (Hchosen _ eq_refl).
    unfold getOrCreateWebLLMModel, initializeWebLLMModel, getOrCreateWebLLMModel.
    intros H. exists (ch :: rest). split; [discriminate|]. split; [exact Hchosen|].
    destruct (webLLMModels c !! (ch :: rest)) as [m|] eqn:Em; simpl in H.
    + rewrite Em in H.
      destruct (webLLMModelInitialization c !! (ch :: rest)) as [p|] eqn:Ei;
        simpl in H; injection H as <- <-; simpl.
      * rewrite Em, Ei. eauto.
      * rewrite Em, lookup_insert_eq. eauto.
    + destruct (webLLMModelInitialization c !! (ch :: rest)) as [p|] eqn:Ei;
        simpl in H.
      * injection H as <- <-. simpl. rewrite lookup_insert_eq, Ei. eauto.
      * rewrite lookup_insert_eq in H. injection H as <- <-. simpl.
        rewrite !lookup_insert_eq. eauto.
Qed.

Lemma preload_serve_all (names : list jsstring) : forall c,
  fold_left (fun c modelName => (initializeWebLLMModel modelName c).1) names c =
  (serve_all c (Initialize <$> names)).1.
Proof.
  induction names as [|n names IH]; intros c; [reflexivity|].
  rewrite fmap_cons, serve_all_cons. cbn [fold_left fst]. rewrite IH.
  unfold serve. destruct (initializeWebLLMModel n c) as [c1 p]. reflexivity.
Qed.

Lemma asks_initialize (name : jsstring) (names : list jsstring) :
  name ∈ names -> existsb (asks name) (Initialize <$> names) = true.
Proof.
  induction names as [|n names IH]; [intros H; inversion H|].
  rewrite fmap_cons. cbn [existsb asks].
  intros [->|H]%elem_of_cons.
  - rewrite bool_decide_true by reflexivity. reflexivity.
  - rewrite (IH H). apply orb_true_r.
Qed.

Lemma initializes_initialize (name : jsstring) (names : list jsstring) :
  existsb (initializes name) (Initialize <$> names) =
  existsb (asks name) (Initialize <$> names).
Proof.
  induction names as [|n names IH]; [reflexivity|].
  rewrite fmap_cons. cbn [existsb asks initializes]. rewrite IH. reflexivity.
Qed.

Lemma not_settled (name : jsstring) (names : list jsstring) :
  Settled name ∉ Initialize <$> names.
Proof. intros (n & [=] & _)%list_elem_of_fmap. Qed.

Lemma initialize_sets (n : jsstring) (c : cache) :
  is_Some (webLLMModelInitialization (initializeWebLLMModel n c).1 !! n).
Proof.
  unfold initializeWebLLMModel.
  destruct (webLLMModelInitialization c !! n) as [q|] eqn:E; simpl; [rewrite E; eauto|].
  destruct (getOrCreateWebLLMModel n c) as [c1 m]. simpl.
  rewrite lookup_insert_eq. eauto.
Qed.

Lemma initialize_keeps (n k : jsstring) (c : cache) :
  is_Some (webLLMModelInitialization c !! k) ->
  is_Some (webLLMModelInitialization (initializeWebLLMModel n c).1 !! k).
Proof.
  intros Hk. unfold initializeWebLLMModel, getOrCreateWebLLMModel.
  destruct (webLLMModelInitialization c !! n) as [q|] eqn:E; simpl; [exact Hk|].
  destruct (decide (n = k)) as [->|Hne].
  - destruct (webLLMModels c !! k); simpl; rewrite lookup_insert_eq; eauto.
  - destruct (webLLMModels c !! n); simpl; rewrite lookup_insert_ne by exact Hne;
      exact Hk.
Qed.

Lemma preload_in_flight (names : list jsstring) : forall c k,
  k ∈ names \/ is_Some (webLLMModelInitialization c !! k) ->
  is_Some (webLLMModelInitialization
             (fold_left (fun c modelName => (initializeWebLLMModel modelName c).1)
                        names c) !! k).
Proof.
  induction names as [|n names IH]; intros c k; simpl.
  - intros [H|H]; [inversion H | exact H].
  - intros [[->|H]%elem_of_cons|H]; apply IH; auto.
    + right. apply initialize_sets.
    + right. apply initialize_keeps, H.
Qed.

Lemma preload_settled (names : list jsstring) : forall c,
  (forall k, k ∈ names -> is_Some (webLLMModelInitialization c !! k)) ->
  fold_left (fun c modelName => (initializeWebLLMModel modelName c).1) names c = c.
Proof.
  induction names as [|n names IH]; intros c H; [reflexivity|]. simpl.
  assert (E : (initializeWebLLMModel n c).1 = c).
  { unfold initializeWebLLMModel. destruct (H n) as [q ->]; [left|reflexivity]. }
  rewrite E. apply IH. intros k Hk. apply H. right. exact Hk.
Qed.

(** X19.  The preload builds one model, and starts one initialization,
    for each model that an entry of the WebLLM provider names and that
    is not cached yet, under its trimmed name, however many entries
    name it and whatever whitespace they put around the name.  While
    the initializations are in flight, a second preload changes
    nothing. *)
Theorem X19_preload_once (providers : list provider_config) (p : provider_config)
    (c : cache) :
  p ∈ providers -> provider p = str "web-llm" -> trim (model p) <> [] ->
  webLLMModels c !! trim (model p) = None ->
  webLLMModelInitialization c !! trim (model p) = None ->
  let c' := preloadConfiguredWebLLMModels providers c in
  built (trim (model p)) c' = S (built (trim (model p)) c) /\
  started (trim (model p)) c' = S (started (trim (model p)) c) /\
  is_Some (webLLMModels c' !! trim (model p)) /\
  is_Some (webLLMModelInitialization c' !! trim (model p)) /\
  preloadConfiguredWebLLMModels providers c' = c'.
Proof.
  intros Hp Hid Hne Hm Hi c'.
  set (name := trim (model p)) in *.
  assert (Hin : name ∈ getConfiguredWebLLMModelNames providers).
  { apply configured_names. exists p. auto. }
  assert (Hflight : forall k, k ∈ getConfiguredWebLLMModelNames providers ->
                      is_Some (webLLMModelInitialization c' !! k)).
  { intros k Hk. apply preload_in_flight. left. exact Hk. }
  split_and!; [..|apply Hflight, Hin|apply preload_settled, Hflight].
  all: unfold c', preloadConfiguredWebLLMModels; rewrite preload_serve_all.
  all: set (rs := Initialize <$> getConfiguredWebLLMModelNames providers).
  all: destruct (serve_all_absent name rs c Hm Hi (not_settled _ _))
         as (Hb & Hs & h & q & Hans & Hmodel).
  all: unfold rs in *; rewrite initializes_initialize in Hs.
  all: rewrite (asks_initialize _ _ Hin) in Hb, Hs, Hmodel.
  - lia.
  - lia.
  - rewrite (Hmodel eq_refl). eauto.
Qed.

Lemma X19_preload_once_witness :
  let providers :=
    [ {| id := str "a"; provider := str "web-llm"; model := str " m " |};
      {| id := str "b"; provider := str "transformers-js"; model := str "t" |};
      {| id := str "c"; provider := str "web-llm"; model := str "m" |} ] in
  let c' := preloadConfiguredWebLLMModels providers empty_cache in
  built (str "m") c' = 1%nat /\
  started (str "m") c' = 1%nat /\
  is_Some (webLLMModels c' !! str "m") /\
  is_Some (webLLMModelInitialization c' !! str "m") /\
  preloadConfiguredWebLLMModels providers c' = c'.
Proof.
  exact (X19_preload_once
           [ {| id := str "a"; provider := str "web-llm"; model := str " m " |};
             {| id := str "b"; provider := str "transformers-js"; model := str "t" |};
             {| id := str "c"; provider := str "web-llm"; model := str "m" |} ]
           {| id := str "a"; provider := str "web-llm"; model := str " m " |}
           empty_cache ltac:(left) eq_refl ltac:(discriminate) eq_refl eq_refl).
Defined.

(* ===================================================================== *)
(** * The wording of an initialization error                              *)
(* ===================================================================== *)




End ConfiguredModels.
(* ===================================================================== *)
(** * The execution queue: releasing                                      *)
(* ===================================================================== *)

Section Releasing.

(** X21.  The release callback is idempotent: calling it a second time
    changes nothing.  It never takes a slot back, it records no new
    call, and it leaves the queue of every other model as it is. *)
Theorem X21_release_idempotent (s : slot) (e : executor) :
  release s (release s e) = release s e /\
  current s ∈ released (release s e) /\
  released e ⊆ released (release s e) /\
  acquired (release s e) = acquired e /\
  (forall m, m <> model s ->
     modelExecutionQueue (release s e) !! m = modelExecutionQueue e !! m).
Proof.
  assert (Hin : current s ∈ released (release s e)).
  { unfold release. destruct (decide _) as [Hr|Hr]; [exact Hr|]. simpl. set_solver. }
  split_and!.
  - unfold release at 1. rewrite decide_True by exact Hin. reflexivity.
  - exact Hin.
  - apply release_released.
  - apply release_acquired.
  - intros m Hm. unfold release. destruct (decide _) as [Hr|Hr]; [reflexivity|].
    simpl. destruct (decide _); [|reflexivity].
    apply lookup_delete_ne. congruence.
Qed.

(** Every promise [current] that has been released is the one of a call
    made before. *)
Lemma released_acquired (e : executor) :
  reachable e ->
  forall x, x ∈ released e -> (x < length (acquired e))%nat.
Proof.
  induction 1 as [|e m He IH|e s He IH Hs Hg].
  - intros x Hx. set_solver.
  - intros x Hx. specialize (IH x Hx). simpl. lia.
  - intros x Hx. rewrite release_acquired.
    destruct (release_released_inv s e x Hx) as [-> | Hx']; [|exact (IH x Hx')].
    apply (inv_current e (reachable_inv e He) s Hs).
Qed.

(** The tail kept for a model is the tail of a call on that model that
    has not released. *)
Lemma tail_is_live (e : executor) :
  reachable e ->
  forall m t, modelExecutionQueue e !! m = Some t ->
    exists s, s ∈ acquired e /\ model s = m /\ queueTail s = t /\
              current s ∉ released e.
Proof.
  induction 1 as [|e m0 He IH|e s He IH Hs Hg].
  - intros m t H. simpl in H. rewrite lookup_empty in H. discriminate.
  - intros m t. simpl. destruct (decide (m0 = m)) as [->|Hne].
    + rewrite lookup_insert_eq. intros [= <-].
      eexists. split; [left|]. simpl. split_and!; try reflexivity.
      intros Hx. apply (released_acquired e He) in Hx. lia.
    + rewrite lookup_insert_ne by exact Hne. intros H.
      destruct (IH m t H) as (s & Hs & Hrest). exists s. split; [right; exact Hs|].
      exact Hrest.
  - intros m t. unfold release. destruct (decide (current s ∈ released e)) as [Hr|Hr];
      [apply IH|].
    simpl. intros H.
    assert (Hq : modelExecutionQueue e !! m = Some t /\
                 (modelExecutionQueue e !! model s = Some (queueTail s) -> m <> model s)).
    { destruct (decide (modelExecutionQueue e !! model s = Some (queueTail s)))
        as [Hd|Hd].
      - apply lookup_delete_Some in H as [Hne H]. split; [exact H|]. congruence.
      - split; [exact H|]. contradiction. }
    destruct Hq as [Hq Hne].
    destruct (IH m t Hq) as (s1 & Hs1 & Hm1 & Ht1 & Hr1).
    exists s1. split_and!; try assumption.
    intros Hx. assert (Hc : current s1 = current s) by set_solver.
    assert (s1 = s) as ->
      by (apply (inv_unique e (reachable_inv e He)); assumption).
    apply Hne; [|symmetry; exact Hm1]. rewrite Hm1, Hq, Ht1. reflexivity.
Qed.

(** X22.  The queue keeps a promise for a model exactly as long as some
    call on that model has not released: once every call on a model has
    released, its entry is deleted, so an idle model holds no chain of
    promises and its next call is granted at once. *)
Theorem X22_queue_entry_while_busy (e : executor) (m : handle) :
  reachable e ->
  (modelExecutionQueue e !! m = None <->
   forall s, s ∈ acquired e -> model s = m -> current s ∈ released e) /\
  (modelExecutionQueue e !! m = None ->
   granted (acquireModelExecutionSlot m e).1 (acquireModelExecutionSlot m e).2
   = true).
Proof.
  intros He. split; [split|].
  - apply (inv_none e (reachable_inv e He)).
  - intros Hall. destruct (modelExecutionQueue e !! m) as [t|] eqn:E; [|reflexivity].
    destruct (tail_is_live e He m t E) as (s & Hs & Hm & _ & Hr).
    exfalso. apply Hr, Hall; assumption.
  - intros E. unfold granted. simpl. rewrite E. reflexivity.
Qed.

Lemma X22_queue_entry_while_busy_witness :
  modelExecutionQueue (release first_call (acquireModelExecutionSlot 0 idle).1)
    !! 0%nat = None.
Proof.
  apply (X22_queue_entry_while_busy
           (release first_call (acquireModelExecutionSlot 0 idle).1) 0%nat).
  - apply reach_release; [apply reach_acquire, reach_idle | left | reflexivity].
  - intros s [->|Hs]%elem_of_cons _; [|inversion Hs].
    vm_compute. set_solver.
Defined.

End Releasing.

(* ===================================================================== *)
(** * The stream that holds a slot                                        *)
(* ===================================================================== *)

Section HeldStream.
Import SerializedStream Views.
Context {T : Type}.

Implicit Types (w : wrapped T) (cb : callback T) (cbs : list (callback T)).

Lemma call_delivers w cb :
  delivers cb = true ->
  exists value, call w cb = enqueue value w /\ delivered [cb] = [value].
Proof.
  destruct cb as [[value| |] [|]|]; try discriminate. intros _. eauto.
Qed.

Lemma call_other w cb :
  delivers cb = false -> call w cb = release_once w /\ delivered [cb] = [].
Proof.
  destruct cb as [[value| |] [|]|[|]]; try discriminate; intros _;
    split; try reflexivity.
  unfold call, release_once.
  destruct (SerializedStream.released w) eqn:E; simpl; rewrite ?E; reflexivity.
Qed.

(** Once released, nothing is released again. *)
Lemma calls_released cbs : forall w,
  SerializedStream.released w = true ->
  let w' := calls w cbs in
  SerializedStream.released w' = true /\ releases w' = releases w /\
  queue_of w' = queue_of w /\ slot_of w' = slot_of w /\
  enqueued w' = rev (delivered cbs) ++ enqueued w.
Proof.
  induction cbs as [|cb cbs IH]; intros w Hw; [simpl; auto|].
  unfold calls. simpl fold_left. fold (calls (call w cb) cbs).
  destruct (delivers cb) eqn:E.
  - destruct (call_delivers w cb E) as (value & -> & Hd).
    destruct (IH (enqueue value w) Hw) as (H1 & H2 & H3 & H4 & H5).
    split_and!; try assumption.
    rewrite H5. change (cb :: cbs) with ([cb] ++ cbs).
    destruct cb as [[v| |] [|]|]; try discriminate. injection Hd as ->.
    simpl. rewrite <- app_assoc. reflexivity.
  - destruct (call_other w cb E) as [-> Hd].
    assert (Hsame : release_once w = w) by (unfold release_once; rewrite Hw; reflexivity).
    rewrite Hsame. destruct (IH w Hw) as (H1 & H2 & H3 & H4 & H5).
    split_and!; try assumption. rewrite H5.
    destruct cb as [[v| |] [|]|]; try discriminate; reflexivity.
Qed.

Lemma calls_held cbs : forall w,
  SerializedStream.released w = false ->
  let w' := calls w cbs in
  SerializedStream.released w' = negb (forallb delivers cbs) /\
  releases w' = (releases w + if forallb delivers cbs then 0 else 1)%nat /\
  queue_of w' = (if forallb delivers cbs then queue_of w
                 else release (slot_of w) (queue_of w)) /\
  enqueued w' = rev (delivered cbs) ++ enqueued w.
Proof.
  induction cbs as [|cb cbs IH]; intros w Hw.
  - simpl. split_and!; auto.
  - unfold calls. simpl fold_left. fold (calls (call w cb) cbs).
    destruct (delivers cb) eqn:E.
    + destruct (call_delivers w cb E) as (value & -> & Hd).
      destruct (IH (enqueue value w) Hw) as (H1 & H2 & H3 & H4).
      simpl forallb. rewrite E. simpl andb.
      split_and!; try assumption.
      rewrite H4. destruct cb as [[v| |] [|]|]; try discriminate.
      injection Hd as ->. simpl. rewrite <- app_assoc. reflexivity.
    + destruct (call_other w cb E) as [-> Hd].
      simpl forallb. rewrite E. simpl andb. simpl negb.
      assert (Hrel : SerializedStream.released (release_once w) = true)
        by (unfold release_once; rewrite Hw; reflexivity).
      destruct (calls_released cbs _ Hrel) as (H1 & H2 & H3 & H4 & H5).
      assert (Hro : releases (release_once w) = S (releases w) /\
                    queue_of (release_once w) = release (slot_of w) (queue_of w) /\
                    enqueued (release_once w) = enqueued w)
        by (unfold release_once; rewrite Hw; auto).
      destruct Hro as (R2 & R3 & R5). rewrite R2 in H2. rewrite R3 in H3.
      rewrite R5 in H5.
      split_and!; [exact H1 | rewrite H2; lia | exact H3 |].
      rewrite H5. destruct cb as [[v| |] [|]|]; try discriminate; reflexivity.
Qed.

(** X23.  A stream wrapped by [wrapSerializedStream] releases its slot
    exactly once, at the first callback that does not deliver a chunk:
    the end of the source, a failed read, a cancellation, or a
    controller that throws.  As long as every callback delivers a
    chunk the slot is held; later callbacks, in any number and order,
    never release again; and the chunks delivered are the chunks read,
    in order. *)
Theorem X23_wrapSerializedStream_releases_once (s : slot) (e : executor)
    (cbs : list (callback T)) :
  let w := calls (wrapSerializedStream s e) cbs in
  releases w = (if forallb delivers cbs then 0 else 1)%nat /\
  queue_of w = (if forallb delivers cbs then e else release s e) /\
  SerializedStream.released w = negb (forallb delivers cbs) /\
  rev (enqueued w) = delivered cbs.
Proof.
  intros w.
  destruct (calls_held cbs (wrapSerializedStream s e) eq_refl) as (H1 & H2 & H3 & H4).
  fold w in H1, H2, H3, H4. simpl in H2, H3, H4.
  split_and!; try assumption.
  rewrite H4, app_nil_r, rev_involutive. reflexivity.
Qed.

End HeldStream.

(* ===================================================================== *)
(** * Progress notifications                                              *)
(* ===================================================================== *)

Section ProgressNotifications.
Import Progress Views.
Context {P : Type} (clamp : P -> P) (percentage_of : P -> Z) (zero one : P).
Context (decimal : Z -> jsstring) (modelName : jsstring).

Lemma callback_updates (rs : list (report P)) : forall st id,
  webllm_notificationId st = Some id ->
  let st' := fold_left (initProgressCallback clamp percentage_of one decimal modelName)
                       rs st in
  webllm_notificationId st' = Some id /\
  exists updates,
    webllm_calls st' = updates ++ webllm_calls st /\
    length updates = length rs /\
    Forall (updates_notification id) updates.
Proof.
  induction rs as [|r rs IH]; intros st id Hid.
  - simpl. split; [exact Hid|]. exists []. auto.
  - simpl fold_left.
    set (st1 := initProgressCallback clamp percentage_of one decimal modelName st r).
    assert (Hstep : webllm_notificationId st1 = Some id /\
                    exists u, webllm_calls st1 = u :: webllm_calls st /\
                              updates_notification id u).
    { unfold st1, initProgressCallback. rewrite Hid.
      destruct (_ =? 100)%Z; simpl; split; eauto; eexists; split; reflexivity. }
    destruct Hstep as (Hid' & u & Hu & Hup).
    destruct (IH _ id Hid') as (H1 & updates & H2 & H3 & H4).
    split; [exact H1|]. exists (updates ++ [u]). split_and!.
    + rewrite H2, Hu, <- app_assoc. reflexivity.
    + rewrite length_app, H3. simpl. lia.
    + apply Forall_app. split; [exact H4|]. constructor; [exact Hup|constructor].
Qed.

(** X24.  For one WebLLM model, the first progress report opens one
    in-progress notification that does not close by itself, even when
    that report is already at 100 percent; every later report updates
    that same notification, and none opens another. *)
Theorem X24_initProgressCallback_one_notification (r : report P) (rs : list (report P)) :
  let st := fold_left (initProgressCallback clamp percentage_of one decimal modelName)
                      (r :: rs) webllm_start in
  let clampedProgress := clamp (progress_of r) in
  exists updates,
    webllm_calls st =
      updates ++
      [Emit (default (getWebLLMProgressMessage decimal modelName
                        (percentage_of clampedProgress)) (text_of r))
            InProgress (Some clampedProgress) None] /\
    length updates = length rs /\
    Forall (updates_notification 0) updates.
Proof.
  intros st clampedProgress. unfold st. simpl fold_left.
  destruct (callback_updates rs
              (initProgressCallback clamp percentage_of one decimal modelName
                 webllm_start r) 0%nat eq_refl)
    as (_ & updates & H2 & H3 & H4).
  exists updates. split_and!; [exact H2 | exact H3 | exact H4].
Qed.

(** ** The reporter of [initializeTransformersModel] *)

Lemma react_phase (st : reporter P) (ev : event P) :
  reporter_phase st ->
  reporter_phase (react clamp percentage_of one decimal modelName st ev).
Proof.
  intros [p|p|p b updates message progress Hu|p message]; destruct ev; simpl;
    try (destruct b; simpl);
    first [ constructor; assumption
          | constructor
          | apply (shown _ _ [] _ _); constructor
          | apply (shown _ _ (_ :: _) _ _); constructor; [reflexivity|assumption] ].
Qed.

Lemma run_phase (evs : list (event P)) : forall st,
  reporter_phase st ->
  reporter_phase (fold_left (react clamp percentage_of one decimal modelName) evs st).
Proof.
  induction evs as [|ev evs IH]; intros st Hst; [exact Hst|].
  simpl. apply IH, react_phase, Hst.
Qed.

(** X25.  One load shows at most one notification.  Whatever the order
    of the timer, the progress reports and the outcome, the reporter
    calls [Notification.emit] at most once, before any other call, and
    every call of [Notification.update] is for the notification that
    call created. *)
Theorem X25_reporter_one_notification (evs : list (event P)) :
  let st := run clamp percentage_of zero one decimal modelName evs in
  exists updates opening,
    notifications st = updates ++ opening /\
    Forall (updates_notification 0) updates /\
    (opening = [] /\ updates = [] \/
     exists c, opening = [c] /\ is_emit c = true) /\
    (forall id, notificationId st = Some id -> id = 0%nat /\ opening <> []).
Proof.
  intros st.
  assert (Hst : reporter_phase st) by (apply run_phase; constructor).
  destruct Hst as [p|p|p b updates message progress Hu|p message]; simpl.
  - exists [], []. split_and!; auto. discriminate.
  - exists [], []. split_and!; auto. discriminate.
  - exists updates, [Emit message InProgress (Some progress) None].
    split_and!; eauto. intros id [= <-]. split; [reflexivity|discriminate].
  - exists [], [Emit message Failure None (Some 5000)].
    split_and!; eauto. discriminate.
Qed.

Lemma reports_waiting (pre : list (event P)) : forall p,
  forallb is_report pre = true ->
  exists p',
    fold_left (react clamp percentage_of one decimal modelName) pre
      {| notificationId := None; latestProgress := p;
         notificationDelayTimeout := Waiting; settled := false;
         notifications := [] |} =
      {| notificationId := None; latestProgress := p';
         notificationDelayTimeout := Waiting; settled := false;
         notifications := [] |}.
Proof.
  induction pre as [|ev pre IH]; intros p; simpl; [eauto|].
  intros [Hev Hpre]%andb_prop. destruct ev; try discriminate. simpl.
  apply IH, Hpre.
Qed.

Lemma quiet_stays (evs : list (event P)) : forall p,
  exists p',
    fold_left (react clamp percentage_of one decimal modelName) evs
      {| notificationId := None; latestProgress := p;
         notificationDelayTimeout := Cleared; settled := true;
         notifications := [] |} =
      {| notificationId := None; latestProgress := p';
         notificationDelayTimeout := Cleared; settled := true;
         notifications := [] |}.
Proof.
  induction evs as [|ev evs IH]; intros p; simpl; [eauto|].
  destruct ev; simpl; apply IH.
Qed.

(** X26.  A load that completes before the timer fires shows nothing:
    when the session is created after progress reports only, no call
    of the [Notification] API is made, then or later, whatever comes
    after: a late timer, late reports, a second outcome. *)
Theorem X26_reporter_quiet_when_fast (pre evs : list (event P)) :
  forallb is_report pre = true ->
  notifications (run clamp percentage_of zero one decimal modelName
                   (pre ++ Resolves :: evs)) = [] /\
  notificationId (run clamp percentage_of zero one decimal modelName
                    (pre ++ Resolves :: evs)) = None.
Proof.
  intros Hpre. unfold run. rewrite fold_left_app.
  unfold reporter_start. destruct (reports_waiting pre zero Hpre) as [p ->].
  simpl. destruct (quiet_stays evs p) as [p' ->]. split; reflexivity.
Qed.

(** Before the outcome, the reporter waits, or shows its notification
    if the timer has fired. *)
Lemma unsettled_phase (pre : list (event P)) : forall st,
  forallb (fun ev => negb (settles ev)) pre = true ->
  settled st = false -> reporter_phase st ->
  let st' := fold_left (react clamp percentage_of one decimal modelName) pre st in
  settled st' = false /\ reporter_phase st' /\
  (notificationId st' = None <->
   notificationId st = None /\ existsb timer_fires pre = false).
Proof.
  induction pre as [|ev pre IH]; intros st Hpre Hs Hst.
  - simpl. split_and!; auto. tauto.
  - simpl in Hpre. apply andb_prop in Hpre as [Hev Hpre]. simpl fold_left.
    set (st1 := react clamp percentage_of one decimal modelName st ev).
    assert (H1 : settled st1 = false /\
                 (notificationId st1 = None <->
                  notificationId st = None /\ timer_fires ev = false)).
    { unfold st1. destruct Hst as [p|p|p b updates message progress Hu|p message];
        try discriminate; destruct ev; try discriminate; simpl in *;
        (split; [assumption || reflexivity|]); split; intros H;
        try discriminate; try (destruct H; discriminate); auto. }
    destruct H1 as [Hs1 Hid1].
    destruct (IH st1 Hpre Hs1 (react_phase st ev Hst)) as (H2 & H3 & H4).
    split_and!; [exact H2 | exact H3 |].
    rewrite H4, Hid1. simpl. rewrite orb_false_iff. tauto.
Qed.

(** X27.  The outcome of a load is reported on the notification that is
    shown, and a failure is always reported.  When the creation of the
    session settles for the first time: if the timer has fired before,
    the last call made is an update of the notification shown, to
    success with progress 1 or to the error message; if the timer has
    not fired, a success makes no call at all and a failure emits one
    error notification.  In each case the timer can no longer open an
    in-progress notification. *)
Theorem X27_reporter_outcome (pre : list (event P)) (errorMessage : jsstring) :
  forallb (fun ev => negb (settles ev)) pre = true ->
  let ok := run clamp percentage_of zero one decimal modelName (pre ++ [Resolves]) in
  let ko := run clamp percentage_of zero one decimal modelName
              (pre ++ [Rejects errorMessage]) in
  (if existsb timer_fires pre
   then head (notifications ok) =
          Some (Update 0 (modelName ++ str " ready") (Some Success) (Some one)
                       (Some 3000)) /\
        head (notifications ko) =
          Some (Update 0 errorMessage (Some Failure) None (Some 5000))
   else notifications ok = [] /\
        notifications ko = [Emit errorMessage Failure None (Some 5000)]) /\
  notificationDelayTimeout ok <> Waiting /\
  notificationDelayTimeout ko <> Waiting.
Proof.
  intros Hpre ok ko. unfold ok, ko, run. rewrite !fold_left_app.
  destruct (unsettled_phase pre (reporter_start zero) Hpre eq_refl (waiting zero))
    as (Hs & Hph & Hid).
  set (st := fold_left (react clamp percentage_of one decimal modelName) pre
               (reporter_start zero)) in *.
  simpl fold_left.
  destruct Hph as [p|p|p b updates message progress Hu|p message];
    try discriminate Hs; simpl in Hs, Hid |- *.
  - destruct (existsb timer_fires pre).
    + exfalso. destruct Hid as [Hid _]. destruct (Hid eq_refl). discriminate.
    + split_and!; auto; discriminate.
  - subst b. simpl. destruct (existsb timer_fires pre).
    + split_and!; auto; discriminate.
    + exfalso. destruct Hid as [_ Hid]. discriminate (Hid (conj eq_refl eq_refl)).
Qed.

End ProgressNotifications.

Lemma X26_reporter_quiet_when_fast_witness :
  Progress.notifications
    (Progress.run (fun p => Z.max 0 (Z.min 100 p)) (fun p => p) 0%Z 100%Z
       (fun _ => []) (str "m")
       [ Progress.Reports 10%Z; Progress.Reports 80%Z; Progress.Resolves;
         Progress.TimerFires; Progress.Reports 100%Z ]) = [].
Proof.
  exact (proj1 (X26_reporter_quiet_when_fast (fun p => Z.max 0 (Z.min 100 p))
                  (fun p => p) 0%Z 100%Z (fun _ => []) (str "m")
                  [Progress.Reports 10%Z; Progress.Reports 80%Z]
                  [Progress.TimerFires; Progress.Reports 100%Z] eq_refl)).
Defined.

Lemma X27_reporter_outcome_witness :
  head (Progress.notifications
          (Progress.run (fun p => Z.max 0 (Z.min 100 p)) (fun p => p) 0%Z 100%Z
             (fun _ => []) (str "m")
             [ Progress.Reports 10%Z; Progress.TimerFires; Progress.Reports 80%Z;
               Progress.Rejects (str "Failed to prepare m: Unknown error") ])) =
    Some (Progress.Update 0 (str "Failed to prepare m: Unknown error")
            (Some Progress.Failure) None (Some 5000)).
Proof.
  exact (proj2 (proj1 (X27_reporter_outcome (fun p => Z.max 0 (Z.min 100 p))
                         (fun p => p) 0%Z 100%Z (fun _ => []) (str "m")
                         [ Progress.Reports 10%Z; Progress.TimerFires;
                           Progress.Reports 80%Z ]
                         (str "Failed to prepare m: Unknown error") eq_refl))).
Defined.

(* ===================================================================== *)
(** * Transformers.js models                                              *)
(* ===================================================================== *)

Section TransformersModels.
Import Transformers.

Lemma maybeWarn_inv (webgpu : bool) (c : models) :
  (warnings c <= 1)%nat ->
  (hasShownTransformersNoWebGPUWarning c = true <-> warnings c = 1%nat) ->
  let c1 := maybeWarnOnTransformersWithoutWebGPU webgpu c in
  (warnings c1 <= 1)%nat /\
  (hasShownTransformersNoWebGPUWarning c1 = true <-> warnings c1 = 1%nat) /\
  transformersModels c1 = transformersModels c /\
  built_models c1 = built_models c.
Proof.
  intros Hw Hs. unfold maybeWarnOnTransformersWithoutWebGPU.
  destruct (hasShownTransformersNoWebGPUWarning c) eqn:Eh; simpl.
  - rewrite Eh. auto.
  - destruct webgpu; simpl; [rewrite Eh; auto|].
    assert (Hw0 : warnings c = 0%nat).
    { destruct (warnings c) as [|[|k]]; [reflexivity| |lia].
      destruct Hs as [_ Hs]. discriminate (Hs eq_refl). }
    rewrite Hw0. split_and!; auto. tauto.
Qed.

Lemma get_step (name : jsstring) (webgpu : bool) (c : models) :
  (warnings c <= 1)%nat ->
  (hasShownTransformersNoWebGPUWarning c = true <-> warnings c = 1%nat) ->
  NoDup (built_models c).*1 ->
  (forall n, n ∈ (built_models c).*1 <-> is_Some (transformersModels c !! n)) ->
  let c1 := (getOrCreateTransformersModel name webgpu c).1 in
  (warnings c1 <= 1)%nat /\
  (hasShownTransformersNoWebGPUWarning c1 = true <-> warnings c1 = 1%nat) /\
  NoDup (built_models c1).*1 /\
  (forall n, n ∈ (built_models c1).*1 <-> is_Some (transformersModels c1 !! n)) /\
  (forall n, is_Some (transformersModels c1 !! n) <->
             is_Some (transformersModels c !! n) \/ n = name) /\
  (forall n h, transformersModels c !! n = Some h ->
               transformersModels c1 !! n = Some h).
Proof.
  intros Hw Hs Hnd Hdom. unfold getOrCreateTransformersModel.
  destruct (transformersModels c !! name) as [h|] eqn:E.
  - simpl. split_and!; auto. intros n. split; [auto|].
    intros [H| ->]; [exact H|]. rewrite E. eauto.
  - destruct (maybeWarn_inv webgpu c Hw Hs) as (W1 & W2 & W3 & W4).
    cbn [fst transformersModels hasShownTransformersNoWebGPUWarning built_models
         warnings].
    rewrite W3, W4.
    assert (Hfresh : name ∉ (built_models c).*1).
    { rewrite Hdom, E. intros [? [=]]. }
    assert (Hlook : forall n,
              is_Some (<[name := length (built_models c)]> (transformersModels c) !! n)
              <-> is_Some (transformersModels c !! n) \/ n = name).
    { intros n. destruct (decide (n = name)) as [->|Hne].
      - rewrite lookup_insert_eq. split; eauto.
      - rewrite lookup_insert_ne by congruence. split; [auto|].
        intros [?|?]; [assumption|contradiction]. }
    split_and!; [exact W1 | exact W2 | | | exact Hlook |].
    + rewrite fmap_cons. constructor; assumption.
    + intros n. rewrite fmap_cons, elem_of_cons, Hlook, Hdom. simpl. tauto.
    + intros n h Hn. rewrite lookup_insert_ne; [exact Hn|]. congruence.
Qed.

(** The invariant of the cache of Transformers.js models. *)
Lemma get_all_inv (calls : list (jsstring * bool)) : forall c,
  (warnings c <= 1)%nat ->
  (hasShownTransformersNoWebGPUWarning c = true <-> warnings c = 1%nat) ->
  NoDup (built_models c).*1 ->
  (forall n, n ∈ (built_models c).*1 <-> is_Some (transformersModels c !! n)) ->
  let c' := get_all c calls in
  (warnings c' <= 1)%nat /\
  (hasShownTransformersNoWebGPUWarning c' = true <-> warnings c' = 1%nat) /\
  NoDup (built_models c').*1 /\
  (forall n, n ∈ (built_models c').*1 <-> is_Some (transformersModels c' !! n)) /\
  (forall n, is_Some (transformersModels c' !! n) <->
             is_Some (transformersModels c !! n) \/ n ∈ calls.*1) /\
  (forall n h, transformersModels c !! n = Some h ->
               transformersModels c' !! n = Some h).
Proof.
  induction calls as [|[name gpu] calls IH]; intros c Hw Hs Hnd Hdom.
  - simpl. split_and!; auto.
    intros n. split; [auto|]. intros [H|H]; [exact H|inversion H].
  - unfold get_all. simpl fold_left.
    fold (get_all (getOrCreateTransformersModel name gpu c).1 calls).
    destruct (get_step name gpu c Hw Hs Hnd Hdom) as (A1 & A2 & A3 & A4 & A5 & A6).
    destruct (IH _ A1 A2 A3 A4) as (B1 & B2 & B3 & B4 & B5 & B6).
    split_and!; try assumption.
    + intros n. rewrite B5, A5. rewrite fmap_cons, elem_of_cons. simpl. tauto.
    + intros n h Hn. apply B6, A6, Hn.
Qed.

(** X28.  Whatever calls of [getOrCreateTransformersModel] are made, in
    any order and with WebGPU present or not at each of them: exactly
    one model is built for each name asked for, and it stays cached
    under that name; and the warning about the missing WebGPU is
    emitted at most once in the life of the page. *)
Theorem X28_transformers_models_once (calls : list (jsstring * bool)) :
  let c := get_all no_models calls in
  NoDup (built_models c).*1 /\
  (forall n, n ∈ (built_models c).*1 <-> n ∈ calls.*1) /\
  (forall n, n ∈ calls.*1 <-> is_Some (transformersModels c !! n)) /\
  (warnings c <= 1)%nat /\
  (forall more n h, transformersModels c !! n = Some h ->
     transformersModels (get_all c more) !! n = Some h /\
     (warnings (get_all c more) <= 1)%nat).
Proof.
  intros c.
  assert (H0 : forall n : jsstring,
            n ∈ (built_models no_models).*1 <->
            is_Some (transformersModels no_models !! n)).
  { intros n. simpl. rewrite lookup_empty. split; [intros H; inversion H|].
    intros [? [=]]. }
  destruct (get_all_inv calls no_models ltac:(simpl; lia)
              ltac:(simpl; split; discriminate) ltac:(constructor) H0)
    as (B1 & B2 & B3 & B4 & B5 & B6).
  fold c in B1, B2, B3, B4, B5, B6.
  split_and!; try assumption.
  - intros n. rewrite B4, B5. simpl. rewrite lookup_empty.
    split; [intros [[? [=]]|H]; exact H | auto].
  - intros n. rewrite B5. simpl. rewrite lookup_empty.
    split; [auto | intros [[? [=]]|H]; exact H].
  - intros more n h Hn.
    destruct (get_all_inv more c B1 B2 B3 B4) as (C1 & _ & _ & _ & _ & C6).
    split; [apply C6, Hn | exact C1].
Qed.

End TransformersModels.
